(** * PixelPress: the content-aware region-reconstruction engine

    A shallow embedding of the inpainting engine of PixelPress
    (TypeScript, server side) and the properties of its specification.

    Conventions of the embedding.
    - Pixel coordinates, region fields and buffer bytes are integers ([Z]).
      A [Buffer] or [Uint8Array] is a [list Z] of values in [0, 255]; a store
      into a [Uint8Array] is written out as [toUint8] (reduction modulo 256,
      and 0 for NaN).
    - JavaScript numbers that carry fractions are rationals ([Q]).  Where
      a statement depends on the rounding of the machine numbers, the
      rounding is written out: [Double.round] is the rounding of IEEE
      binary64 (in [blendNoiseWithContent]), [Float32.round] the one of a
      [Float32Array] cell (in [computeAverageContent]).  Elsewhere the
      arithmetic is exact, and the statements proved there are the ones
      that rounding leaves as they are.  Where the code can produce NaN by
      reading past the end of a buffer, the value is an [option] and [None]
      stands for NaN.
    - A call that throws returns an [EngineError]; a negative length given
      to [new Uint8Array] is the error [InvalidTypedArrayLength], and a
      loop that has no exit is the outcome [NeverReturns].
    - [Math.exp], [Math.sqrt] and [Math.log10] are the functions of the real
      numbers ([R]); the definitions that use them live in [R].
    - [Math.random] is an explicit tape of draws threaded through the code.
    - The image library (sharp) is modelled by its documented behaviour on
      raw three-channel images: [extract] fails with "bad extract area" when
      the requested window is not inside the image, [composite] with the
      default blend puts an opaque overlay over the base image.  An image
      handle is a value: every call is modelled on the image as it was
      decoded, which is what the first call on a handle sees. *)

From Stdlib Require Import ZArith QArith Qround Qminmax Qabs Qreals.
From Stdlib Require Import Reals Lia Lra Psatz List Bool.
Import ListNotations.

Local Open Scope Z_scope.

(** ** Shared data model (types/inpainting) *)

Record Region : Type := mkRegion
  { region_x : Z; region_y : Z; region_width : Z; region_height : Z }.

Record Size : Type := mkSize { size_width : Z; size_height : Z }.

(** The region as the caller sends it: plain numbers, not yet floored. *)
Record WatermarkArea : Type := mkArea
  { area_x : Q; area_y : Q; area_width : Q; area_height : Q }.

Definition Buffer : Type := list Z.

Definition isByte (b : Z) : Prop := 0 <= b <= 255.

(** A store into a [Uint8Array]: the integer is reduced modulo 256. *)
Definition toUint8 (v : Z) : Z := v mod 256.

(** [for (let i = 0; i < n; i++)]: the values the loop variable takes. *)
Definition range (n : Z) : list Z := map Z.of_nat (seq 0 (Z.to_nat n)).

(** [for (let i = lo; i < hi; i++)]. *)
Definition rangeFrom (lo hi : Z) : list Z := map (fun i => lo + i) (range (hi - lo)).

(** [buffer[i]]: [None] is JavaScript's [undefined]. *)
Definition readAt (buffer : Buffer) (i : Z) : option Z :=
  if i <? 0 then None else nth_error buffer (Z.to_nat i).

(** [array[i] = v] on a typed array: a store outside the array is ignored. *)
Definition storeAt {A : Type} (l : list A) (i : Z) (v : A) : list A :=
  if (i <? 0) || (Z.of_nat (length l) <=? i) then l
  else firstn (Z.to_nat i) l ++ v :: skipn (S (Z.to_nat i)) l.

(** [array.slice(0, end)] for an integer [end]; a negative [end] counts
    from the end of the array. *)
Definition slice0 {A : Type} (l : list A) (end_ : Z) : list A :=
  if end_ <? 0 then firstn (Z.to_nat (Z.of_nat (length l) + end_)) l
  else firstn (Z.to_nat end_) l.

(** A store of [buffer[i]] into a [Uint8Array]: [undefined] is stored as 0. *)
Definition byteOrZero (v : option Z) : Z :=
  match v with
  | Some b => toUint8 b
  | None => 0
  end.

(** A patch of the sampler. *)
Record Patch : Type := mkPatch
  { patch_pixels : Buffer;
    patch_position : Q * Q;
    patch_size : Size;
    patch_similarity : Q }.

Definition PATCH_SIZE : Z := 16.
Definition SAMPLE_DISTANCE : Z := 8.

(** ** imageUtils: region geometry *)

Module ImageUtils.

Definition expandRegion (region : Region) (expandBy : Z) : Region :=
  {| region_x := Z.max 0 (region_x region - expandBy);
     region_y := Z.max 0 (region_y region - expandBy);
     region_width := region_width region + 2 * expandBy;
     region_height := region_height region + 2 * expandBy |}.

Definition clampRegionToImage (region : Region) (imageSize : Size) : Region :=
  let clampedX := Z.max 0 (Z.min (region_x region) (size_width imageSize - 1)) in
  let clampedY := Z.max 0 (Z.min (region_y region) (size_height imageSize - 1)) in
  let maxWidth := size_width imageSize - clampedX in
  let maxHeight := size_height imageSize - clampedY in
  {| region_x := clampedX;
     region_y := clampedY;
     region_width := Z.min (region_width region) maxWidth;
     region_height := Z.min (region_height region) maxHeight |}.

Definition isRegionValid (region : Region) (imageSize : Size) : bool :=
  (region_x region >=? 0) &&
  (region_y region >=? 0) &&
  (region_x region + region_width region <=? size_width imageSize) &&
  (region_y region + region_height region <=? size_height imageSize) &&
  (region_width region >? 0) &&
  (region_height region >? 0).

End ImageUtils.

(** ** Errors raised by the engine and its components

    Every failure inside [processWatermarkRemoval] is caught at the end of
    the function and thrown again as "Inpainting failed: <message>"; the
    constructors below are the messages. *)

Inductive EngineError : Type :=
| UnableToGetImageDimensions
    (* 'Unable to get image dimensions' *)
| InvalidRegionBounds (x y width height : Z)
    (* 'Invalid region bounds: x=.., y=.., width=.., height=..' *)
| BadExtractArea
    (* sharp: 'extract_area: bad extract area' *)
| InvalidExtractParameters
    (* 'Invalid extract parameters: ..' *)
| NoSourceRegions
    (* 'No source regions provided for interpolation' *)
| InvalidPatchesOrWeights
    (* 'Invalid patches or weights' *)
| BufferLengthMismatch
    (* 'Content and noise buffers must have the same length' *)
| InvalidTypedArrayLength
    (* RangeError of [new Uint8Array(n)] for a negative [n]:
       'Invalid typed array length: ..' *)
| NeverReturns.
    (* no message: the call does not return, a loop in it has no exit *)

Definition Result (A : Type) : Type := (EngineError + A)%type.

Definition bind {A B : Type} (r : Result A) (k : A -> Result B) : Result B :=
  match r with
  | inl e => inl e
  | inr a => k a
  end.

Notation "x <- r ;; k" := (bind r (fun x => k))
  (at level 61, r at next level, right associativity).

(** ** The image library, on raw RGB images *)

Module Sharp.

Definition channels : Z := 3.

Record Image : Type := mkImage
  { image_width : Z; image_height : Z; image_data : Buffer }.

(** The byte of channel [c] of the pixel in column [px] and row [py]. *)
Definition pixelAt (img : Image) (px py c : Z) : Z :=
  nth (Z.to_nat ((py * image_width img + px) * channels + c)) (image_data img) 0.

(** [extract] accepts a window only when it lies inside the image. *)
Definition validExtractArea (img : Image) (left top width height : Z) : bool :=
  (0 <=? left) && (0 <=? top) && (0 <? width) && (0 <? height) &&
  (left + width <=? image_width img) && (top + height <=? image_height img).

Definition extract (img : Image) (left top width height : Z) : Result Image :=
  if validExtractArea img left top width height then
    inr {| image_width := width;
           image_height := height;
           image_data :=
             flat_map (fun py =>
               flat_map (fun px =>
                 map (fun c => pixelAt img (left + px) (top + py) c) (range channels))
                 (range width))
               (range height) |}
  else inl BadExtractArea.

(** [sharp(buffer, { raw: { width, height, channels: 3 } })]. *)
Definition raw (data : Buffer) (width height : Z) : Image :=
  {| image_width := width; image_height := height; image_data := data |}.

(** [base.composite([{ input, left, top, blend: 'over' }])] with an input
    without alpha channel: inside the rectangle of the input the output is
    the input, elsewhere it is the base image. *)
Definition composite (base input : Image) (left top : Z) : Image :=
  {| image_width := image_width base;
     image_height := image_height base;
     image_data :=
       flat_map (fun py =>
         flat_map (fun px =>
           map (fun c =>
             if (left <=? px) && (px <? left + image_width input) &&
                (top <=? py) && (py <? top + image_height input)
             then pixelAt input (px - left) (py - top) c
             else pixelAt base px py c) (range channels))
           (range (image_width base)))
         (range (image_height base)) |}.

End Sharp.

(** ** Numbers *)

(** [a < b] and [a > b] on numbers. *)
Definition Qltb (a b : Q) : bool := negb (Qle_bool b a).
Definition Qgtb (a b : Q) : bool := Qltb b a.

(** [Math.round]: the nearest integer, halves rounded up. *)
Definition Qround (q : Q) : Z := Qfloor (q + (1 # 2)).
Definition Rround (r : R) : Z := Zfloor (r + / 2).

(** Binary floating point: rounding to the nearest number of a format,
    ties to the even significand. *)
Module Binary.

(** The integer nearest to [q]; a tie goes to the even one. *)
Definition roundHalfEven (q : Q) : Z :=
  let f := Qfloor q in
  match Qcompare (q - inject_Z f) (1 # 2) with
  | Lt => f
  | Gt => f + 1
  | Eq => if Z.even f then f else f + 1
  end.

(** The exponent of [q <> 0]: the [e] with [2^e <= |q| < 2^(e+1)]. *)
Definition exponentOf (q : Q) : Z :=
  let n := Z.abs (Qnum q) in
  let d := Zpos (Qden q) in
  let e := Z.log2 n - Z.log2 d in
  if (if 0 <=? e then 2 ^ e * d <=? n else d <=? n * 2 ^ (- e)) then e else e - 1.

(** Rounding to the nearest number of a binary format with [precision]
    significant bits and smallest normal exponent [emin]. *)
Definition round (precision emin : Z) (q : Q) : Q :=
  if Qnum q =? 0 then 0%Q
  else
    let e := Z.max (exponentOf q) emin in
    let k := precision - 1 - e in
    if 0 <=? k
    then (inject_Z (roundHalfEven (q * inject_Z (2 ^ k))) / inject_Z (2 ^ k))%Q
    else inject_Z (roundHalfEven (q / inject_Z (2 ^ (- k))) * 2 ^ (- k)).

End Binary.

(** IEEE 754 binary64, the numbers of JavaScript: every operation returns
    the double nearest to the exact result.  Results beyond the largest
    double (infinities) and NaN are outside the model. *)
Module Double.

Definition round : Q -> Q := Binary.round 53 (-1022).
Definition add (a b : Q) : Q := round (a + b).
Definition sub (a b : Q) : Q := round (a - b).
Definition mul (a b : Q) : Q := round (a * b).
Definition div (a b : Q) : Q := round (a / b).

End Double.

(** IEEE 754 binary32: what a store into a [Float32Array] keeps. *)
Module Float32.

Definition round : Q -> Q := Binary.round 24 (-126).

End Float32.

(** [Math.log10]. *)
Definition log10 (r : R) : R := (ln r / ln 10)%R.

(** [Math.random]: the draws of one run, and how many were consumed. *)
Record Rng : Type := mkRng { draws : nat -> Q; consumed : nat }.

Definition random (g : Rng) : Q * Rng :=
  (draws g (consumed g), {| draws := draws g; consumed := S (consumed g) |}).

(** ** TextureAnalyzer *)

Module TextureAnalyzer.

Record ColorMean : Type := mkMean { mean_r : Q; mean_g : Q; mean_b : Q }.

Record TextureDescriptor : Type := mkDescriptor
  { dominantFrequencies : list Q;      (* Float32Array(64) *)
    localBinaryPatterns : list Z;      (* Uint8Array(256) *)
    gaborResponses : list Q;           (* Float32Array(8) *)
    structuralElements : list (Q * Q * Q);
    colorDistribution_mean : ColorMean }.

Section Features.

(** The feature extractors (block cosine transform, binary-pattern
    histogram, oriented filter bank, gradient structure, colour statistics)
    are taken as given functions of the pixels, the width and the height of
    the window. *)
Variable computeDominantFrequencies : Buffer -> Z -> Z -> list Q.
Variable extractLBPFeatures : Buffer -> Z -> Z -> list Z.
Variable computeGaborResponse : Buffer -> Z -> Z -> list Q.
Variable analyzeStructuralElements : Buffer -> Z -> Z -> list (Q * Q * Q).
Variable computeColorDistribution : Buffer -> Z -> Z -> ColorMean.

Definition analyzeRegion (image : Sharp.Image) (region : Region)
  : Result TextureDescriptor :=
  regionBuffer <- Sharp.extract image (region_x region) (region_y region)
                    (region_width region) (region_height region) ;;
  let pixels := Sharp.image_data regionBuffer in
  let width := Sharp.image_width regionBuffer in
  let height := Sharp.image_height regionBuffer in
  inr {| dominantFrequencies := computeDominantFrequencies pixels width height;
         localBinaryPatterns := extractLBPFeatures pixels width height;
         gaborResponses := computeGaborResponse pixels width height;
         structuralElements := analyzeStructuralElements pixels width height;
         colorDistribution_mean := computeColorDistribution pixels width height |}.

End Features.

(** [array[Math.floor(k % array.length)]] for an integer [k >= 0]; on an
    empty array the index is NaN and the read is [undefined]. *)
Definition readModLength {A : Type} (l : list A) (k : Z) : option A :=
  nth_error l (Z.to_nat (k mod Z.of_nat (length l))).

(** [None] is NaN (a descriptor with an empty feature array). *)
Definition getTextureInfluence (x y : Z) (descriptor : TextureDescriptor) : option Q :=
  match readModLength (dominantFrequencies descriptor) (x + y),
        readModLength (localBinaryPatterns descriptor) (x * y) with
  | Some freq, Some lbp =>
      let normalizedFreq := (freq / 255)%Q in
      let normalizedLBP := (inject_Z lbp / 255)%Q in
      Some ((normalizedFreq + normalizedLBP) / 2)%Q
  | _, _ => None
  end.

(** One channel of one pixel of the swatch:
    [Math.floor(mean * (1 - textureInfluence) + noise * textureInfluence)]
    stored into a [Uint8Array]. *)
Definition synthesizeChannel (mean noise : Q) (textureInfluence : option Q) : Z :=
  match textureInfluence with
  | Some t => toUint8 (Qfloor (mean * (1 - t) + noise * t)%Q)
  | None => 0
  end.

(** The body of the two loops for the pixel [(x, y)]: three draws, in the
    order red, green, blue, then the three bytes. *)
Definition synthesizePixel (descriptor : TextureDescriptor) (x y : Z) (g : Rng)
  : list Z * Rng :=
  let (r1, g1) := random g in
  let (r2, g2) := random g1 in
  let (r3, g3) := random g2 in
  let noiseR := (r1 * 255)%Q in
  let noiseG := (r2 * 255)%Q in
  let noiseB := (r3 * 255)%Q in
  let textureInfluence := getTextureInfluence x y descriptor in
  let mean := colorDistribution_mean descriptor in
  ([ synthesizeChannel (mean_r mean) noiseR textureInfluence;
     synthesizeChannel (mean_g mean) noiseG textureInfluence;
     synthesizeChannel (mean_b mean) noiseB textureInfluence ], g3).

(** The pixels are written in row-major order, so the buffer is the
    concatenation of the pixels in the order the loops visit them. *)
Definition synthesizeLoop (descriptor : TextureDescriptor)
  (coords : list (Z * Z)) (g : Rng) : Buffer * Rng :=
  fold_left (fun (acc : Buffer * Rng) (xy : Z * Z) =>
               let (pixels, g') := synthesizePixel descriptor (fst xy) (snd xy) (snd acc) in
               (fst acc ++ pixels, g'))
            coords ([], g).

Definition synthesisWidth : Z := 64.
Definition synthesisHeight : Z := 64.

Definition generateTextureSynthesis (descriptor : TextureDescriptor) (g : Rng)
  : Buffer * Rng :=
  synthesizeLoop descriptor
    (flat_map (fun y => map (fun x => (x, y)) (range synthesisWidth))
              (range synthesisHeight))
    g.

(** [convertToGrayscale] of the texture analyzer: one byte per pixel; a
    read past the buffer makes the value NaN, which is stored as 0. *)
Definition convertToGrayscale (pixels : Buffer) (width height channels : Z) : Buffer :=
  map (fun i =>
         match readAt pixels (i * channels), readAt pixels (i * channels + 1),
               readAt pixels (i * channels + 2) with
         | Some r, Some g, Some b =>
             toUint8 (Qfloor (0.299 * inject_Z r + 0.587 * inject_Z g
                              + 0.114 * inject_Z b)%Q)
         | _, _, _ => 0
         end)
      (range (width * height)).

(** [neighbors[i] >= center]; a comparison with [undefined] is false. *)
Definition atLeast (neighbor center : option Z) : bool :=
  match neighbor, center with
  | Some n, Some c => n >=? c
  | _, _ => false
  end.

(** The pattern code of the pixel [(x, y)]: bit [i] is set when the
    neighbour [i] is not darker than the centre. *)
Definition lbpValueAt (grayscale : Buffer) (width x y : Z) : Z :=
  let center := readAt grayscale (y * width + x) in
  let neighbors :=
    [ readAt grayscale ((y - 1) * width + (x - 1));
      readAt grayscale ((y - 1) * width + x);
      readAt grayscale ((y - 1) * width + (x + 1));
      readAt grayscale (y * width + (x + 1));
      readAt grayscale ((y + 1) * width + (x + 1));
      readAt grayscale ((y + 1) * width + x);
      readAt grayscale ((y + 1) * width + (x - 1));
      readAt grayscale (y * width + (x - 1)) ] in
  fold_left (fun lbpValue (bit : Z * option Z) =>
               if atLeast (snd bit) center
               then Z.lor lbpValue (Z.shiftl 1 (fst bit))
               else lbpValue)
            (combine (range 8) neighbors) 0.

(** [lbpHistogram[lbpValue]++] on a [Uint8Array]: the count wraps at 256. *)
Definition countPattern (lbpHistogram : Buffer) (lbpValue : Z) : Buffer :=
  storeAt lbpHistogram lbpValue (toUint8 (nth (Z.to_nat lbpValue) lbpHistogram 0 + 1)).

Definition extractLBPFeatures (pixels : Buffer) (width height channels : Z) : Buffer :=
  let grayscale := convertToGrayscale pixels width height channels in
  let lbpHistogram := repeat 0 256 in
  let lbpHistogram :=
    fold_left (fun lbpHistogram y =>
      fold_left (fun lbpHistogram x =>
                   countPattern lbpHistogram (lbpValueAt grayscale width x y))
                (rangeFrom 1 (width - 1)) lbpHistogram)
      (rangeFrom 1 (height - 1)) lbpHistogram in
  let totalPixels := (width - 2) * (height - 2) in
  map (fun count =>
         toUint8 (Qfloor (inject_Z count / inject_Z totalPixels * 255)%Q))
      lbpHistogram.

End TextureAnalyzer.

(** ** NoiseMatchingEngine *)

Module NoiseMatchingEngine.

Record NoiseProfile : Type := mkProfile
  { powerSpectrum : list Q;
    grainSize : Q;
    correlationLength : Q;
    colorNoise : Q * Q * Q }.

(** The window [analyzeLocalNoise] extracts around the region. *)
Definition expandedRegion (image : Sharp.Image) (region : Region) : Region :=
  {| region_x := Z.max 0 (region_x region - 20);
     region_y := Z.max 0 (region_y region - 20);
     region_width :=
       Z.min (region_width region + 40) (Sharp.image_width image - region_x region + 20);
     region_height :=
       Z.min (region_height region + 40) (Sharp.image_height image - region_y region + 20) |}.

Section Analysis.

(** The spectral estimates of the window are Fourier transforms and square
    roots of the pixels; they are taken as given functions of the window. *)
Variable computePowerSpectralDensity : Buffer -> Z -> Z -> list Q.
Variable estimateGrainSize : Buffer -> Z -> Z -> Q.
Variable computeCorrelationLength : Buffer -> Z -> Z -> Q.
Variable analyzeColorNoise : Buffer -> Z -> Z -> Q * Q * Q.

Definition analyzeLocalNoise (image : Sharp.Image) (region : Region)
  : Result NoiseProfile :=
  let expanded := expandedRegion image region in
  regionBuffer <- Sharp.extract image (region_x expanded) (region_y expanded)
                    (region_width expanded) (region_height expanded) ;;
  let pixels := Sharp.image_data regionBuffer in
  let width := Sharp.image_width regionBuffer in
  let height := Sharp.image_height regionBuffer in
  inr {| powerSpectrum := computePowerSpectralDensity pixels width height;
         grainSize := estimateGrainSize pixels width height;
         correlationLength := computeCorrelationLength pixels width height;
         colorNoise := analyzeColorNoise pixels width height |}.

End Analysis.

(** [contentValue * (1 - alpha) + noiseValue * alpha] as JavaScript
    computes it: the difference, the two products and the sum are each
    rounded to a double. *)
Definition blendValue (alpha : Q) (contentValue noiseValue : Z) : Q :=
  Double.add (Double.mul (inject_Z contentValue) (Double.sub 1 alpha))
             (Double.mul (inject_Z noiseValue) alpha).

Definition blendByte (alpha : Q) (contentValue noiseValue : Z) : Z :=
  toUint8 (Qfloor (blendValue alpha contentValue noiseValue)).

Definition blendNoiseWithContent (content noise : Buffer) (blendStrength : Q)
  : Result Buffer :=
  if negb (Nat.eqb (length content) (length noise)) then inl BufferLengthMismatch
  else
    let alpha := Qmax 0 (Qmin 1 blendStrength) in
    inr (map (fun i => blendByte alpha (nth i content 0) (nth i noise 0))
             (seq 0 (length content))).

End NoiseMatchingEngine.

(** ** EdgeFeatherer *)

Module EdgeFeatherer.

Definition isInsideRegion (x y : Z) (region : Region) : bool :=
  (x >=? region_x region) && (x <? region_x region + region_width region) &&
  (y >=? region_y region) && (y <? region_y region + region_height region).

Definition distanceToRegionEdge (x y : Z) (region : Region) : Z :=
  let distToLeft := x - region_x region in
  let distToRight := (region_x region + region_width region) - x in
  let distToTop := y - region_y region in
  let distToBottom := (region_y region + region_height region) - y in
  Z.min (Z.min (Z.min distToLeft distToRight) distToTop) distToBottom.

Definition distanceToRegion (x y : Z) (region : Region) : R :=
  let dx := Z.max 0 (Z.max (region_x region - x) (x - (region_x region + region_width region))) in
  let dy := Z.max 0 (Z.max (region_y region - y) (y - (region_y region + region_height region))) in
  sqrt (IZR (dx * dx + dy * dy)).

Definition generateGaussianFalloff (distance sigma : R) : R :=
  let normalizedDistance := (distance / sigma)%R in
  exp (- (normalizedDistance * normalizedDistance) / 2).

(** The body of the two loops of [createFeatherMask]: the byte stored for
    the pixel [(x, y)]. *)
Definition featherPixel (region : Region) (featherRadius : R) (x y : Z) : Z :=
  if isInsideRegion x y region then
    let distanceToEdge := IZR (distanceToRegionEdge x y region) in
    let falloff := generateGaussianFalloff distanceToEdge featherRadius in
    toUint8 (Zfloor (falloff * 255))
  else
    let distance := distanceToRegion x y region in
    if Rle_dec distance featherRadius then
      let falloff := generateGaussianFalloff (featherRadius - distance) featherRadius in
      toUint8 (Zfloor ((1 - falloff) * 255))
    else 0.

(** [idx = y * maskWidth + x] with [y] in the outer loop: row-major order. *)
Definition createFeatherMask (region : Region) (imageSize : Size) (featherRadius : R)
  : Buffer :=
  let maskWidth := size_width imageSize in
  let maskHeight := size_height imageSize in
  flat_map (fun y => map (fun x => featherPixel region featherRadius x y) (range maskWidth))
           (range maskHeight).

(** The window [detectEdges] extracts around the region. *)
Definition expandedRegion (region : Region) : Region :=
  {| region_x := Z.max 0 (region_x region - 50);
     region_y := Z.max 0 (region_y region - 50);
     region_width := region_width region + 100;
     region_height := region_height region + 100 |}.

Section Filters.

(** [greyscale().convolve(3x3 Laplacian)] of the image library, and the two
    smoothing passes over the mask (exponential weights), as given
    functions. *)
Variable laplacian : Sharp.Image -> Buffer.
Variable applyBilateralFiltering : Buffer -> Buffer.
Variable applyEdgeAwareSmoothing : Buffer -> Buffer -> Size -> Buffer.

Definition detectEdges (image : Sharp.Image) (region : Region) : Result Buffer :=
  let expanded := expandedRegion region in
  window <- Sharp.extract image (region_x expanded) (region_y expanded)
              (region_width expanded) (region_height expanded) ;;
  inr (laplacian window).

(** The samples are [edgeMap[0], edgeMap[10], ...] below [sampleCount]. *)
Definition calculateAdaptiveRadius (edgeMap : Buffer) (_region : Region) : Q :=
  let sampleCount := Z.min (Z.of_nat (length edgeMap)) 1000 in
  let edgeStrength :=
    fold_left (fun acc k => acc + nth (Z.to_nat (10 * k)) edgeMap 0)
              (range ((sampleCount + 9) / 10)) 0 in
  let edgeStrength := (inject_Z edgeStrength / (inject_Z sampleCount / 10))%Q in
  let normalizedEdgeStrength := (edgeStrength / 255)%Q in
  let baseRadius := 20%Q in
  let adaptiveComponent := (normalizedEdgeStrength * 15)%Q in
  Qmax 10 (Qmin 35 (baseRadius + adaptiveComponent)).

Definition createAdaptiveFeathering (image : Sharp.Image) (region : Region)
  : Result Buffer :=
  if (Sharp.image_width image =? 0) || (Sharp.image_height image =? 0)
  then inl UnableToGetImageDimensions
  else
    let imageSize := {| size_width := Sharp.image_width image;
                        size_height := Sharp.image_height image |} in
    edgeMap <- detectEdges image region ;;
    let adaptiveRadius := calculateAdaptiveRadius edgeMap region in
    let featherMask := createFeatherMask region imageSize (Q2R adaptiveRadius) in
    let featherMask := applyBilateralFiltering featherMask in
    let featherMask := applyEdgeAwareSmoothing featherMask edgeMap imageSize in
    inr featherMask.

End Filters.

(** [isNearEdge]: some pixel of the 5x5 neighbourhood that lies in the
    image has an edge-map value above the threshold. *)
Definition isNearEdge (x y : Z) (edgeMap : Buffer) (imageSize : Size) : bool :=
  let threshold := 100 in
  let checkRadius := 2 in
  existsb (fun dy =>
    existsb (fun dx =>
      let checkX := x + dx in
      let checkY := y + dy in
      (checkX >=? 0) && (checkX <? size_width imageSize) &&
      (checkY >=? 0) && (checkY <? size_height imageSize) &&
      (let idx := checkY * size_width imageSize + checkX in
       (idx <? Z.of_nat (length edgeMap)) &&
       match readAt edgeMap idx with
       | Some v => v >? threshold
       | None => false
       end))
      (rangeFrom (- checkRadius) (checkRadius + 1)))
    (rangeFrom (- checkRadius) (checkRadius + 1)).

(** The mask values of the 5x5 neighbourhood that lies in the image, in
    the order the two inner loops read them. *)
Definition neighbourhood (mask : Buffer) (imageSize : Size) (x y : Z) : list (option Z) :=
  let halfKernel := 2 in
  flat_map (fun ky =>
    flat_map (fun kx =>
      let neighborX := x + kx in
      let neighborY := y + ky in
      if (neighborX >=? 0) && (neighborX <? size_width imageSize) &&
         (neighborY >=? 0) && (neighborY <? size_height imageSize)
      then [readAt mask (neighborY * size_width imageSize + neighborX)]
      else [])
      (rangeFrom (- halfKernel) (halfKernel + 1)))
    (rangeFrom (- halfKernel) (halfKernel + 1)).

(** [sum += mask[neighborIdx]]: [None] is NaN, after a read past the mask. *)
Definition addRead (sum : option Z) (v : option Z) : option Z :=
  match sum, v with
  | Some s, Some b => Some (s + b)
  | _, _ => None
  end.

(** The byte stored for a pixel away from the edges:
    [Math.floor(sum / count)]; NaN is stored as 0. *)
Definition smoothedValue (mask : Buffer) (imageSize : Size) (x y : Z) : Z :=
  let values := neighbourhood mask imageSize x y in
  let sum := fold_left addRead values (Some 0) in
  let count := Z.of_nat (length values) in
  match sum with
  | Some s => if count =? 0 then 0 else toUint8 (Qfloor (inject_Z s / inject_Z count))
  | None => 0
  end.

Definition applyEdgeAwareSmoothing (mask edgeMap : Buffer) (imageSize : Size) : Buffer :=
  let smoothedMask := repeat 0 (length mask) in
  let kernelSize := 5 in
  let halfKernel := kernelSize / 2 in
  let smoothedMask :=
    fold_left (fun smoothedMask y =>
      fold_left (fun smoothedMask x =>
        let centerIdx := y * size_width imageSize + x in
        if isNearEdge x y edgeMap imageSize
        then storeAt smoothedMask centerIdx (byteOrZero (readAt mask centerIdx))
        else storeAt smoothedMask centerIdx (smoothedValue mask imageSize x y))
        (rangeFrom halfKernel (size_width imageSize - halfKernel)) smoothedMask)
      (rangeFrom halfKernel (size_height imageSize - halfKernel)) smoothedMask in
  map (fun sm : Z * Z => if fst sm =? 0 then snd sm else fst sm)
      (combine smoothedMask mask).

Inductive GradientDirection : Type := horizontal | vertical.

(** The byte [createGradientMask] stores for the pixel [(x, y)]. *)
Definition gradientPixel (region : Region) (direction : GradientDirection) (x y : Z) : Z :=
  if isInsideRegion x y region then
    let gradientValue :=
      match direction with
      | horizontal =>
          let relativeX := (inject_Z (x - region_x region) / inject_Z (region_width region))%Q in
          relativeX
      | vertical =>
          let relativeY := (inject_Z (y - region_y region) / inject_Z (region_height region))%Q in
          relativeY
      end in
    toUint8 (Qfloor (gradientValue * 255))
  else 0.

Definition createGradientMask (region : Region) (imageSize : Size)
  (direction : GradientDirection) : Buffer :=
  flat_map (fun y =>
    map (fun x => gradientPixel region direction x y) (range (size_width imageSize)))
    (range (size_height imageSize)).

End EdgeFeatherer.

(** ** AdvancedInterpolator *)

Module AdvancedInterpolator.

Inductive InterpolationMethod : Type :=
| bicubic | lanczos | edge_directed | anisotropic.

(** The neutral gray fill of a region: [width * height * 3] bytes of value
    128. *)
Definition grayFill (targetRegion : Region) : Buffer :=
  repeat 128 (Z.to_nat (region_width targetRegion * region_height targetRegion * 3)).

(** [new Uint8Array(length)] for an integer [length]: a negative length is
    a RangeError. *)
Definition newUint8Array (length : Z) : Result Buffer :=
  if length <? 0 then inl InvalidTypedArrayLength
  else inr (repeat 0 (Z.to_nat length)).

(** [result.fill(value)]. *)
Definition fill (result : Buffer) (value : Z) : Buffer := map (fun _ => value) result.

(** A store into a typed array: an index outside the array is ignored. *)
Definition writeAt {A : Type} (l : list A) (i : Z) (v : A) : list A :=
  if (i <? 0) || (Z.of_nat (length l) <=? i) then l
  else firstn (Z.to_nat i) l ++ v :: skipn (S (Z.to_nat i)) l.

(** [data[i]] of the [Float32Array] made from the buffer; [None] is NaN. *)
Definition readFloat (data : Buffer) (i : Z) : option Q :=
  option_map inject_Z (readAt data i).

Section Kernels.

(** The resampling loops of the three kernels over a non-empty source
    (cubic convolution, windowed sinc, sampling along the gradient), as given
    functions of the first source buffer and the target region. *)
Variable cubicResample : Buffer -> Region -> Buffer.
Variable lanczosResample : Buffer -> Region -> Buffer.
Variable edgeDirectedResample : Buffer -> Region -> Buffer.
(** [Math.exp]. *)
Variable exp_ : Q -> Q.

Definition bicubicInterpolation (sourceRegions : list Buffer) (targetRegion : Region)
  : Result Buffer :=
  result <-
    newUint8Array (region_width targetRegion * region_height targetRegion * 3) ;;
  match sourceRegions with
  | [] => inr (fill result 128)
  | sourceData :: _ => inr (cubicResample sourceData targetRegion)
  end.

Definition lanczosInterpolation (sourceRegions : list Buffer) (targetRegion : Region)
  : Result Buffer :=
  result <-
    newUint8Array (region_width targetRegion * region_height targetRegion * 3) ;;
  match sourceRegions with
  | [] => inr (fill result 128)
  | sourceData :: _ => inr (lanczosResample sourceData targetRegion)
  end.

Definition edgeDirectedInterpolation (sourceRegions : list Buffer) (targetRegion : Region)
  : Result Buffer :=
  result <-
    newUint8Array (region_width targetRegion * region_height targetRegion * 3) ;;
  match sourceRegions with
  | [] => inr (fill result 128)
  | sourceData :: _ => inr (edgeDirectedResample sourceData targetRegion)
  end.

(** [conductance * gradient] for one neighbour. *)
Definition diffusionTerm (kappa centerValue neighbor : Q) : Q :=
  let gradient := (neighbor - centerValue)%Q in
  let conductance := exp_ (- (gradient * gradient) / (kappa * kappa))%Q in
  (conductance * gradient)%Q.

(** The value stored at [centerIdx] for the pixel [(x, y)], channel [c]. *)
Definition diffusePixel (data : Buffer) (width : Z) (kappa gamma : Q) (x y c : Z)
  : option Q :=
  match readFloat data ((y * width + x) * 3 + c),
        readFloat data (((y - 1) * width + x) * 3 + c),
        readFloat data (((y + 1) * width + x) * 3 + c),
        readFloat data ((y * width + (x - 1)) * 3 + c),
        readFloat data ((y * width + (x + 1)) * 3 + c) with
  | Some centerValue, Some n1, Some n2, Some n3, Some n4 =>
      let diffusionSum :=
        (0 + diffusionTerm kappa centerValue n1 + diffusionTerm kappa centerValue n2
           + diffusionTerm kappa centerValue n3 + diffusionTerm kappa centerValue n4)%Q in
      Some (centerValue + gamma * diffusionSum)%Q
  | _, _, _, _, _ => None
  end.

(** [result[i] === 0]; NaN is not equal to 0. *)
Definition isZero (v : option Q) : bool :=
  match v with
  | Some q => Qeq_bool q 0
  | None => false
  end.

Definition clampToByte (v : option Q) : Z :=
  match v with
  | Some q => toUint8 (Qfloor (Qmax 0 (Qmin 255 q)))
  | None => 0
  end.

Definition applyAnisotropicDiffusion (buffer : Buffer) (width height : Z) (kappa gamma : Q)
  : Buffer :=
  let data := buffer in
  let result := repeat (Some 0%Q) (length data) in
  let result :=
    fold_left (fun res y =>
      fold_left (fun res x =>
        fold_left (fun res c =>
          writeAt res ((y * width + x) * 3 + c) (diffusePixel data width kappa gamma x y c))
          (range 3) res)
        (rangeFrom 1 (width - 1)) res)
      (rangeFrom 1 (height - 1)) result in
  let result :=
    map (fun rd : option Q * Z => if isZero (fst rd) then Some (inject_Z (snd rd)) else fst rd)
        (combine result data) in
  map clampToByte result.

Definition anisotropicDiffusionInterpolation (sourceRegions : list Buffer)
  (targetRegion : Region) : Result Buffer :=
  result <- bicubicInterpolation sourceRegions targetRegion ;;
  let iterations := 10%nat in
  let kappa := 30%Q in
  let gamma := 0.1%Q in
  inr (Nat.iter iterations
         (fun result =>
            applyAnisotropicDiffusion result (region_width targetRegion)
              (region_height targetRegion) kappa gamma)
         result).

Definition interpolateWithEdgePreservation (sourceRegions : list Buffer)
  (targetRegion : Region) (method : InterpolationMethod) : Result Buffer :=
  if Nat.eqb (length sourceRegions) 0 then inl NoSourceRegions
  else
    match method with
    | bicubic => bicubicInterpolation sourceRegions targetRegion
    | lanczos => lanczosInterpolation sourceRegions targetRegion
    | edge_directed => edgeDirectedInterpolation sourceRegions targetRegion
    | anisotropic => anisotropicDiffusionInterpolation sourceRegions targetRegion
    end.

End Kernels.

(** [data[idx]] for an index that is a number: only an integer index
    inside the buffer is defined. *)
Definition readAtQ (data : Buffer) (idx : Q) : option Z :=
  if Qeq_bool idx (inject_Z (Qfloor idx)) then readAt data (Qfloor idx) else None.

Definition cubic1D (v0 v1 v2 v3 t : Q) : Q :=
  let a := (-0.5 * v0 + 1.5 * v1 - 1.5 * v2 + 0.5 * v3)%Q in
  let b := (v0 - 2.5 * v1 + 2 * v2 - 0.5 * v3)%Q in
  let c := (-0.5 * v0 + 0.5 * v2)%Q in
  let d := v1 in
  (a * t * t * t + b * t * t + c * t + d)%Q.

(** [cubic1D] on four values of which some may be [undefined]: the result
    is then NaN ([None]). *)
Definition cubic1D_of (values : list (option Q)) (t : Q) : option Q :=
  match values with
  | [Some v0; Some v1; Some v2; Some v3] => Some (cubic1D v0 v1 v2 v3 t)
  | _ => None
  end.

Definition cubicInterpolate (data : Buffer) (x y width height : Q) (channel channels : Z)
  : option Q :=
  let x0 := Qfloor x in
  let y0 := Qfloor y in
  let dx := (x - inject_Z x0)%Q in
  let dy := (y - inject_Z y0)%Q in
  let value (j i : Z) : option Q :=
    let sampleX := Qmax 0 (Qmin (width - 1) (inject_Z (x0 - 1 + i))) in
    let sampleY := Qmax 0 (Qmin (height - 1) (inject_Z (y0 - 1 + j))) in
    let idx := ((sampleY * width + sampleX) * inject_Z channels + inject_Z channel)%Q in
    option_map inject_Z (readAtQ data idx) in
  let interpolatedRows :=
    map (fun j => cubic1D_of (map (fun i => value j i) (range 4)) dx) (range 4) in
  cubic1D_of interpolatedRows dy.

(** The index of the sample [cubicInterpolate] reads for the row offset
    [j] and the column offset [i], on integer sizes. *)
Definition sampleIndex (x0 y0 width height channels channel j i : Z) : Z :=
  (Z.max 0 (Z.min (height - 1) (y0 - 1 + j)) * width
   + Z.max 0 (Z.min (width - 1) (x0 - 1 + i))) * channels + channel.

(** The byte [createSmoothTransition] stores at [idx]; a read past a
    buffer makes the value NaN, which is stored as 0. *)
Definition transitionByte (fromValue toValue maskByte : option Z) : Z :=
  match fromValue, toValue, maskByte with
  | Some f, Some t, Some m =>
      let maskValue := (inject_Z m / 255)%Q in
      toUint8 (Qfloor (inject_Z f * (1 - maskValue) + inject_Z t * maskValue)%Q)
  | _, _, _ => 0
  end.

(** The result has [width * height * 3] bytes (a negative size makes the
    constructor of the array throw; the model has the empty buffer there). *)
Definition createSmoothTransition (fromBuffer toBuffer maskBuffer : Buffer)
  (width height : Z) : Buffer :=
  let channels := 3 in
  flat_map (fun i =>
    map (fun c =>
           let idx := i * channels + c in
           transitionByte (readAt fromBuffer idx) (readAt toBuffer idx)
             (readAt maskBuffer i))
        (range channels))
    (range (width * height)).

End AdvancedInterpolator.

(** ** MultiDirectionalSampler *)

Module MultiDirectionalSampler.

Inductive Direction : Type :=
| north | northeast | east | southeast | south | southwest | west | northwest.

Record DirectionalSamples : Type := mkSamples
  { samples_north : list Patch;
    samples_northeast : list Patch;
    samples_east : list Patch;
    samples_southeast : list Patch;
    samples_south : list Patch;
    samples_southwest : list Patch;
    samples_west : list Patch;
    samples_northwest : list Patch }.

(** [Object.values(samples).flat()]: the patches in the order of the keys. *)
Definition allPatches (samples : DirectionalSamples) : list Patch :=
  samples_north samples ++ samples_northeast samples ++ samples_east samples ++
  samples_southeast samples ++ samples_south samples ++ samples_southwest samples ++
  samples_west samples ++ samples_northwest samples.

Definition getDirectionVector (direction : Direction) : Q * Q :=
  match direction with
  | north => (0, -1)
  | northeast => (0.707, -0.707)
  | east => (1, 0)
  | southeast => (0.707, 0.707)
  | south => (0, 1)
  | southwest => (-0.707, 0.707)
  | west => (-1, 0)
  | northwest => (-0.707, -0.707)
  end%Q.

Definition isValidSamplePosition (x y width height : Z) : bool :=
  (x >=? PATCH_SIZE) && (x <? width - PATCH_SIZE) &&
  (y >=? PATCH_SIZE) && (y <? height - PATCH_SIZE).

(** [None] is [null]. *)
Definition extractPatchAt (pixels : Buffer) (width height channels centerX centerY : Z)
  : option Patch :=
  let halfPatch := PATCH_SIZE / 2 in
  let startX := centerX - halfPatch in
  let startY := centerY - halfPatch in
  if (startX <? 0) || (startY <? 0) ||
     (startX + PATCH_SIZE >=? width) || (startY + PATCH_SIZE >=? height)
  then None
  else
    let patchPixels :=
      flat_map (fun y =>
        flat_map (fun x =>
          let imageIndex := (y * width + x) * channels in
          map (fun c => byteOrZero (readAt pixels (imageIndex + c))) (range channels))
          (rangeFrom startX (startX + PATCH_SIZE)))
        (rangeFrom startY (startY + PATCH_SIZE)) in
    Some {| patch_pixels := patchPixels;
            patch_position := (inject_Z startX, inject_Z startY);
            patch_size := mkSize PATCH_SIZE PATCH_SIZE;
            patch_similarity := 0 |}.

(** The positions the loop of [extractPatchesInDirection] tries, in order:
    for every sample distance the sample point, then the five points
    offset across the direction.  The loop [for (i = 1; i <= numSamples; i++)]
    counts in doubles and has no other exit: from [numSamples = 2^53] on the
    counter stops growing ([2^53 + 1] is rounded to [2^53]) and the loop never
    ends; there are then no positions to return ([None]). *)
Definition samplePositions (region : Region) (direction : Direction) (sampleRadius : Q)
  : option (list (Z * Z)) :=
  let directionVector := getDirectionVector direction in
  let centerX := (inject_Z (region_x region) + inject_Z (region_width region) / 2)%Q in
  let centerY := (inject_Z (region_y region) + inject_Z (region_height region) / 2)%Q in
  let numSamples := Qfloor (sampleRadius / inject_Z SAMPLE_DISTANCE) in
  if 2 ^ 53 <=? numSamples then None else
  Some (flat_map (fun i =>
    let sampleDistance := i * SAMPLE_DISTANCE in
    let sampleX := Qfloor (centerX + fst directionVector * inject_Z sampleDistance) in
    let sampleY := Qfloor (centerY + snd directionVector * inject_Z sampleDistance) in
    (sampleX, sampleY) ::
    map (fun k =>
           let offset := - PATCH_SIZE + k * (PATCH_SIZE / 2) in
           let offsetX := Qfloor (inject_Z sampleX + snd directionVector * inject_Z offset) in
           let offsetY := Qfloor (inject_Z sampleY - fst directionVector * inject_Z offset) in
           (offsetX, offsetY))
        (range 5))
    (rangeFrom 1 (numSamples + 1))).

Definition extractPatchesInDirection (pixels : Buffer) (width height channels : Z)
  (region : Region) (direction : Direction) (sampleRadius : Q) : Result (list Patch) :=
  match samplePositions region direction sampleRadius with
  | None => inl NeverReturns
  | Some positions =>
      let patches :=
        flat_map (fun position : Z * Z =>
          let (px, py) := position in
          if isValidSamplePosition px py width height then
            match extractPatchAt pixels width height channels px py with
            | Some patch => [patch]
            | None => []
            end
          else [])
          positions in
      inr (slice0 patches 20)
  end.

Definition sampleSurroundingContent (image : Sharp.Image) (region : Region)
  (sampleRadius : Q) : Result DirectionalSamples :=
  if (Sharp.image_width image =? 0) || (Sharp.image_height image =? 0)
  then inl UnableToGetImageDimensions
  else
    let pixels := Sharp.image_data image in
    let width := Sharp.image_width image in
    let height := Sharp.image_height image in
    let channels := Sharp.channels in
    let sample direction :=
      extractPatchesInDirection pixels width height channels region direction
        sampleRadius in
    northPatches <- sample north ;;
    northeastPatches <- sample northeast ;;
    eastPatches <- sample east ;;
    southeastPatches <- sample southeast ;;
    southPatches <- sample south ;;
    southwestPatches <- sample southwest ;;
    westPatches <- sample west ;;
    northwestPatches <- sample northwest ;;
    inr {| samples_north := northPatches;
           samples_northeast := northeastPatches;
           samples_east := eastPatches;
           samples_southeast := southeastPatches;
           samples_south := southPatches;
           samples_southwest := southwestPatches;
           samples_west := westPatches;
           samples_northwest := northwestPatches |}.

Definition sumR (l : list R) : R := fold_left Rplus l 0%R.

(** For two patches of the same length [n > 0]; for [n = 0] JavaScript
    has NaN. *)
Definition computeNormalizedCorrelation (patch1 patch2 : Patch) : R :=
  let p1 := patch_pixels patch1 in
  let p2 := patch_pixels patch2 in
  let n := INR (length p1) in
  let pairs := combine p1 p2 in
  let sum1 := sumR (map (fun p : Z * Z => IZR (fst p)) pairs) in
  let sum2 := sumR (map (fun p : Z * Z => IZR (snd p)) pairs) in
  let sum1Sq := sumR (map (fun p : Z * Z => IZR (fst p * fst p)) pairs) in
  let sum2Sq := sumR (map (fun p : Z * Z => IZR (snd p * snd p)) pairs) in
  let sumProduct := sumR (map (fun p : Z * Z => IZR (fst p * snd p)) pairs) in
  let mean1 := (sum1 / n)%R in
  let mean2 := (sum2 / n)%R in
  let numerator := (sumProduct - n * mean1 * mean2)%R in
  let denominator :=
    sqrt ((sum1Sq - n * mean1 * mean1) * (sum2Sq - n * mean2 * mean2)) in
  if Req_dec_T denominator 0 then 0%R else Rabs (numerator / denominator).

(** For two empty patches JavaScript has NaN. *)
Definition computePatchSimilarity (patch1 patch2 : Patch) : R :=
  let p1 := patch_pixels patch1 in
  let p2 := patch_pixels patch2 in
  if negb (Nat.eqb (length p1) (length p2)) then 0%R
  else
    let sumSquaredDiff :=
      sumR (map (fun p : Z * Z => let diff := fst p - snd p in IZR (diff * diff))
                (combine p1 p2)) in
    let mse := (sumSquaredDiff / INR (length p1))%R in
    let maxValue := (255 * 255)%R in
    let psnr := (10 * log10 (maxValue / (mse + / 10 ^ 10)))%R in
    let normalizedCorrelation := computeNormalizedCorrelation patch1 patch2 in
    let similarity := (psnr / 100 * 0.7 + normalizedCorrelation * 0.3)%R in
    Rmax 0 (Rmin 1 similarity).

(** [weightAndBlendPatches]: the weighted mean of the patches, byte by
    byte, in a buffer of [PATCH_SIZE * PATCH_SIZE * 3] bytes; a patch
    contributes to the bytes it has. *)
Definition weightAndBlendPatches (patches : list Patch) (weights : list R)
  : Result Buffer :=
  if Nat.eqb (length patches) 0 || negb (Nat.eqb (length patches) (length weights))
  then inl InvalidPatchesOrWeights
  else
    let channels := 3 in
    let totalWeight := sumR weights in
    let blendedPixels :=
      map (fun j =>
             fold_left (fun acc (pw : Patch * R) =>
                          match nth_error (patch_pixels (fst pw)) j with
                          | Some v => (acc + IZR v * snd pw)%R
                          | None => acc
                          end)
                       (combine patches weights) 0%R)
          (seq 0 (Z.to_nat (PATCH_SIZE * PATCH_SIZE * channels))) in
    let blendedPixels :=
      if Rlt_dec 0 totalWeight
      then map (fun v => (v / totalWeight)%R) blendedPixels
      else blendedPixels in
    inr (map (fun v => toUint8 (Zfloor (Rmax 0 (Rmin 255 v)))) blendedPixels).

(** [Math.max(...similarities)] and [Math.min(...similarities)] of a list
    that is not empty. *)
Definition maxOf (first : R) (rest : list R) : R := fold_left Rmax rest first.
Definition minOf (first : R) (rest : list R) : R := fold_left Rmin rest first.

Definition computeAdaptiveWeights (similarities : list R) : list R :=
  match similarities with
  | [] => []
  | first :: rest =>
      let maxSimilarity := maxOf first rest in
      let minSimilarity := minOf first rest in
      let range := (maxSimilarity - minSimilarity)%R in
      if Req_dec_T range 0
      then map (fun _ => (1 / INR (length similarities))%R) similarities
      else
        let normalizedSimilarities :=
          map (fun sim => ((sim - minSimilarity) / range)%R) similarities in
        let exponentialWeights :=
          map (fun sim => exp (sim * 3)) normalizedSimilarities in
        let totalWeight := fold_left Rplus exponentialWeights 0%R in
        map (fun weight => (weight / totalWeight)%R) exponentialWeights
  end.

(** [Array.prototype.sort] with the comparator [b.similarity - a.similarity]:
    a stable sort in descending order of similarity, written as an
    insertion sort. *)
Fixpoint insertBySimilarity (item : Patch * R) (sorted : list (Patch * R))
  : list (Patch * R) :=
  match sorted with
  | [] => [item]
  | head :: rest =>
      if Rlt_dec (snd head) (snd item) then item :: sorted
      else head :: insertBySimilarity item rest
  end.

Definition sortBySimilarity (items : list (Patch * R)) : list (Patch * R) :=
  fold_left (fun sorted item => insertBySimilarity item sorted) items [].

Definition selectBestPatches (patches : list Patch) (referencePatch : Patch)
  (maxPatches : Z) : list Patch * list R :=
  let patchSimilarities :=
    map (fun patch => (patch, computePatchSimilarity patch referencePatch)) patches in
  let patchSimilarities := sortBySimilarity patchSimilarities in
  let selectedPatches := map fst (slice0 patchSimilarities maxPatches) in
  let selectedSimilarities := map snd (slice0 patchSimilarities maxPatches) in
  let weights := computeAdaptiveWeights selectedSimilarities in
  (selectedPatches, weights).

Definition createReferencePatch (region : Region) (direction : Direction) : Patch :=
  let directionVector := getDirectionVector direction in
  let referenceX :=
    (inject_Z (region_x region) + inject_Z (region_width region) / 2
     + fst directionVector * 10)%Q in
  let referenceY :=
    (inject_Z (region_y region) + inject_Z (region_height region) / 2
     + snd directionVector * 10)%Q in
  {| patch_pixels := repeat 128 (Z.to_nat (PATCH_SIZE * PATCH_SIZE * 3));
     patch_position := (referenceX, referenceY);
     patch_size := mkSize PATCH_SIZE PATCH_SIZE;
     patch_similarity := 1 |}.

End MultiDirectionalSampler.

(** ** InpaintingEngine: the orchestrator and the quality evaluator *)

Module InpaintingEngine.

Inductive InpaintingMethod : Type :=
| basic | texture_synthesis | patch_based | hybrid.

Record ContextAnalysis : Type := mkContext
  { textureComplexity : Q;
    edgeStrength : Q;
    colorVariation : Q;
    patternRepetition : Q;
    recommendedMethod : InpaintingMethod }.

Inductive QualityLevel : Type := fast | balanced | high.

Record InpaintingOptions : Type := mkOptions
  { featherRadius : Q;
    samplingRadius : Q;
    textureAnalysisDepth : Q;
    noiseMatching : bool;
    edgePreservation : bool;
    qualityLevel : QualityLevel }.

Definition HIGH_PERFORMANCE_OPTIONS : InpaintingOptions :=
  mkOptions 15 30 2 false true fast.

Definition BALANCED_OPTIONS : InpaintingOptions :=
  mkOptions 20 40 3 true true balanced.

Definition HIGH_QUALITY_OPTIONS : InpaintingOptions :=
  mkOptions 25 60 4 true true high.

(** [None] in [ssim] and [visualQuality] is NaN. *)
Record QualityMetrics : Type := mkMetrics
  { psnr : R;
    ssim : option Q;
    visualQuality : option R;
    artifactLevel : Q }.

(** The wall-clock [duration] of the result is left out. *)
Record ProcessingResult : Type := mkResult
  { buffer : Buffer;
    size : Z;
    qualityMetrics : QualityMetrics }.

Definition determineInpaintingMethod
  (textureComplexity edgeStrength colorVariation patternRepetition : Q)
  : InpaintingMethod :=
  if Qgtb textureComplexity 0.7%Q && Qgtb patternRepetition 0.6%Q then texture_synthesis
  else if Qgtb edgeStrength 0.6%Q then patch_based
  else if Qgtb textureComplexity 0.5%Q || Qgtb colorVariation 0.6%Q then hybrid
  else basic.

Definition adaptOptionsToContext (options : InpaintingOptions) (context : ContextAnalysis)
  : InpaintingOptions :=
  let adapted := options in
  let adapted :=
    if Qgtb (textureComplexity context) 0.7%Q then
      {| featherRadius := featherRadius adapted;
         samplingRadius := Qmax (samplingRadius adapted) 60%Q;
         textureAnalysisDepth := Qmax (textureAnalysisDepth adapted) 4%Q;
         noiseMatching := noiseMatching adapted;
         edgePreservation := edgePreservation adapted;
         qualityLevel := qualityLevel adapted |}
    else adapted in
  let adapted :=
    if Qgtb (edgeStrength context) 0.6%Q then
      {| featherRadius := Qmin (featherRadius adapted) 15%Q;
         samplingRadius := samplingRadius adapted;
         textureAnalysisDepth := textureAnalysisDepth adapted;
         noiseMatching := noiseMatching adapted;
         edgePreservation := true;
         qualityLevel := qualityLevel adapted |}
    else adapted in
  let adapted :=
    if Qgtb (colorVariation context) 0.8%Q then
      {| featherRadius := featherRadius adapted;
         samplingRadius := samplingRadius adapted;
         textureAnalysisDepth := textureAnalysisDepth adapted;
         noiseMatching := true;
         edgePreservation := edgePreservation adapted;
         qualityLevel := qualityLevel adapted |}
    else adapted in
  adapted.

(** The feather mask is a parameter of the function and is not read.
    The definition is the composite the function sets up: the content, as
    the region-sized raw image it was wrapped in, over the original at the
    origin of the region.  In the code the overlay passes through
    [toBuffer] without an output format on its way to [composite]; what
    sharp does with these bytes when the result is rendered is not part of
    the definition. *)
Definition blendWithOriginal (originalImage : Sharp.Image) (inpaintedContent : Buffer)
  (region : Region) (_featherMask : Buffer) : Sharp.Image :=
  let inpaintedImage :=
    Sharp.raw inpaintedContent (region_width region) (region_height region) in
  Sharp.composite originalImage inpaintedImage (region_x region) (region_y region).

(** *** Quality evaluation *)

Definition sumZ (l : list Z) : Z := fold_left Z.add l 0.

(** The sum of [diff * diff] over [i < Math.min(original.length, processed.length)]. *)
Definition squaredError (original processed : Buffer) : Z :=
  sumZ (map (fun op : Z * Z => let diff := fst op - snd op in diff * diff)
            (combine original processed)).

(** [mse /= length]; on empty buffers JavaScript has NaN here and the
    comparison [mse > 0] below is false, as it is for the 0 of [Q]. *)
Definition meanSquaredError (original processed : Buffer) : Q :=
  let length := Z.min (Z.of_nat (length original)) (Z.of_nat (length processed)) in
  (inject_Z (squaredError original processed) / inject_Z length)%Q.

Definition computePSNR (original processed : Buffer) : R :=
  let mse := meanSquaredError original processed in
  if Qgtb mse 0%Q then (10 * log10 (Q2R (255 * 255 / mse)))%R else 100%R.

(** The window holds [undefined] where the index is past the buffer. *)
Definition extractWindow (buffer : Buffer) (width x y windowSize : Z) : list (option Z) :=
  flat_map (fun wy =>
    map (fun wx => readAt buffer ((y + wy) * width + (x + wx))) (range windowSize))
    (range windowSize).

(** The values of a window when all are defined; a window with an
    [undefined] entry turns every sum, and the result, into NaN. *)
Definition definedValues (window : list (option Z)) : option (list Z) :=
  fold_right (fun v acc =>
                match v, acc with
                | Some a, Some l => Some (a :: l)
                | _, _ => None
                end) (Some []) window.

(** [computeWindowSSIM] on windows without [undefined]. *)
Definition windowSSIM (window1 window2 : list Z) (k1 k2 L : Q) : Q :=
  let n := inject_Z (Z.of_nat (length window1)) in
  let sum1 := inject_Z (sumZ window1) in
  let sum2 := inject_Z (sumZ window2) in
  let sum1Sq := inject_Z (sumZ (map (fun a => a * a) window1)) in
  let sum2Sq := inject_Z (sumZ (map (fun b => b * b) window2)) in
  let sumProduct :=
    inject_Z (sumZ (map (fun ab : Z * Z => fst ab * snd ab) (combine window1 window2))) in
  let mu1 := (sum1 / n)%Q in
  let mu2 := (sum2 / n)%Q in
  let sigma1Sq := ((sum1Sq / n) - (mu1 * mu1))%Q in
  let sigma2Sq := ((sum2Sq / n) - (mu2 * mu2))%Q in
  let sigma12 := ((sumProduct / n) - (mu1 * mu2))%Q in
  let c1 := ((k1 * L) * (k1 * L))%Q in
  let c2 := ((k2 * L) * (k2 * L))%Q in
  let numerator := ((2 * mu1 * mu2 + c1) * (2 * sigma12 + c2))%Q in
  let denominator := ((mu1 * mu1 + mu2 * mu2 + c1) * (sigma1Sq + sigma2Sq + c2))%Q in
  (numerator / denominator)%Q.

Definition computeWindowSSIM (window1 window2 : list (option Z)) (k1 k2 L : Q) : option Q :=
  match definedValues window1, definedValues window2 with
  | Some w1, Some w2 => Some (windowSSIM w1 w2 k1 k2 L)
  | _, _ => None
  end.

(** [for (let v = 0; v <= limit; v += step)]. *)
Definition steps (limit step : Z) : list Z :=
  map (fun k => k * step) (range (limit / step + 1)).

(** [a + b] on numbers that may be NaN. *)
Definition addNum (a b : option Q) : option Q :=
  match a, b with
  | Some p, Some q => Some (p + q)%Q
  | _, _ => None
  end.

Definition computeSSIM (original processed : Buffer) (width _height : Z) : option Q :=
  let windowSize := 11 in
  let k1 := 0.01%Q in
  let k2 := 0.03%Q in
  let L := 255%Q in
  let values :=
    flat_map (fun y =>
      map (fun x =>
             let window1 := extractWindow original width x y windowSize in
             let window2 := extractWindow processed width x y windowSize in
             computeWindowSSIM window1 window2 k1 k2 L)
          (steps (width - windowSize) windowSize))
      (steps (_height - windowSize) windowSize) in
  let ssim := fold_left addNum values (Some 0%Q) in
  let count := Z.of_nat (length values) in
  if 0 <? count then option_map (fun s => (s / inject_Z count)%Q) ssim else Some 1%Q.

(** [Math.abs(a - b) > 50]; false when a read is [undefined]. *)
Definition exceeds50 (a b : option Z) : bool :=
  match a, b with
  | Some u, Some v => 50 <? Z.abs (u - v)
  | _, _ => false
  end.

(** What the innermost loop adds to [artifactScore]. *)
Definition artifactAt (processed : Buffer) (width x y c : Z) : Z :=
  let idx := (y * width + x) * 3 in
  let rightIdx := (y * width + x + 1) * 3 in
  let downIdx := ((y + 1) * width + x) * 3 in
  let horizontal := exceeds50 (readAt processed (idx + c)) (readAt processed (rightIdx + c)) in
  let vertical := exceeds50 (readAt processed (idx + c)) (readAt processed (downIdx + c)) in
  if horizontal || vertical then 1 else 0.

Definition artifactScore (processed : Buffer) (region : Region) (width : Z) : Z :=
  fold_left (fun score y =>
    fold_left (fun score x =>
      fold_left (fun score c => score + artifactAt processed width x y c) (range 3) score)
      (rangeFrom (region_x region) (region_x region + region_width region - 1)) score)
    (rangeFrom (region_y region) (region_y region + region_height region - 1)) 0.

Definition detectArtifacts (processed : Buffer) (region : Region) (width _height : Z) : Q :=
  let channels := 3 in
  let totalPixels := region_width region * region_height region in
  (inject_Z (artifactScore processed region width) / inject_Z (totalPixels * channels))%Q.

Definition evaluateQuality (original processed : Buffer) (region : Region)
  (width height : Z) : QualityMetrics :=
  let psnrValue := computePSNR original processed in
  let ssimValue := computeSSIM original processed width height in
  let visualQualityValue :=
    option_map (fun s => ((psnrValue / 50 + Q2R s) / 2)%R) ssimValue in
  let artifactLevelValue := detectArtifacts processed region width height in
  {| psnr := (IZR (Rround (psnrValue * 100)) / 100)%R;
     ssim := option_map (fun s => (inject_Z (Qround (s * 1000)) / 1000)%Q) ssimValue;
     visualQuality :=
       option_map (fun v => (IZR (Rround (v * 1000)) / 1000)%R) visualQualityValue;
     artifactLevel := (inject_Z (Qround (artifactLevelValue * 1000)) / 1000)%Q |}.

(** *** The pipeline *)

(** The region check at the head of [processWatermarkRemoval] ("Ensure
    region is within image bounds and has valid dimensions"): the block
    from the computation of [x] to [const region = { x, y, width, height }],
    with the [throw] as the error. *)
Definition boundedRegion (metadata_width metadata_height : Z)
  (watermarkArea : WatermarkArea) : Result Region :=
  let x := Z.max 0 (Qfloor (area_x watermarkArea)) in
  let y := Z.max 0 (Qfloor (area_y watermarkArea)) in
  let maxWidth := metadata_width - x in
  let maxHeight := metadata_height - y in
  let width := Z.max 1 (Z.min maxWidth (Qfloor (area_width watermarkArea))) in
  let height := Z.max 1 (Z.min maxHeight (Qfloor (area_height watermarkArea))) in
  if (width <=? 0) || (height <=? 0) || (x >=? metadata_width) || (y >=? metadata_height)
  then inl (InvalidRegionBounds x y width height)
  else inr (mkRegion x y width height).

Section Pipeline.

(** The codec of the image library: [sharp(imageBuffer)] and [toBuffer()]. *)
Variable decode : Buffer -> Sharp.Image.
Variable encode : Sharp.Image -> Buffer.

(** The four statistics of the context window (variances, gradient
    magnitudes and block correlations of the pixels), as given functions
    of the pixels, the width and the height of the window. *)
Variable analyzeTextureComplexity : Buffer -> Z -> Z -> Q.
Variable analyzeEdgeStrength : Buffer -> Z -> Z -> Q.
Variable analyzeColorVariation : Buffer -> Z -> Z -> Q.
Variable analyzePatternRepetition : Buffer -> Z -> Z -> Q.

(** The four reconstruction methods, as given functions. *)
Variable textureBasedInpainting :
  Sharp.Image -> Region -> InpaintingOptions -> Rng -> Result Sharp.Image.
Variable patchBasedInpainting :
  Sharp.Image -> Region -> InpaintingOptions -> Rng -> Result Sharp.Image.
Variable hybridInpainting :
  Sharp.Image -> Region -> InpaintingOptions -> Rng -> Result Sharp.Image.
Variable basicInpainting :
  Sharp.Image -> Region -> InpaintingOptions -> Rng -> Result Sharp.Image.

(** The window [analyzeContext] extracts around the region. *)
Definition expandedRegion (region : Region) : Region :=
  {| region_x := Z.max 0 (region_x region - 30);
     region_y := Z.max 0 (region_y region - 30);
     region_width := region_width region + 60;
     region_height := region_height region + 60 |}.

Definition analyzeContext (image : Sharp.Image) (region : Region) : Result ContextAnalysis :=
  let expanded := expandedRegion region in
  contextBuffer <- Sharp.extract image (region_x expanded) (region_y expanded)
                     (region_width expanded) (region_height expanded) ;;
  let pixels := Sharp.image_data contextBuffer in
  let width := Sharp.image_width contextBuffer in
  let height := Sharp.image_height contextBuffer in
  let textureComplexity := analyzeTextureComplexity pixels width height in
  let edgeStrength := analyzeEdgeStrength pixels width height in
  let colorVariation := analyzeColorVariation pixels width height in
  let patternRepetition := analyzePatternRepetition pixels width height in
  let recommendedMethod :=
    determineInpaintingMethod textureComplexity edgeStrength colorVariation
      patternRepetition in
  inr (mkContext textureComplexity edgeStrength colorVariation patternRepetition
         recommendedMethod).

Definition processWatermarkRemoval (imageBuffer : Buffer) (watermarkArea : WatermarkArea)
  (options : InpaintingOptions) (g : Rng) : Result ProcessingResult :=
  let image := decode imageBuffer in
  let metadata_width := Sharp.image_width image in
  let metadata_height := Sharp.image_height image in
  if (metadata_width =? 0) || (metadata_height =? 0)
  then inl UnableToGetImageDimensions
  else
    region <- boundedRegion metadata_width metadata_height watermarkArea ;;
    context <- analyzeContext image region ;;
    let adaptedOptions := adaptOptionsToContext options context in
    processedImage <-
      match recommendedMethod context with
      | texture_synthesis => textureBasedInpainting image region adaptedOptions g
      | patch_based => patchBasedInpainting image region adaptedOptions g
      | hybrid => hybridInpainting image region adaptedOptions g
      | basic => basicInpainting image region adaptedOptions g
      end ;;
    let resultBuffer := encode processedImage in
    let qualityMetrics :=
      evaluateQuality imageBuffer resultBuffer region metadata_width metadata_height in
    inr {| buffer := resultBuffer;
           size := Z.of_nat (length resultBuffer);
           qualityMetrics := qualityMetrics |}.

End Pipeline.

(** *** The statistics of the context window

    [None] is NaN: a read past the buffer, or 0 / 0. *)

Definition sumNum (values : list (option Q)) : option Q :=
  fold_left addNum values (Some 0%Q).

Definition grayAt (pixels : Buffer) (channels i : Z) : option Q :=
  match readAt pixels (i * channels), readAt pixels (i * channels + 1),
        readAt pixels (i * channels + 2) with
  | Some r, Some g, Some b =>
      Some (0.299 * inject_Z r + 0.587 * inject_Z g + 0.114 * inject_Z b)%Q
  | _, _, _ => None
  end.

Definition analyzeTextureComplexity (pixels : Buffer) (width height channels : Z)
  : option Q :=
  let totalPixels := width * height in
  let grays := map (grayAt pixels channels) (range totalPixels) in
  match sumNum grays with
  | None => None
  | Some mean =>
      if totalPixels =? 0 then None
      else
        let mean := (mean / inject_Z totalPixels)%Q in
        let deviations :=
          map (option_map (fun gray => ((gray - mean) * (gray - mean))%Q)) grays in
        match sumNum deviations with
        | None => None
        | Some variance =>
            let variance := (variance / inject_Z totalPixels)%Q in
            Some (Qmin 1 (variance / 10000))
        end
  end.

(** [sumSq / totalPixels - Math.pow(sum / totalPixels, 2)] of one colour
    channel, the channel at [offset] of every pixel. *)
Definition channelVariance (pixels : Buffer) (channels offset totalPixels : Z)
  : option Q :=
  let values := map (fun i => readAt pixels (i * channels + offset)) (range totalPixels) in
  match definedValues values with
  | None => None
  | Some values =>
      if totalPixels =? 0 then None
      else
        let sum := inject_Z (sumZ values) in
        let sumSq := inject_Z (sumZ (map (fun v => v * v) values)) in
        Some (sumSq / inject_Z totalPixels
              - (sum / inject_Z totalPixels) * (sum / inject_Z totalPixels))%Q
  end.

Definition analyzeColorVariation (pixels : Buffer) (width height channels : Z)
  : option Q :=
  let totalPixels := width * height in
  match channelVariance pixels channels 0 totalPixels,
        channelVariance pixels channels 1 totalPixels,
        channelVariance pixels channels 2 totalPixels with
  | Some rVar, Some gVar, Some bVar =>
      let avgVariance := ((rVar + gVar + bVar) / 3)%Q in
      Some (Qmin 1 (avgVariance / 10000))
  | _, _, _ => None
  end.

(** [gx] and [gy] of the pixel [(x, y)]: the differences of the right
    and the left neighbour and of the lower and the upper neighbour, summed
    over the channels. *)
Definition gradientAt (pixels : Buffer) (width channels x y : Z) : option (Z * Z) :=
  fold_left (fun acc c =>
    match acc,
          readAt pixels (y * width * channels + (x + 1) * channels + c),
          readAt pixels (y * width * channels + (x - 1) * channels + c),
          readAt pixels ((y + 1) * width * channels + x * channels + c),
          readAt pixels ((y - 1) * width * channels + x * channels + c) with
    | Some (gx, gy), Some rightValue, Some leftValue, Some downValue, Some upValue =>
        Some (gx + (rightValue - leftValue), gy + (downValue - upValue))
    | _, _, _, _, _ => None
    end)
    (range channels) (Some (0, 0)).

(** [edgeStrength += Math.sqrt(gx * gx + gy * gy)]. *)
Definition addMagnitude (edgeStrength : option R) (gradient : option (Z * Z)) : option R :=
  match edgeStrength, gradient with
  | Some e, Some (gx, gy) => Some (e + sqrt (IZR (gx * gx + gy * gy)))%R
  | _, _ => None
  end.

Definition analyzeEdgeStrength (pixels : Buffer) (width height channels : Z) : option R :=
  let gradients :=
    flat_map (fun y =>
      map (fun x => gradientAt pixels width channels x y) (rangeFrom 1 (width - 1)))
      (rangeFrom 1 (height - 1)) in
  let edgeStrength := fold_left addMagnitude gradients (Some 0%R) in
  let count := length gradients in
  match edgeStrength with
  | Some e =>
      if Nat.eqb count 0 then None
      else Some (Rmin 1 (e / (INR count * 255)))
  | None => None
  end.

(** The block of [blockSize] x [blockSize] pixels at [(x, y)], in a
    [Uint8Array]. *)
Definition extractBlock (pixels : Buffer) (width channels x y blockSize : Z) : Buffer :=
  flat_map (fun by_ =>
    flat_map (fun bx =>
      let srcIdx := ((y + by_) * width + (x + bx)) * channels in
      map (fun c => byteOrZero (readAt pixels (srcIdx + c))) (range channels))
      (range blockSize))
    (range blockSize).

(** The correlation of two blocks.  When the second block is shorter than
    the first, or both are empty, the sums are NaN, [denominator > 0] is
    false and the result is 0. *)
Definition computeBlockCorrelation (block1 block2 : Buffer) : R :=
  if (length block2 <? length block1)%nat || Nat.eqb (length block1) 0 then 0%R
  else
    let n := IZR (Z.of_nat (length block1)) in
    let pairs := combine block1 block2 in
    let sum1 := IZR (sumZ (map fst pairs)) in
    let sum2 := IZR (sumZ (map snd pairs)) in
    let sum1Sq := IZR (sumZ (map (fun p : Z * Z => fst p * fst p) pairs)) in
    let sum2Sq := IZR (sumZ (map (fun p : Z * Z => snd p * snd p) pairs)) in
    let sumProduct := IZR (sumZ (map (fun p : Z * Z => fst p * snd p) pairs)) in
    let numerator := (sumProduct - (sum1 * sum2) / n)%R in
    let denominator :=
      sqrt ((sum1Sq - (sum1 * sum1) / n) * (sum2Sq - (sum2 * sum2) / n)) in
    if Rlt_dec 0 denominator then Rabs (numerator / denominator) else 0%R.

Definition analyzePatternRepetition (pixels : Buffer) (width height channels : Z) : R :=
  let blockSize := 8 in
  let correlations :=
    flat_map (fun y =>
      map (fun x =>
             let block1 := extractBlock pixels width channels x y blockSize in
             let block2 := extractBlock pixels width channels (x + blockSize) y blockSize in
             computeBlockCorrelation block1 block2)
          (steps (width - blockSize * 2) blockSize))
      (steps (height - blockSize * 2) blockSize) in
  if (0 <? length correlations)%nat
  then (fold_left Rplus correlations 0 / INR (length correlations))%R
  else 0%R.

(** *** The options for a context *)

Definition generateProcessingOptions (context : ContextAnalysis) : InpaintingOptions :=
  if Qgtb (textureComplexity context) 0.7%Q || Qgtb (edgeStrength context) 0.8%Q
  then HIGH_QUALITY_OPTIONS
  else if Qltb (colorVariation context) 0.3%Q && Qltb (patternRepetition context) 0.4%Q
  then HIGH_PERFORMANCE_OPTIONS
  else BALANCED_OPTIONS.

(** *** The reconstruction methods *)

(** The sum the two loops leave in [avgPixels[i]], a cell of a
    [Float32Array]: every patch adds the byte it has at [i], and every sum
    is stored as a float. *)
Definition patchSum (patches : list Patch) (i : nat) : Q :=
  fold_left (fun acc patch =>
               match nth_error (patch_pixels patch) i with
               | Some v => Float32.round (Double.add acc (inject_Z v))
               | None => acc
               end) patches 0%Q.

Definition computeAverageContent (patches : list Patch) : Buffer :=
  match patches with
  | [] => repeat 128 (Z.to_nat (16 * 16 * 3))
  | first :: _ =>
      let avgPixels :=
        map (fun i => patchSum patches i) (seq 0 (length (patch_pixels first))) in
      let avgPixels :=
        map (fun v =>
               Float32.round (Double.div v (inject_Z (Z.of_nat (length patches)))))
            avgPixels in
      map (fun v => toUint8 (Qfloor (Qmax 0 (Qmin 255 v)))) avgPixels
  end.

(** The byte [createHybridBlendingMask] stores for the pixel [(x, y)] of
    the region. *)
Definition hybridMaskValue (region : Region) (x y : Z) : Z :=
  let width := IZR (region_width region) in
  let height := IZR (region_height region) in
  let distFromCenter :=
    sqrt ((IZR x - width / 2) ^ 2 + (IZR y - height / 2) ^ 2) in
  let maxDist := sqrt ((width / 2) ^ 2 + (height / 2) ^ 2) in
  let normalized := (distFromCenter / maxDist)%R in
  toUint8 (Zfloor (normalized * 255)).

Definition createHybridBlendingMask (region : Region) : Buffer :=
  flat_map (fun y => map (fun x => hybridMaskValue region x y) (range (region_width region)))
           (range (region_height region)).

Section Methods.

(** The kernels of the components, as given functions: the feature
    extractors of the texture analyzer, the filters of the edge featherer,
    the estimators and the synthesis of the noise engine, the resampling
    kernels of the interpolator, and of the image library the resize of
    the 64x64 swatch, the Gaussian blur and the encoder of [toBuffer()]. *)
Variable computeDominantFrequencies : Buffer -> Z -> Z -> list Q.
Variable extractLBPFeatures : Buffer -> Z -> Z -> list Z.
Variable computeGaborResponse : Buffer -> Z -> Z -> list Q.
Variable analyzeStructuralElements : Buffer -> Z -> Z -> list (Q * Q * Q).
Variable computeColorDistribution : Buffer -> Z -> Z -> TextureAnalyzer.ColorMean.
Variable laplacian : Sharp.Image -> Buffer.
Variable applyBilateralFiltering : Buffer -> Buffer.
Variable computePowerSpectralDensity : Buffer -> Z -> Z -> list Q.
Variable estimateGrainSize : Buffer -> Z -> Z -> Q.
Variable computeCorrelationLength : Buffer -> Z -> Z -> Q.
Variable analyzeColorNoise : Buffer -> Z -> Z -> Q * Q * Q.
Variable synthesizeMatchingNoise :
  NoiseMatchingEngine.NoiseProfile -> Size -> Rng -> Buffer * Rng.
Variable cubicResample : Buffer -> Region -> Buffer.
Variable lanczosResample : Buffer -> Region -> Buffer.
Variable edgeDirectedResample : Buffer -> Region -> Buffer.
Variable exp_ : Q -> Q.
Variable resize : Buffer -> Z -> Z -> Buffer.
Variable blur : Sharp.Image -> Sharp.Image.
Variable encode : Sharp.Image -> Buffer.

Definition imageSizeOf (image : Sharp.Image) : Size :=
  {| size_width := Sharp.image_width image; size_height := Sharp.image_height image |}.

Definition textureBasedInpainting (image : Sharp.Image) (region : Region)
  (options : InpaintingOptions) (g : Rng) : Result Sharp.Image :=
  textureDescriptor <-
    TextureAnalyzer.analyzeRegion computeDominantFrequencies extractLBPFeatures
      computeGaborResponse analyzeStructuralElements computeColorDistribution
      image region ;;
  let (synthesizedTexture, g1) :=
    TextureAnalyzer.generateTextureSynthesis textureDescriptor g in
  featherMask <-
    EdgeFeatherer.createAdaptiveFeathering laplacian applyBilateralFiltering
      EdgeFeatherer.applyEdgeAwareSmoothing image region ;;
  let textureBuffer :=
    resize synthesizedTexture (region_width region) (region_height region) in
  if noiseMatching options then
    noiseProfile <-
      NoiseMatchingEngine.analyzeLocalNoise computePowerSpectralDensity estimateGrainSize
        computeCorrelationLength analyzeColorNoise image region ;;
    let (matchingNoise, _) :=
      synthesizeMatchingNoise noiseProfile
        (mkSize (region_width region) (region_height region)) g1 in
    blendedTexture <-
      NoiseMatchingEngine.blendNoiseWithContent textureBuffer matchingNoise
        (Double.round 0.3) ;;
    inr (blendWithOriginal image blendedTexture region featherMask)
  else inr (blendWithOriginal image textureBuffer region featherMask).

Definition patchBasedInpainting (image : Sharp.Image) (region : Region)
  (options : InpaintingOptions) : Result Sharp.Image :=
  samples <-
    MultiDirectionalSampler.sampleSurroundingContent image region
      (samplingRadius options) ;;
  let allPatches := MultiDirectionalSampler.allPatches samples in
  let referencePatch :=
    MultiDirectionalSampler.createReferencePatch region MultiDirectionalSampler.north in
  let (bestPatches, weights) :=
    MultiDirectionalSampler.selectBestPatches allPatches referencePatch 5 in
  blendedContent <- MultiDirectionalSampler.weightAndBlendPatches bestPatches weights ;;
  interpolatedContent <-
    AdvancedInterpolator.interpolateWithEdgePreservation cubicResample lanczosResample
      edgeDirectedResample exp_ [blendedContent] region
      (if edgePreservation options then AdvancedInterpolator.edge_directed
       else AdvancedInterpolator.bicubic) ;;
  let featherMask :=
    EdgeFeatherer.createFeatherMask region (imageSizeOf image)
      (Q2R (featherRadius options)) in
  inr (blendWithOriginal image interpolatedContent region featherMask).

Definition hybridInpainting (image : Sharp.Image) (region : Region)
  (options : InpaintingOptions) (g : Rng) : Result Sharp.Image :=
  textureResult <- textureBasedInpainting image region options g ;;
  patchResult <- patchBasedInpainting image region options ;;
  textureWindow <-
    Sharp.extract textureResult (region_x region) (region_y region)
      (region_width region) (region_height region) ;;
  let textureBuffer := Sharp.image_data textureWindow in
  patchWindow <-
    Sharp.extract patchResult (region_x region) (region_y region)
      (region_width region) (region_height region) ;;
  let patchBuffer := Sharp.image_data patchWindow in
  let hybridMask := createHybridBlendingMask region in
  let hybridContent :=
    AdvancedInterpolator.createSmoothTransition textureBuffer patchBuffer hybridMask
      (region_width region) (region_height region) in
  featherMask <-
    EdgeFeatherer.createAdaptiveFeathering laplacian applyBilateralFiltering
      EdgeFeatherer.applyEdgeAwareSmoothing image region ;;
  inr (blendWithOriginal image hybridContent region featherMask).

(** The second check of the image dimensions has the message 'Unable to
    get image dimensions for basic inpainting'. *)
Definition basicInpainting (image : Sharp.Image) (region : Region)
  (options : InpaintingOptions) : Result Sharp.Image :=
  samples <-
    MultiDirectionalSampler.sampleSurroundingContent image region
      (samplingRadius options) ;;
  let allPatches := slice0 (MultiDirectionalSampler.allPatches samples) 10 in
  if Nat.eqb (length allPatches) 0 then
    if (Sharp.image_width image =? 0) || (Sharp.image_height image =? 0)
    then inl UnableToGetImageDimensions
    else
      let left := Z.max 0 (region_x region) in
      let top := Z.max 0 (region_y region) in
      let width := Z.min (region_width region) (Sharp.image_width image - region_x region) in
      let height :=
        Z.min (region_height region) (Sharp.image_height image - region_y region) in
      if (width <=? 0) || (height <=? 0) then inl InvalidExtractParameters
      else
        extracted <- Sharp.extract image left top width height ;;
        let blurredRegion := encode (blur extracted) in
        let featherMask :=
          EdgeFeatherer.createFeatherMask region (imageSizeOf image)
            (Q2R (featherRadius options)) in
        inr (blendWithOriginal image blurredRegion region featherMask)
  else
    let avgContent := computeAverageContent allPatches in
    interpolatedContent <-
      AdvancedInterpolator.interpolateWithEdgePreservation cubicResample lanczosResample
        edgeDirectedResample exp_ [avgContent] region AdvancedInterpolator.bicubic ;;
    let featherMask :=
      EdgeFeatherer.createFeatherMask region (imageSizeOf image)
        (Q2R (featherRadius options)) in
    inr (blendWithOriginal image interpolatedContent region featherMask).

End Methods.

End InpaintingEngine.

(** ** Statements of the specification

    The properties the specification claims, in its words, for the claims
    that the code does not satisfy as they are written. *)

(** The contract of the specification for [clampRegionToImage], word for
    word: no zero or negative extent, no coordinate out of bounds. *)
Definition clampContract (imageSize : Size) (r : Region) : Prop :=
  0 <= region_x r /\ 0 <= region_y r /\
  0 < region_width r /\ 0 < region_height r /\
  region_x r + region_width r <= size_width imageSize /\
  region_y r + region_height r <= size_height imageSize.

(** The contract of the specification for the interpolation without
    source content, word for word: every method degrades to the neutral
    gray fill. *)
Definition degradesToGrayFill : Prop :=
  forall cubicResample lanczosResample edgeDirectedResample exp_ targetRegion method,
    AdvancedInterpolator.interpolateWithEdgePreservation cubicResample lanczosResample
      edgeDirectedResample exp_ [] targetRegion method
    = inr (AdvancedInterpolator.grayFill targetRegion).

(** A cell of the work array of the diffusion over a gray buffer: still
    the initial 0, or 128. *)
Definition grayCell (v : option Q) : Prop :=
  exists q, v = Some q /\ (q == 0 \/ q == 128)%Q.

(** "Raises an invalid-region error". *)
Definition raisesInvalidRegion {A : Type} (r : Result A) : Prop :=
  exists x y width height, r = inl (InvalidRegionBounds x y width height).

(** The compositing the specification describes: inside the region every
    byte of the output is the blend of the reconstructed content and of the
    original weighted by the byte of the feather mask at that pixel
    (255 is full opacity of the content); elsewhere it is the original. *)
Definition maskWeightedBlend (originalImage : Sharp.Image) (inpaintedContent : Buffer)
  (region : Region) (featherMask : Buffer) : Buffer :=
  let inpaintedImage :=
    Sharp.raw inpaintedContent (region_width region) (region_height region) in
  flat_map (fun py =>
    flat_map (fun px =>
      map (fun c =>
        let original := Sharp.pixelAt originalImage px py c in
        if EdgeFeatherer.isInsideRegion px py region then
          let content :=
            Sharp.pixelAt inpaintedImage (px - region_x region) (py - region_y region) c in
          let maskValue :=
            nth (Z.to_nat (py * Sharp.image_width originalImage + px)) featherMask 0 in
          (content * maskValue + original * (255 - maskValue)) / 255
        else original) (range Sharp.channels))
      (range (Sharp.image_width originalImage)))
    (range (Sharp.image_height originalImage)).

(** ** Sample inputs

    Concrete images and concrete stand-ins for the given functions of the
    pipeline, used where a statement is evaluated on an input. *)

Module Sample.

(** An image of one colour. *)
Definition flatImage (width height value : Z) : Sharp.Image :=
  Sharp.raw (repeat value (Z.to_nat (width * height * 3))) width height.

(** A codec that keeps the raw pixels: the buffer is the pixel data of an
    image of the given size. *)
Definition rawDecode (width height : Z) (imageBuffer : Buffer) : Sharp.Image :=
  Sharp.raw imageBuffer width height.

Definition rawEncode (image : Sharp.Image) : Buffer := Sharp.image_data image.

Definition constantStatistic (value : Q) (_ : Buffer) (_ _ : Z) : Q := value.

(** A reconstruction method that paints the region mid-gray. *)
Definition grayMethod (image : Sharp.Image) (region : Region)
  (_ : InpaintingEngine.InpaintingOptions) (_ : Rng) : Result Sharp.Image :=
  inr (InpaintingEngine.blendWithOriginal image
         (AdvancedInterpolator.grayFill region) region []).

(** The balanced options with noise matching switched off. *)
Definition options : InpaintingEngine.InpaintingOptions :=
  InpaintingEngine.mkOptions 20 40 3 false true InpaintingEngine.balanced.

Definition noDraws : Rng := mkRng (fun _ => 0%Q) 0.

(** The pipeline over the raw codec, flat statistics and the gray method. *)
Definition pipeline (width height : Z) (imageBuffer : Buffer) (area : WatermarkArea)
  : Result InpaintingEngine.ProcessingResult :=
  InpaintingEngine.processWatermarkRemoval (rawDecode width height) rawEncode
    (constantStatistic 0) (constantStatistic 0) (constantStatistic 0) (constantStatistic 0)
    grayMethod grayMethod grayMethod grayMethod imageBuffer area options noDraws.

(** A texture descriptor: no frequency content, a saturated pattern
    histogram, mid-gray mean colour. *)
Definition descriptor : TextureAnalyzer.TextureDescriptor :=
  TextureAnalyzer.mkDescriptor (repeat 0%Q 64) (repeat 255 256) (repeat 0%Q 8) []
    (TextureAnalyzer.mkMean 128 128 128).

(** Two runs of [Math.random]: all draws 0, all draws 0.5. *)
Definition drawsZero : Rng := mkRng (fun _ => 0%Q) 0.
Definition drawsHalf : Rng := mkRng (fun _ => 0.5%Q) 0.

(** A buffer that alternates between two bytes. *)
Definition alternating (n : nat) (a b : Z) : Buffer :=
  map (fun i => if Nat.even i then a else b) (seq 0 n).

End Sample.

(** Stand-ins for the routines the methods are parameterised by, for the
    sample runs of the methods. *)
Module SampleMethods.

Definition noFrequencies (_ : Buffer) (_ _ : Z) : list Q := [].
Definition noPatterns (_ : Buffer) (_ _ : Z) : list Z := [].
Definition noElements (_ : Buffer) (_ _ : Z) : list (Q * Q * Q) := [].
Definition grayMean (_ : Buffer) (_ _ : Z) : TextureAnalyzer.ColorMean :=
  TextureAnalyzer.mkMean 128 128 128.
Definition noColorNoise (_ : Buffer) (_ _ : Z) : Q * Q * Q := (0%Q, 0%Q, 0%Q).
Definition rawPixels (image : Sharp.Image) : Buffer := Sharp.image_data image.
Definition unfiltered (buffer : Buffer) : Buffer := buffer.
Definition unsmoothed (mask _ : Buffer) (_ : Size) : Buffer := mask.
Definition silentNoise (_ : NoiseMatchingEngine.NoiseProfile) (size : Size) (g : Rng)
  : Buffer * Rng :=
  (repeat 0 (Z.to_nat (size_width size * size_height size * 3)), g).
Definition grayResample (_ : Buffer) (region : Region) : Buffer :=
  AdvancedInterpolator.grayFill region.
Definition grayResize (_ : Buffer) (width height : Z) : Buffer :=
  repeat 128 (Z.to_nat (width * height * 3)).
Definition unitExp (_ : Q) : Q := 1%Q.

End SampleMethods.

(** ** Theorems *)

(** *** Numbers and loops *)

Lemma Qltb_lt (a b : Q) : Qltb a b = true <-> (a < b)%Q.
Proof.
  unfold Qltb. rewrite negb_true_iff, <- not_true_iff_false, Qle_bool_iff.
  split; [apply Qnot_le_lt | apply Qlt_not_le].
Qed.

Lemma Qgtb_gt (a b : Q) : Qgtb a b = true <-> (b < a)%Q.
Proof. apply Qltb_lt. Qed.

Lemma Qgtb_false (a b : Q) : Qgtb a b = false <-> ~ (b < a)%Q.
Proof.
  rewrite <- Qgtb_gt. destruct (Qgtb a b); intuition congruence.
Qed.

Lemma range_length (n : Z) : length (range n) = Z.to_nat n.
Proof. unfold range. now rewrite length_map, length_seq. Qed.

Lemma in_range (n i : Z) : In i (range n) <-> 0 <= i < n.
Proof.
  unfold range. rewrite in_map_iff. split.
  - intros [k [<- Hk]]. apply in_seq in Hk. lia.
  - intros Hi. exists (Z.to_nat i). split; [lia | apply in_seq; lia].
Qed.

Lemma in_rangeFrom (lo hi i : Z) : In i (rangeFrom lo hi) <-> lo <= i < hi.
Proof.
  unfold rangeFrom. rewrite in_map_iff. split.
  - intros [k [<- Hk]]. apply in_range in Hk. lia.
  - intros Hi. exists (i - lo). split; [lia | apply in_range; lia].
Qed.

Lemma nth_range (n : Z) (k : nat) (d : Z) :
  (k < Z.to_nat n)%nat -> nth k (range n) d = Z.of_nat k.
Proof.
  intros Hk. unfold range.
  rewrite nth_indep with (d' := Z.of_nat 0) by (rewrite length_map, length_seq; lia).
  rewrite map_nth, seq_nth by lia. reflexivity.
Qed.

(** *** Method selection *)

(** C3: the recommended method is the first match of the four rules, in
    the order of the specification, and the four sample inputs of the
    specification select the four methods. *)
Theorem determineInpaintingMethod_first_match
  (textureComplexity edgeStrength colorVariation patternRepetition : Q) :
  let m := InpaintingEngine.determineInpaintingMethod
             textureComplexity edgeStrength colorVariation patternRepetition in
  let rule1 := (0.7 < textureComplexity /\ 0.6 < patternRepetition)%Q in
  let rule2 := (0.6 < edgeStrength)%Q in
  let rule3 := (0.5 < textureComplexity \/ 0.6 < colorVariation)%Q in
  (rule1 -> m = InpaintingEngine.texture_synthesis) /\
  (~ rule1 -> rule2 -> m = InpaintingEngine.patch_based) /\
  (~ rule1 -> ~ rule2 -> rule3 -> m = InpaintingEngine.hybrid) /\
  (~ rule1 -> ~ rule2 -> ~ rule3 -> m = InpaintingEngine.basic) /\
  InpaintingEngine.determineInpaintingMethod 0.8 0.2 0.1 0.7
    = InpaintingEngine.texture_synthesis /\
  InpaintingEngine.determineInpaintingMethod 0.2 0.7 0.1 0.1
    = InpaintingEngine.patch_based /\
  InpaintingEngine.determineInpaintingMethod 0.55 0.1 0.2 0.1
    = InpaintingEngine.hybrid /\
  InpaintingEngine.determineInpaintingMethod 0.1 0.1 0.1 0.1
    = InpaintingEngine.basic.
Proof.
  cbv zeta. unfold InpaintingEngine.determineInpaintingMethod.
  destruct (Qgtb textureComplexity 0.7) eqn:E1;
  destruct (Qgtb patternRepetition 0.6) eqn:E2;
  destruct (Qgtb edgeStrength 0.6) eqn:E3;
  destruct (Qgtb textureComplexity 0.5) eqn:E4;
  destruct (Qgtb colorVariation 0.6) eqn:E5;
  repeat match goal with
  | H : Qgtb _ _ = true |- _ => apply Qgtb_gt in H
  | H : Qgtb _ _ = false |- _ => apply Qgtb_false in H
  end;
  cbn [andb orb];
  repeat split; try reflexivity; intros; try reflexivity; tauto.
Qed.

(** C5, as stated, fails: a region of zero extent is returned with zero
    extent, the function has no floor for the width and the height. *)
Lemma clampRegionToImage_zero_extent :
  ~ clampContract (mkSize 10 10)
      (ImageUtils.clampRegionToImage (mkRegion 0 0 0 0) (mkSize 10 10)).
Proof.
  unfold clampContract; cbn. lia.
Qed.

(** C5 (amended): for every region and every image of positive size the
    clamped region has its origin inside the image and does not reach past
    the right or bottom border; its extents are positive exactly when the
    extents of the input are; and the function clamps the origin first and
    then shrinks the extents against the space left of that origin. *)
Theorem clampRegionToImage_bounds (region : Region) (imageSize : Size) :
  0 < size_width imageSize -> 0 < size_height imageSize ->
  let r := ImageUtils.clampRegionToImage region imageSize in
  (0 <= region_x r < size_width imageSize) /\
  (0 <= region_y r < size_height imageSize) /\
  region_x r + region_width r <= size_width imageSize /\
  region_y r + region_height r <= size_height imageSize /\
  (0 < region_width r <-> 0 < region_width region) /\
  (0 < region_height r <-> 0 < region_height region) /\
  region_x r = Z.max 0 (Z.min (region_x region) (size_width imageSize - 1)) /\
  region_y r = Z.max 0 (Z.min (region_y region) (size_height imageSize - 1)) /\
  region_width r = Z.min (region_width region) (size_width imageSize - region_x r) /\
  region_height r = Z.min (region_height region) (size_height imageSize - region_y r).
Proof.
  intros HW HH r. subst r. unfold ImageUtils.clampRegionToImage. cbn.
  repeat split; lia.
Qed.

Lemma clampRegionToImage_bounds_witness :
  let r := ImageUtils.clampRegionToImage (mkRegion 95 (-3) 20 4) (mkSize 100 50) in
  region_x r = 95 /\ region_width r = 5 /\ region_y r = 0 /\ region_height r = 4.
Proof.
  pose proof (clampRegionToImage_bounds (mkRegion 95 (-3) 20 4) (mkSize 100 50)) as H.
  cbn in H. specialize (H ltac:(lia) ltac:(lia)).
  cbn. lia.
Defined.

(** *** The region check and the analysis windows *)

Lemma validExtractArea_spec (img : Sharp.Image) (left top width height : Z) :
  Sharp.validExtractArea img left top width height = true <->
  0 <= left /\ 0 <= top /\ 0 < width /\ 0 < height /\
  left + width <= Sharp.image_width img /\ top + height <= Sharp.image_height img.
Proof.
  unfold Sharp.validExtractArea.
  rewrite !andb_true_iff, !Z.leb_le, !Z.ltb_lt. tauto.
Qed.

Lemma extract_fails_iff (img : Sharp.Image) (left top width height : Z) :
  (exists e, Sharp.extract img left top width height = inl e) <->
  Sharp.validExtractArea img left top width height = false.
Proof.
  unfold Sharp.extract.
  destruct (Sharp.validExtractArea img left top width height); split.
  - intros [e He]. discriminate.
  - discriminate.
  - reflexivity.
  - intros _. now exists BadExtractArea.
Qed.

(** The context window of a region that satisfies the invariant of the
    data model is rejected by [extract] exactly when the region, moved to
    the clamped origin and widened by 60, does not fit in the image. *)
Lemma analyzeContext_fails_iff analyzeTextureComplexity analyzeEdgeStrength
  analyzeColorVariation analyzePatternRepetition (image : Sharp.Image) (region : Region) :
  0 < region_width region -> 0 < region_height region ->
  (InpaintingEngine.analyzeContext analyzeTextureComplexity analyzeEdgeStrength
     analyzeColorVariation analyzePatternRepetition image region = inl BadExtractArea
   <->
   Sharp.image_width image < Z.max 0 (region_x region - 30) + region_width region + 60 \/
   Sharp.image_height image < Z.max 0 (region_y region - 30) + region_height region + 60).
Proof.
  intros Hw Hh. unfold InpaintingEngine.analyzeContext, Sharp.extract.
  cbn [InpaintingEngine.expandedRegion region_x region_y region_width region_height].
  destruct (Sharp.validExtractArea image _ _ _ _) eqn:E; cbn [bind]; split.
  - discriminate.
  - apply validExtractArea_spec in E. lia.
  - intros _.
    destruct (Z_lt_le_dec (Sharp.image_width image)
                (Z.max 0 (region_x region - 30) + (region_width region + 60)));
      [left; lia |].
    destruct (Z_lt_le_dec (Sharp.image_height image)
                (Z.max 0 (region_y region - 30) + (region_height region + 60)));
      [right; lia |].
    exfalso. apply not_true_iff_false in E. apply E, validExtractArea_spec. lia.
  - reflexivity.
Qed.

(** C1 fails on the code: on a 10x10 image the request for the 5x5 region
    at (0,0) passes the region check and is then rejected by the image
    library, because the context window of [analyzeContext] is 65x65; this
    holds whatever the statistics, the methods and the options are. *)
Theorem processWatermarkRemoval_context_window_rejected
  encode analyzeTextureComplexity analyzeEdgeStrength analyzeColorVariation
  analyzePatternRepetition textureBasedInpainting patchBasedInpainting
  hybridInpainting basicInpainting options g :
  InpaintingEngine.boundedRegion 10 10 (mkArea 0 0 5 5) = inr (mkRegion 0 0 5 5) /\
  InpaintingEngine.expandedRegion (mkRegion 0 0 5 5) = mkRegion 0 0 65 65 /\
  InpaintingEngine.processWatermarkRemoval (Sample.rawDecode 10 10) encode
    analyzeTextureComplexity analyzeEdgeStrength analyzeColorVariation
    analyzePatternRepetition textureBasedInpainting patchBasedInpainting
    hybridInpainting basicInpainting
    (Sharp.image_data (Sample.flatImage 10 10 128)) (mkArea 0 0 5 5) options g
  = inl BadExtractArea.
Proof.
  split; [reflexivity |]. split; [reflexivity |].
  unfold InpaintingEngine.processWatermarkRemoval.
  set (image := Sample.rawDecode 10 10 _).
  change (Sharp.image_width image) with 10.
  change (Sharp.image_height image) with 10.
  cbn [Z.eqb orb].
  change (InpaintingEngine.boundedRegion 10 10 (mkArea 0 0 5 5))
    with (@inr EngineError Region (mkRegion 0 0 5 5)).
  cbn [bind].
  assert (Hwindow :
    InpaintingEngine.analyzeContext analyzeTextureComplexity analyzeEdgeStrength
      analyzeColorVariation analyzePatternRepetition image (mkRegion 0 0 5 5)
    = inl BadExtractArea).
  { apply analyzeContext_fails_iff; cbn; lia. }
  rewrite Hwindow. reflexivity.
Qed.

(** The two other windows are out of bounds on the same input: the noise
    window is 30x30 and the edge-detection window is 105x105. *)
Lemma analyzeLocalNoise_window_rejected psd grain corr colour :
  NoiseMatchingEngine.expandedRegion (Sample.flatImage 10 10 128) (mkRegion 0 0 5 5)
    = mkRegion 0 0 30 30 /\
  NoiseMatchingEngine.analyzeLocalNoise psd grain corr colour
    (Sample.flatImage 10 10 128) (mkRegion 0 0 5 5) = inl BadExtractArea.
Proof. split; reflexivity. Qed.

Lemma detectEdges_window_rejected laplacian :
  EdgeFeatherer.expandedRegion (mkRegion 0 0 5 5) = mkRegion 0 0 105 105 /\
  EdgeFeatherer.detectEdges laplacian (Sample.flatImage 10 10 128) (mkRegion 0 0 5 5)
    = inl BadExtractArea.
Proof. split; reflexivity. Qed.

Lemma boundedRegion_spec (metadata_width metadata_height : Z) (area : WatermarkArea) :
  let x := Z.max 0 (Qfloor (area_x area)) in
  let y := Z.max 0 (Qfloor (area_y area)) in
  let width := Z.max 1 (Z.min (metadata_width - x) (Qfloor (area_width area))) in
  let height := Z.max 1 (Z.min (metadata_height - y) (Qfloor (area_height area))) in
  InpaintingEngine.boundedRegion metadata_width metadata_height area =
  if (x >=? metadata_width) || (y >=? metadata_height)
  then inl (InvalidRegionBounds x y width height)
  else inr (mkRegion x y width height).
Proof.
  cbv zeta. unfold InpaintingEngine.boundedRegion.
  set (x := Z.max 0 (Qfloor (area_x area))).
  set (y := Z.max 0 (Qfloor (area_y area))).
  set (width := Z.max 1 _). set (height := Z.max 1 _).
  replace (width <=? 0) with false by (symmetry; apply Z.leb_gt; subst width; lia).
  replace (height <=? 0) with false by (symmetry; apply Z.leb_gt; subst height; lia).
  reflexivity.
Qed.

(** C4, as stated, fails: on a 100x100 image the request with width 0 and
    height -5 at the origin is not rejected; the check turns it into the
    1x1 region at the origin and the run goes on. *)
Lemma processWatermarkRemoval_accepts_empty_extent :
  InpaintingEngine.boundedRegion 100 100 (mkArea 0 0 0 (-5)) = inr (mkRegion 0 0 1 1) /\
  ~ raisesInvalidRegion
      (Sample.pipeline 100 100 (Sharp.image_data (Sample.flatImage 100 100 128))
         (mkArea 0 0 0 (-5))).
Proof.
  split; [reflexivity |].
  intros [x [y [w [h H]]]]. revert H.
  unfold Sample.pipeline, InpaintingEngine.processWatermarkRemoval.
  cbn [Sample.rawDecode Sharp.raw Sharp.image_width Sharp.image_height Z.eqb orb].
  change (InpaintingEngine.boundedRegion 100 100 (mkArea 0 0 0 (-5)))
    with (@inr EngineError Region (mkRegion 0 0 1 1)).
  cbn [bind].
  unfold InpaintingEngine.analyzeContext, Sharp.extract.
  change (Sharp.validExtractArea _ _ _ _ _) with true.
  cbn [bind InpaintingEngine.recommendedMethod Sample.constantStatistic].
  change (InpaintingEngine.determineInpaintingMethod 0 0 0 0) with InpaintingEngine.basic.
  cbn [Sample.grayMethod bind]. discriminate.
Qed.

(** C4 (amended): on an image of positive size the request is rejected
    with the invalid-region error when its origin, floored and raised to 0,
    lies right of or below the image, and then whatever the pixels and the
    components are; a request whose origin is inside the image is never
    rejected by the check: its width and height are floored, cut to the
    space right of and below the origin and raised to 1, and the region so
    obtained is inside the image. *)
Theorem boundedRegion_rejects_only_outside_origin
  decode encode analyzeTextureComplexity analyzeEdgeStrength analyzeColorVariation
  analyzePatternRepetition textureBasedInpainting patchBasedInpainting
  hybridInpainting basicInpainting imageBuffer (area : WatermarkArea) options g :
  let metadata_width := Sharp.image_width (decode imageBuffer) in
  let metadata_height := Sharp.image_height (decode imageBuffer) in
  let x := Z.max 0 (Qfloor (area_x area)) in
  let y := Z.max 0 (Qfloor (area_y area)) in
  let width := Z.max 1 (Z.min (metadata_width - x) (Qfloor (area_width area))) in
  let height := Z.max 1 (Z.min (metadata_height - y) (Qfloor (area_height area))) in
  0 < metadata_width -> 0 < metadata_height ->
  (metadata_width <= x \/ metadata_height <= y ->
   InpaintingEngine.boundedRegion metadata_width metadata_height area
     = inl (InvalidRegionBounds x y width height) /\
   InpaintingEngine.processWatermarkRemoval decode encode
     analyzeTextureComplexity analyzeEdgeStrength analyzeColorVariation
     analyzePatternRepetition textureBasedInpainting patchBasedInpainting
     hybridInpainting basicInpainting imageBuffer area options g
     = inl (InvalidRegionBounds x y width height)) /\
  (x < metadata_width -> y < metadata_height ->
   InpaintingEngine.boundedRegion metadata_width metadata_height area
     = inr (mkRegion x y width height) /\
   1 <= width /\ 1 <= height /\
   x + width <= metadata_width /\ y + height <= metadata_height).
Proof.
  cbv zeta. intros HW HH.
  pose proof (boundedRegion_spec (Sharp.image_width (decode imageBuffer))
                (Sharp.image_height (decode imageBuffer)) area) as Hspec.
  cbv zeta in Hspec.
  split.
  - intros Hout.
    assert (Hb : InpaintingEngine.boundedRegion (Sharp.image_width (decode imageBuffer))
                   (Sharp.image_height (decode imageBuffer)) area
                 = inl (InvalidRegionBounds
                          (Z.max 0 (Qfloor (area_x area))) (Z.max 0 (Qfloor (area_y area)))
                          (Z.max 1 (Z.min (Sharp.image_width (decode imageBuffer)
                                           - Z.max 0 (Qfloor (area_x area)))
                                          (Qfloor (area_width area))))
                          (Z.max 1 (Z.min (Sharp.image_height (decode imageBuffer)
                                           - Z.max 0 (Qfloor (area_y area)))
                                          (Qfloor (area_height area)))))).
    { rewrite Hspec.
      replace (_ || _) with true; [reflexivity |].
      symmetry. apply orb_true_iff. rewrite !Z.geb_le. lia. }
    split; [exact Hb |].
    unfold InpaintingEngine.processWatermarkRemoval.
    replace (_ || _) with false
      by (symmetry; apply orb_false_iff; rewrite !Z.eqb_neq; lia).
    rewrite Hb. reflexivity.
  - intros Hx Hy. split; [| lia].
    rewrite Hspec.
    replace (_ || _) with false; [reflexivity |].
    symmetry. apply orb_false_iff. rewrite !Z.geb_leb, !Z.leb_gt. lia.
Qed.

Lemma boundedRegion_rejects_only_outside_origin_witness :
  InpaintingEngine.boundedRegion 100 100 (mkArea 150 20 30 30)
    = inl (InvalidRegionBounds 150 20 1 30) /\
  InpaintingEngine.boundedRegion 100 100 (mkArea 90 20 30 (-2))
    = inr (mkRegion 90 20 10 1).
Proof.
  split.
  - apply (boundedRegion_rejects_only_outside_origin (Sample.rawDecode 100 100)
             Sample.rawEncode (Sample.constantStatistic 0) (Sample.constantStatistic 0)
             (Sample.constantStatistic 0) (Sample.constantStatistic 0)
             Sample.grayMethod Sample.grayMethod Sample.grayMethod Sample.grayMethod
             [] (mkArea 150 20 30 30) Sample.options Sample.noDraws);
      cbn; lia.
  - apply (boundedRegion_rejects_only_outside_origin (Sample.rawDecode 100 100)
             Sample.rawEncode (Sample.constantStatistic 0) (Sample.constantStatistic 0)
             (Sample.constantStatistic 0) (Sample.constantStatistic 0)
             Sample.grayMethod Sample.grayMethod Sample.grayMethod Sample.grayMethod
             [] (mkArea 90 20 30 (-2)) Sample.options Sample.noDraws);
      cbn; lia.
Defined.

(** *** Interpolation without source content *)

Lemma fold_left_preserves {A B : Type} (P : A -> Prop) (f : A -> B -> A) (l : list B) :
  (forall a b, In b l -> P a -> P (f a b)) ->
  forall a, P a -> P (fold_left f l a).
Proof.
  induction l as [| b l IH]; intros Hf a Ha; cbn; [exact Ha |].
  apply IH.
  - intros a' b' Hb'. apply Hf. now right.
  - apply Hf; [now left | exact Ha].
Qed.

Lemma writeAt_length {A : Type} (l : list A) (i : Z) (v : A) :
  length (AdvancedInterpolator.writeAt l i v) = length l.
Proof.
  unfold AdvancedInterpolator.writeAt.
  destruct ((i <? 0) || (Z.of_nat (length l) <=? i)) eqn:E; [reflexivity |].
  apply orb_false_iff in E. destruct E as [E1 E2].
  apply Z.ltb_ge in E1. apply Z.leb_gt in E2.
  rewrite length_app. cbn [length]. rewrite length_firstn, length_skipn. lia.
Qed.

Lemma Forall_firstn_skipn {A : Type} (P : A -> Prop) (l : list A) (n : nat) :
  Forall P l -> Forall P (firstn n l) /\ Forall P (skipn n l).
Proof.
  intros H. rewrite <- (firstn_skipn n l) in H. now apply Forall_app in H.
Qed.

Lemma writeAt_Forall {A : Type} (P : A -> Prop) (l : list A) (i : Z) (v : A) :
  Forall P l -> P v -> Forall P (AdvancedInterpolator.writeAt l i v).
Proof.
  intros Hl Hv. unfold AdvancedInterpolator.writeAt.
  destruct ((i <? 0) || (Z.of_nat (length l) <=? i)); [exact Hl |].
  apply Forall_app. split.
  - now apply Forall_firstn_skipn.
  - constructor; [exact Hv | now apply Forall_firstn_skipn].
Qed.

Lemma readAt_repeat (v : Z) (n : nat) (i : Z) :
  0 <= i < Z.of_nat n -> readAt (repeat v n) i = Some v.
Proof.
  intros Hi. unfold readAt.
  replace (i <? 0) with false by (symmetry; apply Z.ltb_ge; lia).
  rewrite nth_error_repeat by lia. reflexivity.
Qed.

Lemma diffusePixel_gray exp_ (width height : Z) (kappa gamma : Q) (x y c : Z) :
  1 <= x < width - 1 -> 1 <= y < height - 1 -> 0 <= c < 3 ->
  grayCell (AdvancedInterpolator.diffusePixel exp_
              (repeat 128 (Z.to_nat (width * height * 3))) width kappa gamma x y c).
Proof.
  intros Hx Hy Hc. unfold AdvancedInterpolator.diffusePixel, AdvancedInterpolator.readFloat.
  rewrite !readAt_repeat by nia.
  cbn [option_map]. eexists. split; [reflexivity |]. right.
  unfold AdvancedInterpolator.diffusionTerm. ring.
Qed.

Lemma clampToByte_gray (v : option Q) :
  grayCell v ->
  AdvancedInterpolator.clampToByte
    (if AdvancedInterpolator.isZero v then Some (inject_Z 128) else v) = 128.
Proof.
  intros [q [-> [Hq | Hq]]]; cbn [AdvancedInterpolator.isZero].
  - replace (Qeq_bool q 0) with true by (symmetry; now apply Qeq_bool_iff).
    reflexivity.
  - replace (Qeq_bool q 0) with false.
    + cbn [AdvancedInterpolator.clampToByte].
      assert (H1 : (Qmin 255 q == q)%Q) by (apply Q.min_r; rewrite Hq; discriminate).
      assert (H2 : (Qmax 0 (Qmin 255 q) == Qmin 255 q)%Q)
        by (apply Q.max_r; rewrite H1, Hq; discriminate).
      rewrite H2, H1, Hq. reflexivity.
    + symmetry. apply not_true_iff_false. intros E. apply Qeq_bool_iff in E.
      rewrite Hq in E. discriminate.
Qed.

Lemma diffusion_finish (res : list (option Q)) (n : nat) :
  length res = n -> Forall grayCell res ->
  map AdvancedInterpolator.clampToByte
    (map (fun rd : option Q * Z =>
            if AdvancedInterpolator.isZero (fst rd) then Some (inject_Z (snd rd)) else fst rd)
         (combine res (repeat 128 n))) = repeat 128 n.
Proof.
  revert n. induction res as [| r res IH]; intros n Hn HF.
  - cbn in Hn. subst n. reflexivity.
  - destruct n as [| n]; [discriminate |].
    inversion HF as [| ? ? Hr HF']; subst.
    cbn [repeat combine map fst snd]. f_equal.
    + now apply clampToByte_gray.
    + apply IH; [now inversion Hn | exact HF'].
Qed.

(** One pass of the diffusion leaves a buffer of gray pixels as it is. *)
Lemma applyAnisotropicDiffusion_gray exp_ (width height : Z) (kappa gamma : Q) :
  AdvancedInterpolator.applyAnisotropicDiffusion exp_
    (repeat 128 (Z.to_nat (width * height * 3))) width height kappa gamma
  = repeat 128 (Z.to_nat (width * height * 3)).
Proof.
  unfold AdvancedInterpolator.applyAnisotropicDiffusion.
  set (n := Z.to_nat (width * height * 3)).
  rewrite repeat_length.
  apply diffusion_finish.
  - apply (fold_left_preserves (fun res : list (option Q) => length res = n)).
    + intros res y _ Hres.
      apply (fold_left_preserves (fun res : list (option Q) => length res = n));
        [| exact Hres].
      intros res' x _ Hres'.
      apply (fold_left_preserves (fun res : list (option Q) => length res = n));
        [| exact Hres'].
      intros res'' c _ Hres''. now rewrite writeAt_length.
    + apply repeat_length.
  - apply (fold_left_preserves (Forall grayCell)).
    + intros res y Hy Hres. apply in_rangeFrom in Hy.
      apply (fold_left_preserves (Forall grayCell)); [| exact Hres].
      intros res' x Hx Hres'. apply in_rangeFrom in Hx.
      apply (fold_left_preserves (Forall grayCell)); [| exact Hres'].
      intros res'' c Hc Hres''. apply in_range in Hc.
      apply writeAt_Forall; [exact Hres'' |].
      now apply diffusePixel_gray with (height := height).
    + apply Forall_forall. intros v Hv. apply repeat_spec in Hv. subst v.
      exists 0%Q. split; [reflexivity | left; reflexivity].
Qed.

Lemma iter_fixed {A : Type} (f : A -> A) (a : A) (n : nat) :
  f a = a -> Nat.iter n f a = a.
Proof.
  intros Hf. induction n as [| n IH]; [reflexivity |].
  now rewrite Nat.iter_succ, IH.
Qed.

(** C6, as stated, fails: the dispatcher rejects the empty list before any
    method runs. *)
Lemma interpolateWithEdgePreservation_rejects_empty : ~ degradesToGrayFill.
Proof.
  intros H.
  specialize (H (fun _ _ => []) (fun _ _ => []) (fun _ _ => []) (fun q => q)
                (mkRegion 0 0 4 4) AdvancedInterpolator.bicubic).
  discriminate H.
Qed.

Lemma fill_newUint8Array (size value : Z) :
  0 <= size ->
  (result <- AdvancedInterpolator.newUint8Array size ;;
   inr (AdvancedInterpolator.fill result value))
  = inr (repeat value (Z.to_nat size)).
Proof.
  intros Hsize. unfold AdvancedInterpolator.newUint8Array.
  replace (size <? 0) with false by (symmetry; apply Z.ltb_ge; exact Hsize).
  cbn [bind]. unfold AdvancedInterpolator.fill. now rewrite map_repeat.
Qed.

(** C6 (amended): for every target region and every method,
    [interpolateWithEdgePreservation] called with an empty list of sources
    raises the error "No source regions provided for interpolation"; the
    neutral gray fill (a buffer of width * height * 3 bytes, every byte 128)
    is what each of the four method routines returns when it is called
    directly with an empty list and width * height is not negative; when
    width * height is negative each routine raises the RangeError of
    [new Uint8Array] before it looks at the list. *)
Theorem interpolation_without_sources
  cubicResample lanczosResample edgeDirectedResample exp_
  (targetRegion : Region) (method : AdvancedInterpolator.InterpolationMethod) :
  let size := region_width targetRegion * region_height targetRegion * 3 in
  let outcomes :=
    [ AdvancedInterpolator.bicubicInterpolation cubicResample [] targetRegion;
      AdvancedInterpolator.lanczosInterpolation lanczosResample [] targetRegion;
      AdvancedInterpolator.edgeDirectedInterpolation edgeDirectedResample [] targetRegion;
      AdvancedInterpolator.anisotropicDiffusionInterpolation cubicResample exp_ []
        targetRegion ] in
  AdvancedInterpolator.interpolateWithEdgePreservation cubicResample lanczosResample
    edgeDirectedResample exp_ [] targetRegion method = inl NoSourceRegions /\
  (0 <= size ->
   Forall (fun outcome => outcome = inr (AdvancedInterpolator.grayFill targetRegion))
          outcomes /\
   length (AdvancedInterpolator.grayFill targetRegion) = Z.to_nat size /\
   Forall (fun b => b = 128) (AdvancedInterpolator.grayFill targetRegion)) /\
  (size < 0 -> Forall (fun outcome => outcome = inl InvalidTypedArrayLength) outcomes).
Proof.
  intros size outcomes. subst outcomes.
  split; [reflexivity |]. split.
  - intros Hsize.
    assert (Hcubic : AdvancedInterpolator.bicubicInterpolation cubicResample []
                       targetRegion = inr (AdvancedInterpolator.grayFill targetRegion))
      by (apply fill_newUint8Array; exact Hsize).
    split; [| split].
    + repeat constructor.
      * exact Hcubic.
      * apply fill_newUint8Array; exact Hsize.
      * apply fill_newUint8Array; exact Hsize.
      * unfold AdvancedInterpolator.anisotropicDiffusionInterpolation.
        rewrite Hcubic. cbn [bind]. f_equal.
        apply iter_fixed. apply applyAnisotropicDiffusion_gray.
    + apply repeat_length.
    + apply Forall_forall. intros b Hb. now apply repeat_spec in Hb.
  - intros Hsize.
    assert (Hnew : AdvancedInterpolator.newUint8Array size = inl InvalidTypedArrayLength).
    { unfold AdvancedInterpolator.newUint8Array.
      now replace (size <? 0) with true by (symmetry; apply Z.ltb_lt; exact Hsize). }
    unfold AdvancedInterpolator.anisotropicDiffusionInterpolation,
      AdvancedInterpolator.bicubicInterpolation, AdvancedInterpolator.lanczosInterpolation,
      AdvancedInterpolator.edgeDirectedInterpolation.
    fold size. rewrite Hnew. repeat constructor.
Qed.

(** *** Compositing *)

Lemma nth_flat_map_blocks {A B : Type} (g : B -> list A) (k : nat) (l : list B)
  (b0 : B) (d : A) :
  (forall b, In b l -> length (g b) = k) ->
  forall idx j, (idx < length l)%nat -> (j < k)%nat ->
  nth (idx * k + j) (flat_map g l) d = nth j (g (nth idx l b0)) d.
Proof.
  induction l as [| b l IH]; intros Hlen idx j Hidx Hj; [cbn in Hidx; lia |].
  cbn [flat_map]. destruct idx as [| idx].
  - cbn [Nat.mul Nat.add nth]. apply app_nth1. rewrite Hlen by now left. exact Hj.
  - rewrite app_nth2 by (rewrite Hlen by (now left); lia).
    rewrite Hlen by now left.
    replace (S idx * k + j - k)%nat with (idx * k + j)%nat by lia.
    cbn [nth]. apply IH.
    + intros b' Hb'. apply Hlen. now right.
    + cbn in Hidx. lia.
    + exact Hj.
Qed.

Lemma length_flat_map_blocks {A B : Type} (g : B -> list A) (k : nat) (l : list B) :
  (forall b, In b l -> length (g b) = k) ->
  length (flat_map g l) = (length l * k)%nat.
Proof.
  induction l as [| b l IH]; intros Hlen; [reflexivity |].
  cbn [flat_map length]. rewrite length_app, Hlen by now left.
  rewrite IH by (intros b' Hb'; apply Hlen; now right). lia.
Qed.

(** A buffer filled by two nested loops, rows outside: the cell of column
    [x] and row [y] is at index [y * width + x]. *)
Lemma rows_nth {A : Type} (f : Z -> Z -> A) (width height x y : Z) (d : A) :
  0 <= x < width -> 0 <= y < height ->
  nth (Z.to_nat (y * width + x))
      (flat_map (fun y => map (fun x => f x y) (range width)) (range height)) d
  = f x y.
Proof.
  intros Hx Hy.
  replace (Z.to_nat (y * width + x))
    with (Z.to_nat y * Z.to_nat width + Z.to_nat x)%nat
    by (rewrite Z2Nat.inj_add, Z2Nat.inj_mul by nia; reflexivity).
  rewrite nth_flat_map_blocks with (b0 := 0).
  - rewrite nth_range by lia.
    rewrite nth_indep with (d' := f 0 (Z.of_nat (Z.to_nat y)))
      by (rewrite length_map, range_length; lia).
    rewrite (map_nth (fun x => f x (Z.of_nat (Z.to_nat y)))).
    rewrite nth_range by lia. f_equal; lia.
  - intros b _. now rewrite length_map, range_length.
  - rewrite range_length. lia.
  - lia.
Qed.

Lemma rows_length {A : Type} (f : Z -> Z -> A) (width height : Z) :
  0 <= width -> 0 <= height ->
  length (flat_map (fun y => map (fun x => f x y) (range width)) (range height))
  = Z.to_nat (width * height).
Proof.
  intros Hw Hh.
  rewrite length_flat_map_blocks with (k := Z.to_nat width).
  - rewrite range_length, Z2Nat.inj_mul by lia. lia.
  - intros b _. now rewrite length_map, range_length.
Qed.

(** The same for pixel data, three bytes to the pixel. *)
Lemma pixels_nth (f : Z -> Z -> Z -> Z) (width height x y c : Z) :
  0 <= x < width -> 0 <= y < height -> 0 <= c < 3 ->
  nth (Z.to_nat ((y * width + x) * 3 + c))
      (flat_map (fun py =>
         flat_map (fun px => map (fun c => f px py c) (range 3)) (range width))
         (range height)) 0
  = f x y c.
Proof.
  intros Hx Hy Hc.
  replace (Z.to_nat ((y * width + x) * 3 + c))
    with (Z.to_nat y * (Z.to_nat width * 3) + (Z.to_nat x * 3 + Z.to_nat c))%nat
    by (rewrite Z2Nat.inj_add, Z2Nat.inj_mul, Z2Nat.inj_add, Z2Nat.inj_mul by nia;
        change (Z.to_nat 3) with 3%nat; lia).
  assert (Hblock : forall py b, In b (range width) ->
            length (map (fun c => f b py c) (range 3)) = 3%nat)
    by (intros; now rewrite length_map, range_length).
  rewrite nth_flat_map_blocks with (b0 := 0).
  - rewrite nth_range by lia.
    rewrite nth_flat_map_blocks with (b0 := 0).
    + rewrite nth_range by lia.
      rewrite nth_indep with (d' := f (Z.of_nat (Z.to_nat x)) (Z.of_nat (Z.to_nat y)) 0)
        by (rewrite length_map, range_length; lia).
      rewrite (map_nth (fun c => f (Z.of_nat (Z.to_nat x)) (Z.of_nat (Z.to_nat y)) c)).
      rewrite nth_range by lia. f_equal; lia.
    + apply Hblock.
    + rewrite range_length. lia.
    + lia.
  - intros py _. rewrite length_flat_map_blocks with (k := 3%nat) by apply Hblock.
    rewrite range_length. lia.
  - rewrite range_length. lia.
  - lia.
Qed.

(** Inside the region the composited image is the reconstructed content,
    outside it is the original, whatever the feather mask holds. *)
Lemma blendWithOriginal_pixel (originalImage : Sharp.Image) (inpaintedContent : Buffer)
  (region : Region) (featherMask : Buffer) (px py c : Z) :
  0 <= px < Sharp.image_width originalImage ->
  0 <= py < Sharp.image_height originalImage ->
  0 <= c < 3 ->
  Sharp.pixelAt
    (InpaintingEngine.blendWithOriginal originalImage inpaintedContent region featherMask)
    px py c
  = if EdgeFeatherer.isInsideRegion px py region
    then Sharp.pixelAt
           (Sharp.raw inpaintedContent (region_width region) (region_height region))
           (px - region_x region) (py - region_y region) c
    else Sharp.pixelAt originalImage px py c.
Proof.
  intros Hx Hy Hc.
  unfold InpaintingEngine.blendWithOriginal, Sharp.composite.
  unfold Sharp.pixelAt at 1. cbn [Sharp.image_data Sharp.image_width Sharp.image_height].
  unfold Sharp.channels. rewrite pixels_nth by assumption.
  cbn [Sharp.raw Sharp.image_width Sharp.image_height].
  unfold EdgeFeatherer.isInsideRegion. rewrite !Z.geb_leb. reflexivity.
Qed.

(** The run of the sample: a 2x1 image of value 200, the 1x1 region at the
    origin, the content (10, 20, 30) and a mask that is 0 everywhere.  The
    code returns the content in the region; the mask-weighted blend of the
    specification returns the original. *)
Lemma blendWithOriginal_on_zero_mask :
  let originalImage := Sharp.raw [200; 200; 200; 200; 200; 200] 2 1 in
  let inpaintedContent := [10; 20; 30] in
  let region := mkRegion 0 0 1 1 in
  let featherMask := [0; 0] in
  Sharp.image_data
    (InpaintingEngine.blendWithOriginal originalImage inpaintedContent region featherMask)
    = [10; 20; 30; 200; 200; 200] /\
  maskWeightedBlend originalImage inpaintedContent region featherMask
    = [200; 200; 200; 200; 200; 200].
Proof. split; reflexivity. Qed.

(** C2 fails on the code: [blendWithOriginal] does not read the feather
    mask.  For every image, content, region and mask, a byte of the output
    inside the region is the byte of the reconstructed content and a byte
    outside is the byte of the original, so the original never contributes
    inside the region and two masks always give the same image. *)
Theorem blendWithOriginal_ignores_feather_mask
  (originalImage : Sharp.Image) (inpaintedContent : Buffer) (region : Region)
  (featherMask otherMask : Buffer) (px py c : Z) :
  0 <= px < Sharp.image_width originalImage ->
  0 <= py < Sharp.image_height originalImage ->
  0 <= c < 3 ->
  InpaintingEngine.blendWithOriginal originalImage inpaintedContent region featherMask
  = InpaintingEngine.blendWithOriginal originalImage inpaintedContent region otherMask /\
  (EdgeFeatherer.isInsideRegion px py region = true ->
   Sharp.pixelAt
     (InpaintingEngine.blendWithOriginal originalImage inpaintedContent region featherMask)
     px py c
   = Sharp.pixelAt
       (Sharp.raw inpaintedContent (region_width region) (region_height region))
       (px - region_x region) (py - region_y region) c) /\
  (EdgeFeatherer.isInsideRegion px py region = false ->
   Sharp.pixelAt
     (InpaintingEngine.blendWithOriginal originalImage inpaintedContent region featherMask)
     px py c
   = Sharp.pixelAt originalImage px py c).
Proof.
  intros Hx Hy Hc. split; [reflexivity |].
  rewrite blendWithOriginal_pixel by assumption.
  split; intros ->; reflexivity.
Qed.

(** On the sample the mask is 0 at the pixel of the region and the output
    there is the content (10), not the original (200). *)
Lemma blendWithOriginal_ignores_feather_mask_witness :
  nth 0 [0; 0] 255 = 0 /\
  Sharp.pixelAt
    (InpaintingEngine.blendWithOriginal (Sharp.raw [200; 200; 200; 200; 200; 200] 2 1)
       [10; 20; 30] (mkRegion 0 0 1 1) [0; 0]) 0 0 0 = 10.
Proof.
  split; [reflexivity |].
  apply (blendWithOriginal_ignores_feather_mask
           (Sharp.raw [200; 200; 200; 200; 200; 200] 2 1) [10; 20; 30]
           (mkRegion 0 0 1 1) [0; 0] [] 0 0 0); cbn; try lia; reflexivity.
Defined.

(** *** Noise blending *)

Lemma clamp01 (blendStrength : Q) :
  (0 <= Qmax 0 (Qmin 1 blendStrength) <= 1)%Q.
Proof.
  split.
  - apply Q.le_max_l.
  - apply Q.max_lub; [discriminate | apply Q.le_min_l].
Qed.

Lemma clamp01_inside (blendStrength : Q) :
  (0 <= blendStrength <= 1)%Q -> (Qmax 0 (Qmin 1 blendStrength) == blendStrength)%Q.
Proof.
  intros [H0 H1]. rewrite Q.min_r by exact H1. now apply Q.max_r.
Qed.

Lemma isByte_Q (b : Z) : isByte b -> (0 <= inject_Z b <= 255)%Q.
Proof.
  intros [H0 H1]. split.
  - change 0%Q with (inject_Z 0). now rewrite <- Zle_Qle.
  - change 255%Q with (inject_Z 255). now rewrite <- Zle_Qle.
Qed.

(** *** Rounding to a binary format *)

Lemma roundHalfEven_between (q : Q) (a b : Z) :
  (inject_Z a <= q <= inject_Z b)%Q -> a <= Binary.roundHalfEven q <= b.
Proof.
  intros [Ha Hb]. unfold Binary.roundHalfEven. cbv zeta.
  pose proof (Qfloor_le q) as Hf. pose proof (Qlt_floor q) as Hf'.
  assert (Hlo : a <= Qfloor q).
  { apply Z.lt_succ_r. rewrite Zlt_Qlt.
    apply Qle_lt_trans with (y := q); [exact Ha |].
    replace (Z.succ (Qfloor q)) with (Qfloor q + 1) by lia. exact Hf'. }
  assert (Hhi : Qfloor q <= b).
  { rewrite Zle_Qle. apply Qle_trans with (y := q); assumption. }
  assert (Hup : ~ (q - inject_Z (Qfloor q) == 0)%Q -> Qfloor q + 1 <= b).
  { intros Hne. apply Z.lt_succ_r.
    replace (Z.succ b) with (b + 1) by lia.
    destruct (Z.eq_dec (Qfloor q) b) as [Heq | Hneq]; [| lia].
    exfalso. apply Hne. rewrite Heq in *. lra. }
  destruct (Qcompare_spec (q - inject_Z (Qfloor q)) (1 # 2)) as [E | E | E].
  - destruct (Z.even (Qfloor q)); [lia |].
    split; [lia |]. apply Hup. rewrite E. discriminate.
  - lia.
  - split; [lia |]. apply Hup. intros E0. rewrite E0 in E. discriminate.
Qed.

Lemma roundHalfEven_error (q : Q) :
  (- (1 # 2) <= inject_Z (Binary.roundHalfEven q) - q <= 1 # 2)%Q.
Proof.
  unfold Binary.roundHalfEven. cbv zeta.
  pose proof (Qfloor_le q) as Hf. pose proof (Qlt_floor q) as Hf'.
  rewrite inject_Z_plus in Hf'. change (inject_Z 1) with 1%Q in Hf'.
  destruct (Qcompare_spec (q - inject_Z (Qfloor q)) (1 # 2)) as [E | E | E].
  - destruct (Z.even (Qfloor q)); rewrite ?inject_Z_plus;
      change (inject_Z 1) with 1%Q; lra.
  - lra.
  - rewrite inject_Z_plus. change (inject_Z 1) with 1%Q. lra.
Qed.

Lemma pow2_pos (k : Z) : 0 <= k -> (0 < inject_Z (2 ^ k))%Q.
Proof.
  intros Hk. change 0%Q with (inject_Z 0). rewrite <- Zlt_Qlt.
  apply Z.pow_pos_nonneg; lia.
Qed.

(** The exponent of a number below [2^m] is below [m]. *)
Lemma exponentOf_lt (q : Q) (m : Z) :
  0 <= m -> Qnum q <> 0 -> (Qabs q < inject_Z (2 ^ m))%Q -> Binary.exponentOf q < m.
Proof.
  intros Hm Hq Hlt.
  assert (Hn : Z.abs (Qnum q) < 2 ^ m * Zpos (Qden q)).
  { destruct q as [n d]. unfold Qabs, Qlt in Hlt. cbn in Hlt |- *. lia. }
  clear Hlt. unfold Binary.exponentOf. cbv zeta.
  set (n := Z.abs (Qnum q)) in *. set (d := Zpos (Qden q)) in *.
  assert (Hn0 : 0 < n) by (subst n; lia).
  assert (Hd0 : 0 < d) by (subst d; lia).
  pose proof (Z.log2_spec n Hn0) as [Hn1 Hn2].
  pose proof (Z.log2_spec d Hd0) as [Hd1 Hd2].
  pose proof (Z.log2_nonneg n) as Hln. pose proof (Z.log2_nonneg d) as Hld.
  set (e := Z.log2 n - Z.log2 d).
  destruct (Z_lt_le_dec e m) as [He | He].
  { destruct (if 0 <=? e then (2 ^ e * d <=? n) else (d <=? n * 2 ^ (- e))); lia. }
  (* [m <= e]: the test decides between [e] and [e - 1] *)
  assert (He0 : (0 <=? e) = true) by (apply Z.leb_le; lia).
  rewrite He0.
  destruct (2 ^ e * d <=? n) eqn:E.
  - apply Z.leb_le in E. exfalso.
    assert (2 ^ m <= 2 ^ e) by (apply Z.pow_le_mono_r; lia). nia.
  - destruct (Z.eq_dec e m) as [-> | Hne]; [lia |]. exfalso.
    (* [m + 1 <= e], so [2^m * 2^(log2 d + 1) <= 2^(log2 n) <= n] *)
    assert (H1 : 2 ^ (m + Z.succ (Z.log2 d)) <= 2 ^ Z.log2 n)
      by (apply Z.pow_le_mono_r; subst e; lia).
    rewrite Z.pow_add_r in H1 by lia.
    assert (0 < 2 ^ m) by (apply Z.pow_pos_nonneg; lia).
    nia.
Qed.

(** A number below [2^m], [m <= precision], is rounded to the nearest
    multiple of [2^(-k)] for some [k >= 0], [k >= precision - 1 - m]. *)
Lemma round_fine (precision emin : Z) (q : Q) (m : Z) :
  1 <= precision -> 0 <= m <= precision -> emin <= 0 -> Qnum q <> 0 ->
  (Qabs q < inject_Z (2 ^ m))%Q ->
  exists k, 0 <= k /\ precision - 1 - m <= k /\
    Binary.round precision emin q
    = (inject_Z (Binary.roundHalfEven (q * inject_Z (2 ^ k))) / inject_Z (2 ^ k))%Q.
Proof.
  intros Hp Hm Hemin Hq Hlt. unfold Binary.round.
  replace (Qnum q =? 0) with false by (symmetry; apply Z.eqb_neq; exact Hq).
  cbv zeta.
  pose proof (exponentOf_lt q m (proj1 Hm) Hq Hlt) as He.
  exists (precision - 1 - Z.max (Binary.exponentOf q) emin).
  split; [lia |]. split; [lia |].
  replace (0 <=? _) with true by (symmetry; apply Z.leb_le; lia).
  reflexivity.
Qed.

(** Rounding keeps a number between two integers of the format. *)
Lemma round_between (precision emin : Z) (q : Q) (lo hi : Z) :
  1 <= precision -> emin <= 0 -> 0 <= lo -> hi < 2 ^ precision ->
  (inject_Z lo <= q <= inject_Z hi)%Q ->
  (inject_Z lo <= Binary.round precision emin q <= inject_Z hi)%Q.
Proof.
  intros Hp Hemin Hlo Hhi [Hq1 Hq2].
  destruct (Z.eq_dec (Qnum q) 0) as [H0 | H0].
  - unfold Binary.round. rewrite H0. cbn [Z.eqb].
    assert (E : (q == 0)%Q) by (destruct q as [n d]; cbn in H0; subst n; reflexivity).
    rewrite E in Hq1, Hq2. now split.
  - assert (Hq0 : (0 <= q)%Q).
    { apply Qle_trans with (y := inject_Z lo); [| exact Hq1].
      change 0%Q with (inject_Z 0). now rewrite <- Zle_Qle. }
    assert (Hlt : (Qabs q < inject_Z (2 ^ precision))%Q).
    { rewrite Qabs_pos by exact Hq0.
      apply Qle_lt_trans with (y := inject_Z hi); [exact Hq2 |]. now rewrite <- Zlt_Qlt. }
    destruct (round_fine precision emin q precision Hp ltac:(lia) Hemin H0 Hlt)
      as [k [Hk [_ ->]]].
    pose proof (pow2_pos k Hk) as Hpow.
    assert (Hb : lo * 2 ^ k <= Binary.roundHalfEven (q * inject_Z (2 ^ k)) <= hi * 2 ^ k).
    { apply roundHalfEven_between. rewrite !inject_Z_mult. split.
      - apply Qmult_le_compat_r; [exact Hq1 | now apply Qlt_le_weak].
      - apply Qmult_le_compat_r; [exact Hq2 | now apply Qlt_le_weak]. }
    destruct Hb as [Hb1 Hb2]. rewrite Zle_Qle in Hb1, Hb2.
    rewrite inject_Z_mult in Hb1, Hb2.
    split.
    + apply Qle_shift_div_l; assumption.
    + apply Qle_shift_div_r; assumption.
Qed.

(** An integer of the format is not changed by the rounding. *)
Lemma round_integer (precision emin z : Z) :
  1 <= precision -> emin <= 0 -> 0 <= z < 2 ^ precision ->
  (Binary.round precision emin (inject_Z z) == inject_Z z)%Q.
Proof.
  intros Hp Hemin Hz. apply Qle_antisym;
    apply (round_between precision emin (inject_Z z) z z); try lia;
    split; apply Qle_refl.
Qed.

(** The error of the rounding of a number below [2^m]. *)
Lemma round_error (precision emin : Z) (q : Q) (m : Z) :
  1 <= precision -> emin <= 0 -> 0 <= m < precision ->
  (Qabs q < inject_Z (2 ^ m))%Q ->
  (Qabs (Binary.round precision emin q - q) * inject_Z (2 ^ (precision - m)) <= 1)%Q.
Proof.
  intros Hp Hemin Hm Hlt.
  assert (Hpm : (0 < inject_Z (2 ^ (precision - m)))%Q) by (apply pow2_pos; lia).
  destruct (Z.eq_dec (Qnum q) 0) as [H0 | H0].
  - unfold Binary.round. rewrite H0. cbn [Z.eqb].
    assert (E : (q == 0)%Q) by (destruct q as [n d]; cbn in H0; subst n; reflexivity).
    rewrite E. change (Qabs (0 - 0)) with 0%Q. lra.
  - destruct (round_fine precision emin q m Hp ltac:(lia) Hemin H0 Hlt)
      as [k [Hk [Hkm ->]]].
    pose proof (pow2_pos k Hk) as Hpow.
    pose proof (roundHalfEven_error (q * inject_Z (2 ^ k))) as [He1 He2].
    set (r := inject_Z (Binary.roundHalfEven (q * inject_Z (2 ^ k)))) in *.
    (* [precision - m <= k + 1], so [2^(precision - m) <= 2 * 2^k] *)
    assert (Hle : (inject_Z (2 ^ (precision - m)) <= 2 * inject_Z (2 ^ k))%Q).
    { change 2%Q with (inject_Z 2). rewrite <- inject_Z_mult, <- Zle_Qle.
      replace (2 * 2 ^ k) with (2 ^ (k + 1)) by (rewrite Z.pow_add_r by lia; lia).
      apply Z.pow_le_mono_r; lia. }
    assert (Hd : (Qabs (r / inject_Z (2 ^ k) - q) * inject_Z (2 ^ k) <= 1 # 2)%Q).
    { setoid_replace (r / inject_Z (2 ^ k) - q)%Q
        with ((r - q * inject_Z (2 ^ k)) / inject_Z (2 ^ k))%Q
        by (field; intros Hz; rewrite Hz in Hpow; discriminate).
      unfold Qdiv. rewrite Qabs_Qmult.
      rewrite (Qabs_pos (/ inject_Z (2 ^ k))) by (apply Qlt_le_weak, Qinv_lt_0_compat, Hpow).
      rewrite <- Qmult_assoc, (Qmult_comm (/ _)), Qmult_inv_r, Qmult_1_r
        by (intros Hz; rewrite Hz in Hpow; discriminate).
      apply Qabs_Qle_condition. split; lra. }
    set (a := Qabs (r / inject_Z (2 ^ k) - q)) in *.
    assert (Ha : (0 <= a)%Q) by (subst a; apply Qabs_nonneg).
    apply Qle_trans with (y := (a * (2 * inject_Z (2 ^ k)))%Q).
    + rewrite (Qmult_comm a), (Qmult_comm a (2 * _)).
      apply Qmult_le_compat_r; assumption.
    + lra.
Qed.

(** The error of one operation on doubles below [2^m]. *)
Lemma double_error (q : Q) (m : Z) (eps : Q) :
  0 <= m < 53 -> (Qabs q < inject_Z (2 ^ m))%Q ->
  eps = (1 # Z.to_pos (2 ^ (53 - m)))%Q ->
  (- eps <= Double.round q - q <= eps)%Q.
Proof.
  intros Hm Hq ->.
  pose proof (round_error 53 (-1022) q m ltac:(lia) ltac:(lia) Hm Hq) as H.
  assert (Hpos : 0 < 2 ^ (53 - m)) by (apply Z.pow_pos_nonneg; lia).
  apply Qabs_Qle_condition.
  fold Double.round in H.
  set (a := Qabs (Double.round q - q)) in *.
  unfold Qle in *. cbn [Qnum Qden] in *.
  rewrite Z2Pos.id by exact Hpos.
  destruct a as [an ad]. cbn [Qnum Qden Qmult inject_Z] in *. lia.
Qed.

Lemma double_between (q : Q) (lo hi : Z) :
  0 <= lo -> hi < 2 ^ 53 -> (inject_Z lo <= q <= inject_Z hi)%Q ->
  (inject_Z lo <= Double.round q <= inject_Z hi)%Q.
Proof. intros Hlo Hhi. apply round_between; lia. Qed.

(** The double the code floors is not negative, lies within [2^-42] of
    the exact blend and below 256. *)
Lemma blendValue_bounds (alpha : Q) (contentValue noiseValue : Z) :
  (0 <= alpha <= 1)%Q -> isByte contentValue -> isByte noiseValue ->
  let exact := (inject_Z contentValue * (1 - alpha) + inject_Z noiseValue * alpha)%Q in
  let value := NoiseMatchingEngine.blendValue alpha contentValue noiseValue in
  (0 <= value)%Q /\ (- (1 # 4398046511104) <= value - exact <= 1 # 4398046511104)%Q /\
  (value < 256)%Q.
Proof.
  intros Ha Hc Hn exact value. subst exact value. unfold NoiseMatchingEngine.blendValue.
  unfold Double.add, Double.mul, Double.sub.
  unfold isByte in Hc, Hn.
  assert (Hc' : (0 <= inject_Z contentValue <= 255)%Q).
  { change 0%Q with (inject_Z 0). change 255%Q with (inject_Z 255).
    rewrite <- !Zle_Qle. exact Hc. }
  assert (Hn' : (0 <= inject_Z noiseValue <= 255)%Q).
  { change 0%Q with (inject_Z 0). change 255%Q with (inject_Z 255).
    rewrite <- !Zle_Qle. exact Hn. }
  set (c := inject_Z contentValue) in *. set (n := inject_Z noiseValue) in *.
  (* 1 - alpha *)
  set (s := Double.round (1 - alpha)).
  assert (Hs : (0 <= s <= 1)%Q).
  { apply (double_between (1 - alpha) 0 1); [lia | reflexivity |].
    change (inject_Z 0) with 0%Q. change (inject_Z 1) with 1%Q. lra. }
  assert (Es : (- (1 # 4503599627370496) <= s - (1 - alpha) <= 1 # 4503599627370496)%Q).
  { apply (double_error (1 - alpha) 1); [lia | | reflexivity].
    apply Qabs_Qlt_condition. change (inject_Z (2 ^ 1)) with 2%Q. lra. }
  (* the two products *)
  assert (Hcs : (0 <= c * s <= 255)%Q).
  { assert (H1 : (0 <= c * s)%Q) by (apply Qmult_le_0_compat; lra).
    assert (H2 : (0 <= c * (1 - s))%Q) by (apply Qmult_le_0_compat; lra).
    lra. }
  assert (Hna : (0 <= n * alpha <= 255)%Q).
  { assert (H1 : (0 <= n * alpha)%Q) by (apply Qmult_le_0_compat; lra).
    assert (H2 : (0 <= n * (1 - alpha))%Q) by (apply Qmult_le_0_compat; lra).
    lra. }
  set (x := Double.round (c * s)).
  assert (Hx : (0 <= x <= 255)%Q).
  { apply (double_between (c * s) 0 255); [lia | reflexivity | exact Hcs]. }
  assert (Ex : (- (1 # 35184372088832) <= x - c * s <= 1 # 35184372088832)%Q).
  { apply (double_error (c * s) 8); [lia | | reflexivity].
    apply Qabs_Qlt_condition. change (inject_Z (2 ^ 8)) with 256%Q. lra. }
  set (y := Double.round (n * alpha)).
  assert (Hy : (0 <= y <= 255)%Q).
  { apply (double_between (n * alpha) 0 255); [lia | reflexivity | exact Hna]. }
  assert (Ey : (- (1 # 35184372088832) <= y - n * alpha <= 1 # 35184372088832)%Q).
  { apply (double_error (n * alpha) 8); [lia | | reflexivity].
    apply Qabs_Qlt_condition. change (inject_Z (2 ^ 8)) with 256%Q. lra. }
  (* the sum *)
  set (d := Double.round (x + y)).
  assert (Hd : (0 <= d <= 510)%Q).
  { apply (double_between (x + y) 0 510); [lia | reflexivity |].
    change (inject_Z 0) with 0%Q. change (inject_Z 510) with 510%Q. lra. }
  assert (Ed : (- (1 # 17592186044416) <= d - (x + y) <= 1 # 17592186044416)%Q).
  { apply (double_error (x + y) 9); [lia | | reflexivity].
    apply Qabs_Qlt_condition. change (inject_Z (2 ^ 9)) with 512%Q. lra. }
  set (delta := (s - (1 - alpha))%Q) in *.
  assert (Ecs : (- (255 # 4503599627370496) <= c * delta <= 255 # 4503599627370496)%Q).
  { assert (H1 : (0 <= c * ((1 # 4503599627370496) - delta))%Q)
      by (apply Qmult_le_0_compat; lra).
    assert (H2 : (0 <= c * (delta + (1 # 4503599627370496)))%Q)
      by (apply Qmult_le_0_compat; lra).
    lra. }
  assert (Hexact : (c * (1 - alpha) + n * alpha <= 255)%Q).
  { assert (H1 : (0 <= (255 - c) * (1 - alpha))%Q) by (apply Qmult_le_0_compat; lra).
    assert (H2 : (0 <= (255 - n) * alpha)%Q) by (apply Qmult_le_0_compat; lra).
    lra. }
  assert (Esum : (c * s == c * (1 - alpha) + c * delta)%Q) by (subst delta; ring).
  split; [lra |]. split; [lra | lra].
Qed.

(** The byte is the floor of that double; the store into the [Uint8Array]
    does not wrap, and the byte is at most one away from the floor of the
    exact blend. *)
Lemma blendByte_floor (alpha : Q) (contentValue noiseValue : Z) :
  (0 <= alpha <= 1)%Q -> isByte contentValue -> isByte noiseValue ->
  let byte := NoiseMatchingEngine.blendByte alpha contentValue noiseValue in
  byte = Qfloor (NoiseMatchingEngine.blendValue alpha contentValue noiseValue) /\
  isByte byte /\
  Qfloor (inject_Z contentValue * (1 - alpha) + inject_Z noiseValue * alpha)%Q - 1
  <= byte
  <= Qfloor (inject_Z contentValue * (1 - alpha) + inject_Z noiseValue * alpha)%Q + 1.
Proof.
  intros Ha Hc Hn byte. subst byte.
  destruct (blendValue_bounds alpha contentValue noiseValue Ha Hc Hn) as [H0 [He H256]].
  cbv zeta in He.
  unfold NoiseMatchingEngine.blendByte, toUint8.
  set (value := NoiseMatchingEngine.blendValue alpha contentValue noiseValue) in *.
  set (exact := (inject_Z contentValue * (1 - alpha) + inject_Z noiseValue * alpha)%Q) in *.
  assert (Hf : 0 <= Qfloor value <= 255).
  { split.
    - change 0 with (Qfloor 0). apply Qfloor_resp_le, H0.
    - apply Z.lt_succ_r. rewrite Zlt_Qlt.
      apply Qle_lt_trans with (y := value); [apply Qfloor_le | exact H256]. }
  rewrite Z.mod_small by lia.
  split; [reflexivity |]. split; [exact Hf |].
  pose proof (Qfloor_le value) as V1. pose proof (Qlt_floor value) as V2.
  pose proof (Qfloor_le exact) as E1. pose proof (Qlt_floor exact) as E2.
  rewrite inject_Z_plus in V2, E2. change (inject_Z 1) with 1%Q in V2, E2.
  split.
  - apply Z.lt_succ_r. rewrite Zlt_Qlt.
    replace (Z.succ (Qfloor value)) with (Qfloor value + 1) by lia.
    replace (Qfloor exact - 1) with (Qfloor exact + -1) by lia.
    rewrite !inject_Z_plus. change (inject_Z 1) with 1%Q.
    change (inject_Z (-1)) with (-1 # 1)%Q. lra.
  - apply Z.lt_succ_r. rewrite Zlt_Qlt.
    replace (Z.succ (Qfloor exact + 1)) with (Qfloor exact + 1 + 1) by lia.
    rewrite !inject_Z_plus. change (inject_Z 1) with 1%Q. lra.
Qed.

(** C10, as stated, fails: the code floors a double, not the exact value
    of the formula.  At the blend strength 0.3 (the double nearest to it),
    content 0 and noise 10, the exact value of
    content * (1 - alpha) + noise * alpha is just below 3 and its floor is 2;
    the double product is 3, and the code stores 3.  (Read with the decimal
    0.3 for alpha the formula gives 10 for content 1 and noise 31, where the
    code stores 9.) *)
Lemma blendNoiseWithContent_floors_a_double :
  let blendStrength := Double.round 0.3 in
  let alpha := Qmax 0 (Qmin 1 blendStrength) in
  NoiseMatchingEngine.blendNoiseWithContent [0] [10] blendStrength = inr [3] /\
  Qfloor (inject_Z 0 * (1 - alpha) + inject_Z 10 * alpha)%Q = 2 /\
  NoiseMatchingEngine.blendNoiseWithContent [1] [31] blendStrength = inr [9] /\
  Qfloor (inject_Z 1 * (1 - 0.3) + inject_Z 31 * 0.3)%Q = 10.
Proof. vm_compute. repeat split. Qed.

(** C10 (amended): [blendNoiseWithContent] raises an error exactly when
    the two buffers differ in length; otherwise it returns a buffer of the
    length of the inputs whose byte [i] is the floor of
    content[i] * (1 - alpha) + noise[i] * alpha as JavaScript computes it
    (the difference, the products and the sum each rounded to a double),
    where alpha is the blend strength clamped into [0, 1]: a strength outside
    of [0, 1] is clamped, not rejected.  The double is within 2^-42 of the
    exact value of the formula, so the byte is at most one away from the
    floor of the exact value. *)
Theorem blendNoiseWithContent_blend (content noise : Buffer) (blendStrength : Q) :
  Forall isByte content -> Forall isByte noise ->
  let alpha := Qmax 0 (Qmin 1 blendStrength) in
  let result := NoiseMatchingEngine.blendNoiseWithContent content noise blendStrength in
  (0 <= alpha <= 1)%Q /\
  ((0 <= blendStrength <= 1)%Q -> (alpha == blendStrength)%Q) /\
  ((exists e, result = inl e) <-> length content <> length noise) /\
  (length content = length noise ->
   exists blended,
     result = inr blended /\
     length blended = length content /\
     Forall isByte blended /\
     forall i, (i < length content)%nat ->
       let contentValue := nth i content 0%Z in
       let noiseValue := nth i noise 0%Z in
       let exact :=
         (inject_Z contentValue * (1 - alpha) + inject_Z noiseValue * alpha)%Q in
       let value :=
         Double.add (Double.mul (inject_Z contentValue) (Double.sub 1 alpha))
                    (Double.mul (inject_Z noiseValue) alpha) in
       nth i blended 0 = Qfloor value /\
       (- (1 # 4398046511104) <= value - exact <= 1 # 4398046511104)%Q /\
       Qfloor exact - 1 <= nth i blended 0 <= Qfloor exact + 1).
Proof.
  intros Hc Hn alpha result. subst alpha result.
  pose proof (clamp01 blendStrength) as Ha.
  unfold NoiseMatchingEngine.blendNoiseWithContent.
  split; [exact Ha |]. split; [apply clamp01_inside |].
  destruct (Nat.eqb (length content) (length noise)) eqn:E; cbn [negb].
  - apply Nat.eqb_eq in E. split.
    + split; [intros [e He]; discriminate | intros Hne; now elim Hne].
    + intros _. eexists. split; [reflexivity |].
      assert (Hbyte : forall i, (i < length content)%nat ->
                isByte (nth i content 0) /\ isByte (nth i noise 0)).
      { intros i Hi. split.
        - apply (proj1 (Forall_nth isByte content) Hc). exact Hi.
        - apply (proj1 (Forall_nth isByte noise) Hn). lia. }
      split; [now rewrite length_map, length_seq |]. split.
      * apply Forall_forall. intros b Hb. apply in_map_iff in Hb.
        destruct Hb as [i [<- Hi]]. apply in_seq in Hi.
        destruct (Hbyte i ltac:(lia)) as [H1 H2].
        now apply blendByte_floor.
      * intros i Hi. cbv zeta.
        rewrite nth_indep with (d' := NoiseMatchingEngine.blendByte
                                       (Qmax 0 (Qmin 1 blendStrength))
                                       (nth 0 content 0) (nth 0 noise 0))
          by (now rewrite length_map, length_seq).
        rewrite (map_nth (fun i => NoiseMatchingEngine.blendByte _ (nth i content 0)
                                     (nth i noise 0))).
        rewrite seq_nth by exact Hi. cbn [Nat.add].
        destruct (Hbyte i Hi) as [H1 H2].
        destruct (blendByte_floor _ _ _ Ha H1 H2) as [Hfloor [_ Hnear]].
        split; [exact Hfloor |]. split; [| exact Hnear].
        apply (blendValue_bounds _ _ _ Ha H1 H2).
  - apply Nat.eqb_neq in E. split.
    + split; [intros _; exact E | intros _; now exists BufferLengthMismatch].
    + intros Heq. now elim E.
Qed.

Lemma blendNoiseWithContent_blend_witness :
  NoiseMatchingEngine.blendNoiseWithContent [100; 200] [200; 0] 3 = inr [200; 0] /\
  (exists e, NoiseMatchingEngine.blendNoiseWithContent [100; 200] [200] 0.3 = inl e).
Proof.
  split.
  - reflexivity.
  - apply (blendNoiseWithContent_blend [100; 200] [200] 0.3).
    + repeat constructor; unfold isByte; lia.
    + repeat constructor; unfold isByte; lia.
    + cbn. lia.
Defined.

(** *** Texture synthesis and the random draws *)

(** X30: the swatch of [generateTextureSynthesis] depends on what
    [Math.random] returns: for one and the same descriptor (mean colour
    (128,128,128), a texture influence of 0.5) the swatch of a call whose
    draws are all 0 starts with the byte 64 and the swatch of a call whose
    draws are all 0.5 with the byte 127, so the two swatches differ. *)
Lemma generateTextureSynthesis_depends_on_draws :
  fst (TextureAnalyzer.generateTextureSynthesis Sample.descriptor Sample.drawsZero)
  <> fst (TextureAnalyzer.generateTextureSynthesis Sample.descriptor Sample.drawsHalf).
Proof.
  intros H. apply (f_equal (fun swatch => nth 0 swatch 0)) in H.
  vm_compute in H. discriminate H.
Qed.

Lemma synthesizePixel_draws (descriptor : TextureAnalyzer.TextureDescriptor)
  (x y : Z) (g : Rng) :
  TextureAnalyzer.synthesizePixel descriptor x y g =
  (let t := TextureAnalyzer.getTextureInfluence x y descriptor in
   let mean := TextureAnalyzer.colorDistribution_mean descriptor in
   [ TextureAnalyzer.synthesizeChannel (TextureAnalyzer.mean_r mean)
       (draws g (consumed g) * 255)%Q t;
     TextureAnalyzer.synthesizeChannel (TextureAnalyzer.mean_g mean)
       (draws g (S (consumed g)) * 255)%Q t;
     TextureAnalyzer.synthesizeChannel (TextureAnalyzer.mean_b mean)
       (draws g (S (S (consumed g))) * 255)%Q t ],
   {| draws := draws g; consumed := S (S (S (consumed g))) |}).
Proof. reflexivity. Qed.

Lemma synthesizeLoop_agree (descriptor : TextureAnalyzer.TextureDescriptor)
  (coords : list (Z * Z)) :
  forall (acc : Buffer) (g1 g2 : Rng),
    (forall i, (i < 3 * length coords)%nat ->
       draws g1 (consumed g1 + i) = draws g2 (consumed g2 + i)) ->
    let run g := fold_left
                   (fun (acc : Buffer * Rng) (xy : Z * Z) =>
                      let (pixels, g') :=
                        TextureAnalyzer.synthesizePixel descriptor (fst xy) (snd xy)
                          (snd acc) in
                      (fst acc ++ pixels, g'))
                   coords (acc, g) in
    fst (run g1) = fst (run g2) /\
    consumed (snd (run g1)) = (consumed g1 + 3 * length coords)%nat /\
    length (fst (run g1)) = (length acc + 3 * length coords)%nat.
Proof.
  induction coords as [| xy coords IH]; intros acc g1 g2 Hagree run; subst run.
  - cbn. repeat split; lia.
  - cbn [fold_left snd fst].
    pose proof (Hagree 0%nat ltac:(cbn [length]; lia)) as H0.
    pose proof (Hagree 1%nat ltac:(cbn [length]; lia)) as H1.
    pose proof (Hagree 2%nat ltac:(cbn [length]; lia)) as H2.
    rewrite !Nat.add_0_r in H0.
    replace (consumed g1 + 1)%nat with (S (consumed g1)) in H1 by lia.
    replace (consumed g2 + 1)%nat with (S (consumed g2)) in H1 by lia.
    replace (consumed g1 + 2)%nat with (S (S (consumed g1))) in H2 by lia.
    replace (consumed g2 + 2)%nat with (S (S (consumed g2))) in H2 by lia.
    destruct (TextureAnalyzer.synthesizePixel descriptor (fst xy) (snd xy) g1)
      as [pixels1 g1'] eqn:E1.
    destruct (TextureAnalyzer.synthesizePixel descriptor (fst xy) (snd xy) g2)
      as [pixels2 g2'] eqn:E2.
    rewrite synthesizePixel_draws in E1, E2. cbv zeta in E1, E2.
    rewrite H0, H1, H2 in E1.
    injection E1 as <- <-. injection E2 as <- <-.
    match goal with
    | |- context [fold_left _ coords (?acc', ?g)] =>
        specialize (IH acc' {| draws := draws g1; consumed := S (S (S (consumed g1))) |}
                       {| draws := draws g2; consumed := S (S (S (consumed g2))) |})
    end.
    cbn [draws consumed] in IH. cbv zeta in IH.
    destruct IH as [IH1 [IH2 IH3]].
    + intros i Hi.
      replace (S (S (S (consumed g1))) + i)%nat with (consumed g1 + (3 + i))%nat by lia.
      replace (S (S (S (consumed g2))) + i)%nat with (consumed g2 + (3 + i))%nat by lia.
      apply Hagree. cbn [length]. lia.
    + repeat split.
      * exact IH1.
      * etransitivity; [apply IH2 | cbn [length]; lia].
      * etransitivity; [apply IH3 | rewrite length_app; cbn [length]; lia].
Qed.

(** X29: [generateTextureSynthesis] draws 3 * 64 * 64 numbers from
    [Math.random] and returns a swatch of 3 * 64 * 64 bytes that is a
    function of the descriptor and of these draws: two calls on the same
    descriptor that see the same 12288 draws return identical buffers. *)
Theorem generateTextureSynthesis_determined_by_draws
  (descriptor : TextureAnalyzer.TextureDescriptor) (g1 g2 : Rng) :
  (forall i, (i < 3 * (64 * 64))%nat -> draws g1 (consumed g1 + i) = draws g2 (consumed g2 + i)) ->
  fst (TextureAnalyzer.generateTextureSynthesis descriptor g1)
  = fst (TextureAnalyzer.generateTextureSynthesis descriptor g2) /\
  consumed (snd (TextureAnalyzer.generateTextureSynthesis descriptor g1))
  = (consumed g1 + 3 * (64 * 64))%nat /\
  length (fst (TextureAnalyzer.generateTextureSynthesis descriptor g1)) = (3 * (64 * 64))%nat.
Proof.
  intros Hagree.
  unfold TextureAnalyzer.generateTextureSynthesis, TextureAnalyzer.synthesizeLoop.
  set (coords := flat_map _ _).
  assert (Hlen : length coords = (64 * 64)%nat) by (subst coords; vm_compute; reflexivity).
  pose proof (synthesizeLoop_agree descriptor coords [] g1 g2) as H.
  cbv zeta in H. rewrite Hlen in H. exact (H Hagree).
Qed.

Lemma generateTextureSynthesis_determined_by_draws_witness :
  fst (TextureAnalyzer.generateTextureSynthesis Sample.descriptor Sample.drawsHalf)
  = fst (TextureAnalyzer.generateTextureSynthesis Sample.descriptor
           (mkRng (fun i => if Nat.ltb i (4 * (64 * 64)) then 0.5%Q else 0%Q) 0)).
Proof.
  apply (generateTextureSynthesis_determined_by_draws Sample.descriptor Sample.drawsHalf
           (mkRng (fun i => if Nat.ltb i (4 * (64 * 64)) then 0.5%Q else 0%Q) 0)).
  intros i Hi. cbn [draws consumed Sample.drawsHalf Nat.add].
  replace (Nat.ltb i (4 * (64 * 64))) with true by (symmetry; apply Nat.ltb_lt; lia).
  reflexivity.
Defined.

(** *** Quality metrics: sums *)

Lemma fold_left_add_acc (l : list Z) (acc : Z) :
  fold_left Z.add l acc = acc + fold_left Z.add l 0.
Proof.
  revert acc. induction l as [| a l IH]; intros acc; cbn; [lia |].
  rewrite (IH (acc + a)), (IH a). lia.
Qed.

Lemma sumZ_cons (a : Z) (l : list Z) :
  InpaintingEngine.sumZ (a :: l) = a + InpaintingEngine.sumZ l.
Proof.
  unfold InpaintingEngine.sumZ. cbn. now rewrite fold_left_add_acc.
Qed.

Lemma sumZ_nil : InpaintingEngine.sumZ [] = 0.
Proof. reflexivity. Qed.

Lemma sumZ_bounds (lo hi : Z) (l : list Z) :
  Forall (fun a => lo <= a <= hi) l ->
  lo * Z.of_nat (length l) <= InpaintingEngine.sumZ l <= hi * Z.of_nat (length l).
Proof.
  induction l as [| a l IH]; intros H; [unfold InpaintingEngine.sumZ; cbn; lia |].
  inversion H as [| ? ? Ha Hl]; subst.
  rewrite sumZ_cons. cbn [length]. specialize (IH Hl). lia.
Qed.

Lemma sumZ_nonneg (l : list Z) :
  Forall (fun a => 0 <= a) l -> 0 <= InpaintingEngine.sumZ l.
Proof.
  induction l as [| a l IH]; intros H; [unfold InpaintingEngine.sumZ; cbn; lia |].
  inversion H as [| ? ? Ha Hl]; subst.
  rewrite sumZ_cons. specialize (IH Hl). lia.
Qed.

(** The sum of the squared distances to [d]. *)
Lemma sumZ_shifted_squares (l : list Z) (d : Z) :
  InpaintingEngine.sumZ (map (fun a => (d - a) * (d - a)) l)
  = Z.of_nat (length l) * d * d - 2 * d * InpaintingEngine.sumZ l
    + InpaintingEngine.sumZ (map (fun a => a * a) l).
Proof.
  induction l as [| a l IH]; [unfold InpaintingEngine.sumZ; cbn; lia |].
  cbn [map length]. rewrite !sumZ_cons, IH, Nat2Z.inj_succ. ring.
Qed.

(** The variance of a list is not negative:
    (sum a)^2 <= n * (sum a^2). *)
Lemma square_of_sum_le (l : list Z) :
  InpaintingEngine.sumZ l * InpaintingEngine.sumZ l
  <= Z.of_nat (length l) * InpaintingEngine.sumZ (map (fun a => a * a) l).
Proof.
  induction l as [| a l IH]; [unfold InpaintingEngine.sumZ; cbn; lia |].
  cbn [map length]. rewrite !sumZ_cons.
  pose proof (sumZ_shifted_squares l a) as Hs.
  assert (Hpos : 0 <= InpaintingEngine.sumZ (map (fun b => (a - b) * (a - b)) l)).
  { apply sumZ_nonneg, Forall_forall. intros v Hv.
    apply in_map_iff in Hv. destruct Hv as [b [<- _]]. apply Z.square_nonneg. }
  rewrite Nat2Z.inj_succ. nia.
Qed.

Lemma sums_of_pairs (w1 w2 : list Z) :
  length w1 = length w2 ->
  let pairs := combine w1 w2 in
  let product := InpaintingEngine.sumZ (map (fun ab : Z * Z => fst ab * snd ab) pairs) in
  let squares1 := InpaintingEngine.sumZ (map (fun a => a * a) w1) in
  let squares2 := InpaintingEngine.sumZ (map (fun b => b * b) w2) in
  length pairs = length w1 /\
  InpaintingEngine.sumZ (map (fun ab : Z * Z => fst ab - snd ab) pairs)
    = InpaintingEngine.sumZ w1 - InpaintingEngine.sumZ w2 /\
  InpaintingEngine.sumZ (map (fun ab : Z * Z => fst ab + snd ab) pairs)
    = InpaintingEngine.sumZ w1 + InpaintingEngine.sumZ w2 /\
  InpaintingEngine.sumZ
    (map (fun ab : Z * Z => (fst ab - snd ab) * (fst ab - snd ab)) pairs)
    = squares1 - 2 * product + squares2 /\
  InpaintingEngine.sumZ
    (map (fun ab : Z * Z => (fst ab + snd ab) * (fst ab + snd ab)) pairs)
    = squares1 + 2 * product + squares2.
Proof.
  revert w2. induction w1 as [| a w1 IH]; intros [| b w2] Hlen; try discriminate.
  - cbn. unfold InpaintingEngine.sumZ. cbn. repeat split.
  - cbv zeta. cbn [combine map length fst snd]. rewrite !sumZ_cons.
    specialize (IH w2 ltac:(now inversion Hlen)). cbv zeta in IH.
    destruct IH as [H0 [H1 [H2 [H3 H4]]]].
    rewrite H0, H1, H2, H3, H4. repeat split; ring.
Qed.

(** The two inequalities between the sums of two windows of the same
    length that bound the covariance by the variances. *)
Lemma covariance_sums (w1 w2 : list Z) :
  length w1 = length w2 ->
  let n := Z.of_nat (length w1) in
  let sum1 := InpaintingEngine.sumZ w1 in
  let sum2 := InpaintingEngine.sumZ w2 in
  let sum1Sq := InpaintingEngine.sumZ (map (fun a => a * a) w1) in
  let sum2Sq := InpaintingEngine.sumZ (map (fun b => b * b) w2) in
  let sumProduct :=
    InpaintingEngine.sumZ (map (fun ab : Z * Z => fst ab * snd ab) (combine w1 w2)) in
  sum1 * sum1 <= n * sum1Sq /\
  sum2 * sum2 <= n * sum2Sq /\
  (sum1 - sum2) * (sum1 - sum2) <= n * (sum1Sq - 2 * sumProduct + sum2Sq) /\
  (sum1 + sum2) * (sum1 + sum2) <= n * (sum1Sq + 2 * sumProduct + sum2Sq).
Proof.
  intros Hlen. cbv zeta.
  pose proof (sums_of_pairs w1 w2 Hlen) as Hp. cbv zeta in Hp.
  destruct Hp as [H0 [H1 [H2 [H3 H4]]]].
  split; [apply square_of_sum_le |].
  split; [rewrite Hlen; apply square_of_sum_le |].
  split.
  - pose proof (square_of_sum_le
                  (map (fun ab : Z * Z => fst ab - snd ab) (combine w1 w2))) as H.
    rewrite map_map, length_map, H0, H1, H3 in H. exact H.
  - pose proof (square_of_sum_le
                  (map (fun ab : Z * Z => fst ab + snd ab) (combine w1 w2))) as H.
    rewrite map_map, length_map, H0, H2, H4 in H. exact H.
Qed.

Lemma inject_Z_sub (x y : Z) : inject_Z (x - y) = (inject_Z x - inject_Z y)%Q.
Proof.
  unfold Qminus. rewrite <- inject_Z_opp, <- inject_Z_plus. f_equal.
Qed.

Lemma Qsquare_nonneg (x : Q) : (0 <= x * x)%Q.
Proof.
  destruct (Qlt_le_dec x 0) as [H | H]; nra.
Qed.

(** The ratio of the structural similarity lies in [-1, 1] as soon as the
    two constants are positive, the variances are not negative and the
    covariance is bounded by their mean. *)
Lemma ssim_ratio_bounds (mu1 mu2 sigma1Sq sigma2Sq sigma12 c1 c2 : Q) :
  (0 < c1 -> 0 < c2 -> 0 <= sigma1Sq -> 0 <= sigma2Sq ->
   - (sigma1Sq + sigma2Sq) <= 2 * sigma12 -> 2 * sigma12 <= sigma1Sq + sigma2Sq ->
   -1 <= ((2 * mu1 * mu2 + c1) * (2 * sigma12 + c2))
         / ((mu1 * mu1 + mu2 * mu2 + c1) * (sigma1Sq + sigma2Sq + c2)) <= 1)%Q.
Proof.
  intros Hc1 Hc2 Hs1 Hs2 Hlo Hhi.
  pose proof (Qsquare_nonneg mu1) as Hm1.
  pose proof (Qsquare_nonneg mu2) as Hm2.
  pose proof (Qsquare_nonneg (mu1 - mu2)) as Hm3.
  pose proof (Qsquare_nonneg (mu1 + mu2)) as Hm4.
  assert (HB : (0 < mu1 * mu1 + mu2 * mu2 + c1)%Q) by lra.
  assert (HD : (0 < sigma1Sq + sigma2Sq + c2)%Q) by lra.
  assert (HBD : (0 < (mu1 * mu1 + mu2 * mu2 + c1) * (sigma1Sq + sigma2Sq + c2))%Q)
    by nra.
  assert (HA1 : (2 * mu1 * mu2 + c1 <= mu1 * mu1 + mu2 * mu2 + c1)%Q) by nra.
  assert (HA2 : (- (mu1 * mu1 + mu2 * mu2 + c1) <= 2 * mu1 * mu2 + c1)%Q) by nra.
  assert (HC1 : (2 * sigma12 + c2 <= sigma1Sq + sigma2Sq + c2)%Q) by lra.
  assert (HC2 : (- (sigma1Sq + sigma2Sq + c2) <= 2 * sigma12 + c2)%Q) by lra.
  split.
  - apply Qle_shift_div_l; [exact HBD |]. nra.
  - apply Qle_shift_div_r; [exact HBD |]. nra.
Qed.

Lemma variance_of_sums (S SS N : Q) :
  (0 < N -> S * S <= N * SS -> 0 <= SS / N - (S / N) * (S / N))%Q.
Proof.
  intros HN H.
  setoid_replace (SS / N - (S / N) * (S / N))%Q with ((N * SS - S * S) / (N * N))%Q
    by (field; lra).
  apply Qle_shift_div_l; nra.
Qed.

Lemma covariance_of_sums (S1 S2 SS1 SS2 P N : Q) :
  (0 < N ->
   (S1 - S2) * (S1 - S2) <= N * (SS1 - 2 * P + SS2) ->
   (S1 + S2) * (S1 + S2) <= N * (SS1 + 2 * P + SS2) ->
   let sigma1Sq := SS1 / N - (S1 / N) * (S1 / N) in
   let sigma2Sq := SS2 / N - (S2 / N) * (S2 / N) in
   let sigma12 := P / N - (S1 / N) * (S2 / N) in
   - (sigma1Sq + sigma2Sq) <= 2 * sigma12 /\ 2 * sigma12 <= sigma1Sq + sigma2Sq)%Q.
Proof.
  intros HN Hminus Hplus sigma1Sq sigma2Sq sigma12.
  assert (Elo : (sigma1Sq + sigma2Sq + 2 * sigma12
                 == (N * (SS1 + 2 * P + SS2) - (S1 + S2) * (S1 + S2)) / (N * N))%Q)
    by (subst sigma1Sq sigma2Sq sigma12; field; lra).
  assert (Ehi : (sigma1Sq + sigma2Sq - 2 * sigma12
                 == (N * (SS1 - 2 * P + SS2) - (S1 - S2) * (S1 - S2)) / (N * N))%Q)
    by (subst sigma1Sq sigma2Sq sigma12; field; lra).
  assert (Hlo : (0 <= (N * (SS1 + 2 * P + SS2) - (S1 + S2) * (S1 + S2)) / (N * N))%Q)
    by (apply Qle_shift_div_l; nra).
  assert (Hhi : (0 <= (N * (SS1 - 2 * P + SS2) - (S1 - S2) * (S1 - S2)) / (N * N))%Q)
    by (apply Qle_shift_div_l; nra).
  rewrite <- Elo in Hlo. rewrite <- Ehi in Hhi.
  clearbody sigma1Sq sigma2Sq sigma12. split; lra.
Qed.

Lemma windowSSIM_bounds (window1 window2 : list Z) :
  length window1 = length window2 -> (0 < length window1)%nat ->
  (-1 <= InpaintingEngine.windowSSIM window1 window2 0.01 0.03 255 <= 1)%Q.
Proof.
  intros Hlen Hpos.
  pose proof (covariance_sums window1 window2 Hlen) as H. cbv zeta in H.
  destruct H as [H1 [H2 [H3 H4]]].
  unfold InpaintingEngine.windowSSIM.
  set (n := inject_Z (Z.of_nat (length window1))).
  set (sum1 := inject_Z (InpaintingEngine.sumZ window1)).
  set (sum2 := inject_Z (InpaintingEngine.sumZ window2)).
  set (sum1Sq := inject_Z (InpaintingEngine.sumZ (map (fun a => a * a) window1))).
  set (sum2Sq := inject_Z (InpaintingEngine.sumZ (map (fun b => b * b) window2))).
  set (sumProduct := inject_Z (InpaintingEngine.sumZ
                                 (map (fun ab : Z * Z => fst ab * snd ab)
                                      (combine window1 window2)))).
  assert (Hn : (0 < n)%Q).
  { subst n. change 0%Q with (inject_Z 0). rewrite <- Zlt_Qlt. lia. }
  assert (Q1 : (sum1 * sum1 <= n * sum1Sq)%Q).
  { subst sum1 n sum1Sq. rewrite <- !inject_Z_mult, <- Zle_Qle. exact H1. }
  assert (Q2 : (sum2 * sum2 <= n * sum2Sq)%Q).
  { subst sum2 n sum2Sq. rewrite <- !inject_Z_mult, <- Zle_Qle. exact H2. }
  assert (Q3 : ((sum1 - sum2) * (sum1 - sum2)
                <= n * (sum1Sq - 2 * sumProduct + sum2Sq))%Q).
  { subst sum1 sum2 n sum1Sq sum2Sq sumProduct.
    rewrite Zle_Qle in H3.
    rewrite !inject_Z_mult, !inject_Z_plus, !inject_Z_sub, !inject_Z_mult in H3.
    exact H3. }
  assert (Q4 : ((sum1 + sum2) * (sum1 + sum2)
                <= n * (sum1Sq + 2 * sumProduct + sum2Sq))%Q).
  { subst sum1 sum2 n sum1Sq sum2Sq sumProduct.
    rewrite Zle_Qle in H4.
    rewrite !inject_Z_mult, !inject_Z_plus, !inject_Z_mult in H4. exact H4. }
  pose proof (covariance_of_sums sum1 sum2 sum1Sq sum2Sq sumProduct n Hn Q3 Q4) as Hcov.
  cbv zeta in Hcov. destruct Hcov as [Hlo Hhi].
  apply ssim_ratio_bounds.
  - reflexivity.
  - reflexivity.
  - apply variance_of_sums; assumption.
  - apply variance_of_sums; assumption.
  - exact Hlo.
  - exact Hhi.
Qed.

(** *** Quality metrics: windows and rounding *)

Lemma in_steps (limit step v : Z) :
  0 < step -> In v (InpaintingEngine.steps limit step) -> 0 <= v <= limit.
Proof.
  intros Hstep Hv. unfold InpaintingEngine.steps in Hv.
  apply in_map_iff in Hv. destruct Hv as [k [<- Hk]]. apply in_range in Hk.
  pose proof (Z.mul_div_le limit step Hstep). nia.
Qed.

Lemma readAt_defined (buffer : Buffer) (i : Z) :
  0 <= i < Z.of_nat (length buffer) -> exists a, readAt buffer i = Some a.
Proof.
  intros Hi. unfold readAt.
  replace (i <? 0) with false by (symmetry; apply Z.ltb_ge; lia).
  destruct (nth_error buffer (Z.to_nat i)) as [a |] eqn:E; [now exists a |].
  apply nth_error_None in E. lia.
Qed.

Lemma definedValues_all (window : list (option Z)) :
  Forall (fun v => exists a, v = Some a) window ->
  exists w, InpaintingEngine.definedValues window = Some w /\ length w = length window.
Proof.
  induction window as [| v window IH]; intros H.
  - exists []. split; reflexivity.
  - inversion H as [| ? ? [a ->] Hrest]; subst.
    destruct (IH Hrest) as [w [Hw Hlen]].
    exists (a :: w). cbn [InpaintingEngine.definedValues fold_right].
    fold (InpaintingEngine.definedValues window). rewrite Hw.
    split; [reflexivity | cbn; now rewrite Hlen].
Qed.

(** A window that lies inside the image is read inside the buffer when
    the buffer holds a byte for every pixel. *)
Lemma extractWindow_defined (buffer : Buffer) (width x y : Z) :
  0 <= x -> 0 <= y -> x + 11 <= width ->
  (y + 11) * width <= Z.of_nat (length buffer) ->
  exists w,
    InpaintingEngine.definedValues (InpaintingEngine.extractWindow buffer width x y 11)
    = Some w /\ length w = 121%nat.
Proof.
  intros Hx Hy Hw Hlen.
  destruct (definedValues_all (InpaintingEngine.extractWindow buffer width x y 11))
    as [w [Hdef Hl]].
  - apply Forall_forall. intros v Hv. unfold InpaintingEngine.extractWindow in Hv.
    apply in_flat_map in Hv. destruct Hv as [wy [Hwy Hv]].
    apply in_map_iff in Hv. destruct Hv as [wx [<- Hwx]].
    apply in_range in Hwy, Hwx. apply readAt_defined. nia.
  - exists w. split; [exact Hdef |]. rewrite Hl.
    unfold InpaintingEngine.extractWindow.
    rewrite (rows_length (fun wx wy => readAt buffer ((y + wy) * width + (x + wx))))
      by lia.
    reflexivity.
Qed.

Lemma fold_addNum_bounds (values : list (option Q)) :
  Forall (fun v => exists q, v = Some q /\ (-1 <= q <= 1)%Q) values ->
  forall acc : Q,
  exists total,
    fold_left InpaintingEngine.addNum values (Some acc) = Some total /\
    (acc - inject_Z (Z.of_nat (length values)) <= total
     <= acc + inject_Z (Z.of_nat (length values)))%Q.
Proof.
  induction values as [| v values IH]; intros H acc.
  - exists acc. split; [reflexivity |].
    change (inject_Z (Z.of_nat (@length (option Q) []))) with 0%Q. lra.
  - inversion H as [| ? ? [q [-> Hq]] Hrest]; subst.
    destruct (IH Hrest (acc + q)%Q) as [total [Ht Hb]].
    exists total. split; [exact Ht |].
    cbn [length]. rewrite Nat2Z.inj_succ. unfold Z.succ. rewrite inject_Z_plus.
    change (inject_Z 1) with 1%Q. lra.
Qed.

Lemma computeSSIM_bounds (original processed : Buffer) (width height : Z) :
  width * height <= Z.of_nat (length original) ->
  width * height <= Z.of_nat (length processed) ->
  exists s,
    InpaintingEngine.computeSSIM original processed width height = Some s /\
    (-1 <= s <= 1)%Q.
Proof.
  intros Ho Hp. unfold InpaintingEngine.computeSSIM. cbv zeta.
  set (values := flat_map _ _).
  assert (Hvalues : Forall (fun v => exists q, v = Some q /\ (-1 <= q <= 1)%Q) values).
  { subst values. apply Forall_forall. intros v Hv.
    apply in_flat_map in Hv. destruct Hv as [y [Hy Hv]].
    apply in_map_iff in Hv. destruct Hv as [x [<- Hx]].
    apply in_steps in Hy; [| lia]. apply in_steps in Hx; [| lia].
    destruct (extractWindow_defined original width x y) as [w1 [E1 L1]]; try nia.
    destruct (extractWindow_defined processed width x y) as [w2 [E2 L2]]; try nia.
    unfold InpaintingEngine.computeWindowSSIM. rewrite E1, E2.
    eexists. split; [reflexivity |].
    apply windowSSIM_bounds; lia. }
  destruct (fold_addNum_bounds values Hvalues 0) as [total [Ht Hb]].
  rewrite Ht.
  destruct (0 <? Z.of_nat (length values)) eqn:E.
  - apply Z.ltb_lt in E. cbn [option_map]. eexists. split; [reflexivity |].
    assert (Hc : (0 < inject_Z (Z.of_nat (length values)))%Q)
      by (change 0%Q with (inject_Z 0); now rewrite <- Zlt_Qlt).
    split.
    + apply Qle_shift_div_l; [exact Hc | lra].
    + apply Qle_shift_div_r; [exact Hc | lra].
  - exists 1%Q. split; [reflexivity |]. split; discriminate.
Qed.

(** [Math.round] of a number between two integers lies between them. *)
Lemma Qround_bounds (q : Q) (lo hi : Z) :
  (inject_Z lo <= q <= inject_Z hi)%Q -> lo <= Qround q <= hi.
Proof.
  intros [Hlo Hhi]. unfold Qround. split.
  - rewrite <- (Qfloor_Z lo). apply Qfloor_resp_le. lra.
  - pose proof (Qfloor_le (q + (1 # 2))) as Hf.
    assert (H : (inject_Z (Qfloor (q + (1 # 2))) <= inject_Z hi + (1 # 2))%Q) by lra.
    set (z := Qfloor (q + (1 # 2))) in *. clearbody z.
    unfold Qle in H. cbn in H. lia.
Qed.

(** [Math.round(v * 1000) / 1000] keeps a value between two integers. *)
Lemma round_milli_bounds (v : Q) (lo hi : Z) :
  (inject_Z lo <= v <= inject_Z hi)%Q ->
  (inject_Z lo <= inject_Z (Qround (v * 1000)) / 1000 <= inject_Z hi)%Q.
Proof.
  intros Hv.
  assert (Hr : lo * 1000 <= Qround (v * 1000) <= hi * 1000).
  { apply Qround_bounds. rewrite !inject_Z_mult. change (inject_Z 1000) with 1000%Q. lra. }
  destruct Hr as [H1 H2]. rewrite Zle_Qle in H1, H2.
  rewrite inject_Z_mult in H1, H2. change (inject_Z 1000) with 1000%Q in H1, H2.
  split.
  - apply Qle_shift_div_l; [reflexivity | exact H1].
  - apply Qle_shift_div_r; [reflexivity | exact H2].
Qed.

(** *** Quality metrics: PSNR and artifact level *)

Lemma squaredError_bounds (original processed : Buffer) :
  Forall isByte original -> Forall isByte processed ->
  0 <= InpaintingEngine.squaredError original processed
    <= 65025 * Z.min (Z.of_nat (length original)) (Z.of_nat (length processed)).
Proof.
  intros Ho Hp. unfold InpaintingEngine.squaredError.
  pose proof (sumZ_bounds 0 65025
                (map (fun op : Z * Z => let diff := fst op - snd op in diff * diff)
                     (combine original processed))) as H.
  rewrite length_map, length_combine in H.
  rewrite Nat2Z.inj_min in H. apply H.
  apply Forall_forall. intros v Hv. apply in_map_iff in Hv.
  destruct Hv as [[a b] [<- Hab]]. cbn [fst snd].
  pose proof (proj1 (Forall_forall isByte original) Ho a (in_combine_l _ _ _ _ Hab)) as Ha.
  pose proof (proj1 (Forall_forall isByte processed) Hp b (in_combine_r _ _ _ _ Hab)) as Hb.
  unfold isByte in Ha, Hb. cbv beta zeta.
  clear H Hab Ho Hp.
  assert (Hd : 0 <= (255 - (a - b)) * (255 + (a - b)))
    by (apply Z.mul_nonneg_nonneg; lia).
  pose proof (Z.square_nonneg (a - b)). nia.
Qed.

Lemma meanSquaredError_le (original processed : Buffer) :
  Forall isByte original -> Forall isByte processed ->
  (InpaintingEngine.meanSquaredError original processed <= 255 * 255)%Q.
Proof.
  intros Ho Hp. unfold InpaintingEngine.meanSquaredError.
  pose proof (squaredError_bounds original processed Ho Hp) as [H0 H1].
  set (se := InpaintingEngine.squaredError original processed) in *.
  set (len := Z.min (Z.of_nat (length original)) (Z.of_nat (length processed))) in *.
  destruct (Z.eq_dec len 0) as [E | E].
  - rewrite E. unfold Qdiv, Qinv. cbn. rewrite Qmult_0_r. discriminate.
  - assert (Hlen : 0 < len) by (subst len; lia).
    apply Qle_shift_div_r.
    + change 0%Q with (inject_Z 0). now rewrite <- Zlt_Qlt.
    + change (255 * 255)%Q with (inject_Z 65025).
      rewrite <- inject_Z_mult, <- Zle_Qle. exact H1.
Qed.

Lemma Q2R_one : Q2R 1 = 1%R.
Proof. unfold Q2R. cbn. lra. Qed.

Lemma log10_nonneg (r : R) : (1 <= r)%R -> (0 <= log10 r)%R.
Proof.
  intros Hr. unfold log10.
  assert (H10 : (0 < ln 10)%R).
  { rewrite <- ln_1. apply ln_increasing; lra. }
  assert (Hln : (0 <= ln r)%R).
  { destruct Hr as [Hr | <-]; [| rewrite ln_1; lra].
    left. rewrite <- ln_1. apply ln_increasing; lra. }
  unfold Rdiv. apply Rmult_le_pos; [exact Hln |].
  left. now apply Rinv_0_lt_compat.
Qed.

Lemma computePSNR_nonneg (original processed : Buffer) :
  Forall isByte original -> Forall isByte processed ->
  (0 <= InpaintingEngine.computePSNR original processed)%R.
Proof.
  intros Ho Hp. unfold InpaintingEngine.computePSNR. cbv zeta.
  pose proof (meanSquaredError_le original processed Ho Hp) as Hle.
  destruct (Qgtb (InpaintingEngine.meanSquaredError original processed) 0) eqn:E;
    [| lra].
  apply Qgtb_gt in E.
  set (mse := InpaintingEngine.meanSquaredError original processed) in *.
  assert (Hratio : (1 <= 255 * 255 / mse)%Q).
  { apply Qle_shift_div_l; [exact E | lra]. }
  apply Qle_Rle in Hratio. rewrite Q2R_one in Hratio.
  pose proof (log10_nonneg _ Hratio). lra.
Qed.

Lemma Rround_nonneg (r : R) : (0 <= r)%R -> 0 <= Rround r.
Proof.
  intros Hr. unfold Rround. apply Zfloor_lub. lra.
Qed.

Lemma rangeFrom_length (lo hi : Z) : length (rangeFrom lo hi) = Z.to_nat (hi - lo).
Proof. unfold rangeFrom. now rewrite length_map, range_length. Qed.

(** A loop that adds between 0 and [K] in each round adds between 0 and
    [K] times the number of rounds. *)
Lemma fold_left_increments {B : Type} (g : Z -> B -> Z) (K : Z) (l : list B) :
  (forall s b, In b l -> s <= g s b <= s + K) ->
  forall s0, s0 <= fold_left g l s0 <= s0 + K * Z.of_nat (length l).
Proof.
  induction l as [| b l IH]; intros Hg s0; [cbn; lia |].
  cbn [fold_left length].
  pose proof (Hg s0 b (or_introl eq_refl)) as Hb.
  specialize (IH (fun s b' Hb' => Hg s b' (or_intror Hb')) (g s0 b)).
  rewrite Nat2Z.inj_succ. nia.
Qed.

Lemma artifactAt_bounds (processed : Buffer) (width x y c : Z) :
  0 <= InpaintingEngine.artifactAt processed width x y c <= 1.
Proof.
  unfold InpaintingEngine.artifactAt. cbv zeta.
  destruct (_ || _); lia.
Qed.

Lemma artifactScore_bounds (processed : Buffer) (region : Region) (width : Z) :
  1 <= region_width region -> 1 <= region_height region ->
  0 <= InpaintingEngine.artifactScore processed region width
    <= 3 * (region_width region - 1) * (region_height region - 1).
Proof.
  intros Hw Hh. unfold InpaintingEngine.artifactScore.
  pose proof (fold_left_increments
    (fun score y =>
       fold_left (fun score x =>
         fold_left (fun score c => score + InpaintingEngine.artifactAt processed width x y c)
                   (range 3) score)
         (rangeFrom (region_x region) (region_x region + region_width region - 1)) score)
    (3 * (region_width region - 1))
    (rangeFrom (region_y region) (region_y region + region_height region - 1))) as H.
  rewrite rangeFrom_length in H.
  replace (Z.of_nat (Z.to_nat (region_y region + region_height region - 1 - region_y region)))
    with (region_height region - 1) in H by lia.
  apply H. clear H. intros s y _.
  pose proof (fold_left_increments
    (fun score x =>
       fold_left (fun score c => score + InpaintingEngine.artifactAt processed width x y c)
                 (range 3) score)
    3 (rangeFrom (region_x region) (region_x region + region_width region - 1))) as H.
  rewrite rangeFrom_length in H.
  replace (Z.of_nat (Z.to_nat (region_x region + region_width region - 1 - region_x region)))
    with (region_width region - 1) in H by lia.
  apply H. clear H. intros s' x _.
  pose proof (fold_left_increments
    (fun score c => score + InpaintingEngine.artifactAt processed width x y c)
    1 (range 3)) as H.
  rewrite range_length in H. change (1 * Z.of_nat (Z.to_nat 3)) with 3 in H.
  apply H. intros s'' c _.
  pose proof (artifactAt_bounds processed width x y c). lia.
Qed.

Lemma detectArtifacts_bounds (processed : Buffer) (region : Region) (width height : Z) :
  1 <= region_width region -> 1 <= region_height region ->
  (0 <= InpaintingEngine.detectArtifacts processed region width height <= 1)%Q.
Proof.
  intros Hw Hh. unfold InpaintingEngine.detectArtifacts. cbv zeta.
  pose proof (artifactScore_bounds processed region width Hw Hh) as [H0 H1].
  set (score := InpaintingEngine.artifactScore processed region width) in *.
  assert (Hden : (0 < inject_Z (region_width region * region_height region * 3))%Q).
  { change 0%Q with (inject_Z 0). rewrite <- Zlt_Qlt. nia. }
  split.
  - apply Qle_shift_div_l; [exact Hden |]. rewrite Qmult_0_l.
    change 0%Q with (inject_Z 0). rewrite <- Zle_Qle. exact H0.
  - apply Qle_shift_div_r; [exact Hden |]. rewrite Qmult_1_l.
    rewrite <- Zle_Qle. nia.
Qed.

(** X28: the metrics of [evaluateQuality] on two buffers of bytes and a
    region of positive extent: psnr >= 0 and 0 <= artifactLevel <= 1; and
    when both buffers hold at least width * height bytes, ssim is a number
    with -1 <= ssim <= 1. *)
Theorem evaluateQuality_bounds (original processed : Buffer) (region : Region)
  (width height : Z) :
  Forall isByte original -> Forall isByte processed ->
  1 <= region_width region -> 1 <= region_height region ->
  let metrics := InpaintingEngine.evaluateQuality original processed region width height in
  (0 <= InpaintingEngine.psnr metrics)%R /\
  (0 <= InpaintingEngine.artifactLevel metrics <= 1)%Q /\
  (width * height <= Z.of_nat (length original) ->
   width * height <= Z.of_nat (length processed) ->
   exists s, InpaintingEngine.ssim metrics = Some s /\ (-1 <= s <= 1)%Q).
Proof.
  intros Ho Hp Hw Hh metrics. subst metrics.
  unfold InpaintingEngine.evaluateQuality. cbv zeta.
  cbn [InpaintingEngine.psnr InpaintingEngine.artifactLevel InpaintingEngine.ssim].
  split; [| split].
  - pose proof (computePSNR_nonneg original processed Ho Hp) as Hpsnr.
    assert (Hr : (0 <= IZR (Rround (InpaintingEngine.computePSNR original processed * 100)))%R).
    { apply IZR_le. apply Rround_nonneg. lra. }
    lra.
  - apply (round_milli_bounds _ 0 1).
    apply detectArtifacts_bounds; assumption.
  - intros Hlo Hlp.
    destruct (computeSSIM_bounds original processed width height Hlo Hlp) as [s [Es Hs]].
    rewrite Es. cbn [option_map]. eexists. split; [reflexivity |].
    apply (round_milli_bounds _ (-1) 1). exact Hs.
Qed.

Lemma alternating_isByte (n : nat) (a b : Z) :
  isByte a -> isByte b -> Forall isByte (Sample.alternating n a b).
Proof.
  intros Ha Hb. apply Forall_forall. intros v Hv.
  unfold Sample.alternating in Hv. apply in_map_iff in Hv.
  destruct Hv as [i [<- _]]. now destruct (Nat.even i).
Qed.

(** Two 11x11 buffers that alternate between 0 and 255 in opposite
    phase. *)
Lemma evaluateQuality_bounds_witness :
  exists s,
    InpaintingEngine.ssim
      (InpaintingEngine.evaluateQuality
         (Sample.alternating 121 0 255) (Sample.alternating 121 255 0)
         (mkRegion 0 0 11 11) 11 11) = Some s /\
    (-1 <= s <= 1)%Q.
Proof.
  apply (evaluateQuality_bounds
           (Sample.alternating 121 0 255) (Sample.alternating 121 255 0)
           (mkRegion 0 0 11 11) 11 11).
  - apply alternating_isByte; unfold isByte; lia.
  - apply alternating_isByte; unfold isByte; lia.
  - cbn; lia.
  - cbn; lia.
  - vm_compute; discriminate.
  - vm_compute; discriminate.
Defined.

(** X31: the ssim of [evaluateQuality] can be negative: for two 11x11
    buffers that alternate between 0 and 255 in opposite phase (one window,
    anti-correlated content) the reported ssim is below 0. *)
Lemma evaluateQuality_negative_ssim :
  exists s,
    InpaintingEngine.ssim
      (InpaintingEngine.evaluateQuality
         (Sample.alternating 121 0 255) (Sample.alternating 121 255 0)
         (mkRegion 0 0 11 11) 11 11) = Some s /\
    (s < 0)%Q.
Proof.
  unfold InpaintingEngine.evaluateQuality. cbv zeta. cbn [InpaintingEngine.ssim].
  set (v := InpaintingEngine.computeSSIM _ _ _ _).
  vm_compute in v. subst v. cbn [option_map].
  eexists. split; [reflexivity |]. vm_compute. reflexivity.
Qed.

(** *** The feather mask *)

Lemma exp_le_1 (x : R) : (x <= 0)%R -> (exp x <= 1)%R.
Proof.
  intros [Hx | ->]; [| rewrite exp_0; lra].
  left. rewrite <- exp_0. now apply exp_increasing.
Qed.

Lemma exp_monotone (x y : R) : (x <= y)%R -> (exp x <= exp y)%R.
Proof.
  intros [Hxy | ->]; [left; now apply exp_increasing | lra].
Qed.

Lemma falloff_range (distance sigma : R) :
  (0 < EdgeFeatherer.generateGaussianFalloff distance sigma <= 1)%R.
Proof.
  unfold EdgeFeatherer.generateGaussianFalloff. cbv zeta. split.
  - apply exp_pos.
  - apply exp_le_1. pose proof (Rle_0_sqr (distance / sigma)) as H.
    unfold Rsqr in H. lra.
Qed.

Lemma falloff_at_0 (sigma : R) :
  EdgeFeatherer.generateGaussianFalloff 0 sigma = 1%R.
Proof.
  unfold EdgeFeatherer.generateGaussianFalloff. cbv zeta.
  replace (- (0 / sigma * (0 / sigma)) / 2)%R with 0%R by (unfold Rdiv; ring).
  apply exp_0.
Qed.

(** Four radii away from the edge the falloff is below 1/255. *)
Lemma falloff_far (distance sigma : R) :
  (0 < sigma)%R -> (4 * sigma <= distance)%R ->
  (EdgeFeatherer.generateGaussianFalloff distance sigma * 255 < 1)%R.
Proof.
  intros Hs Hd. unfold EdgeFeatherer.generateGaussianFalloff. cbv zeta.
  assert (Hn : (4 <= distance / sigma)%R).
  { apply Rmult_le_reg_r with (r := sigma); [exact Hs |].
    unfold Rdiv. rewrite Rmult_assoc, Rinv_l by lra. lra. }
  set (n := (distance / sigma)%R) in *.
  assert (Hle : (exp (- (n * n) / 2) <= exp (- 8))%R) by (apply exp_monotone; nra).
  assert (H1 : (2 < exp 1)%R) by (pose proof (exp_ineq1 1); lra).
  assert (H8 : (exp 8 = exp 1 * exp 1 * exp 1 * exp 1 * exp 1 * exp 1 * exp 1 * exp 1)%R).
  { rewrite <- !exp_plus. f_equal. lra. }
  assert (H256 : (256 < exp 8)%R).
  { rewrite H8. set (e := exp 1) in *.
    assert (4 < e * e)%R by nra.
    assert (16 < e * e * e * e)%R by nra.
    nra. }
  assert (Hinv : (exp (- 8) * exp 8 = 1)%R)
    by (rewrite <- exp_plus; replace (- 8 + 8)%R with 0%R by lra; apply exp_0).
  pose proof (exp_pos (- 8)) as Hpos.
  nra.
Qed.

Lemma Zfloor_byte (r : R) : (0 <= r <= 255)%R -> 0 <= Zfloor r <= 255.
Proof.
  intros [H0 H1]. pose proof (Zfloor_bound r) as [Hb _]. split.
  - apply Zfloor_lub. exact H0.
  - apply le_IZR. lra.
Qed.

Lemma Zfloor_below (r : R) (z : Z) : (r < IZR z)%R -> Zfloor r < z.
Proof.
  intros Hr. pose proof (Zfloor_bound r) as [Hb _]. apply lt_IZR. lra.
Qed.

Lemma Zfloor_unit (r : R) : (0 <= r < 1)%R -> Zfloor r = 0.
Proof.
  intros [H0 H1]. pose proof (Zfloor_bound r) as [Hb1 Hb2].
  assert (Hlo : -1 < Zfloor r) by (apply lt_IZR; lra).
  assert (Hhi : Zfloor r < 1) by (apply lt_IZR; lra).
  lia.
Qed.

Lemma toUint8_byte (v : Z) : 0 <= v <= 255 -> toUint8 v = v.
Proof. intros Hv. unfold toUint8. apply Z.mod_small. lia. Qed.

(** Inside the region the mask follows the falloff of the distance to the
    nearest edge: it is 255 on the edge itself. *)
Lemma featherPixel_inside (region : Region) (featherRadius : R) (x y : Z) :
  (0 < featherRadius)%R ->
  EdgeFeatherer.isInsideRegion x y region = true ->
  let d := EdgeFeatherer.distanceToRegionEdge x y region in
  let v := EdgeFeatherer.featherPixel region featherRadius x y in
  0 <= d /\
  v = Zfloor (EdgeFeatherer.generateGaussianFalloff (IZR d) featherRadius * 255) /\
  0 <= v <= 255 /\
  (d = 0 -> v = 255).
Proof.
  intros Hr Hin d v. subst d v. unfold EdgeFeatherer.featherPixel. rewrite Hin.
  cbv zeta.
  set (d := EdgeFeatherer.distanceToRegionEdge x y region).
  pose proof (falloff_range (IZR d) featherRadius) as [Hf0 Hf1].
  assert (Hd : 0 <= d).
  { subst d. unfold EdgeFeatherer.isInsideRegion in Hin.
    rewrite !andb_true_iff, !Z.geb_le, !Z.ltb_lt in Hin.
    unfold EdgeFeatherer.distanceToRegionEdge. cbv zeta. lia. }
  assert (Hb : 0 <= Zfloor (EdgeFeatherer.generateGaussianFalloff (IZR d) featherRadius * 255)
               <= 255) by (apply Zfloor_byte; lra).
  rewrite toUint8_byte by exact Hb.
  repeat split; try lia.
  intros ->. rewrite falloff_at_0. rewrite Rmult_1_l. apply ZfloorZ.
Qed.

(** Inside the region, four radii or more away from its nearest edge, the
    mask is 0. *)
Lemma featherPixel_deep_inside (region : Region) (featherRadius : R) (x y : Z) :
  (0 < featherRadius)%R ->
  EdgeFeatherer.isInsideRegion x y region = true ->
  (4 * featherRadius <= IZR (EdgeFeatherer.distanceToRegionEdge x y region))%R ->
  EdgeFeatherer.featherPixel region featherRadius x y = 0.
Proof.
  intros Hr Hin Hfar.
  destruct (featherPixel_inside region featherRadius x y Hr Hin) as [_ [-> _]].
  apply Zfloor_unit. split.
  - pose proof (falloff_range
                  (IZR (EdgeFeatherer.distanceToRegionEdge x y region)) featherRadius). lra.
  - now apply falloff_far.
Qed.

Lemma createFeatherMask_nth (region : Region) (imageSize : Size) (featherRadius : R)
  (x y : Z) :
  0 <= x < size_width imageSize -> 0 <= y < size_height imageSize ->
  nth (Z.to_nat (y * size_width imageSize + x))
      (EdgeFeatherer.createFeatherMask region imageSize featherRadius) 0
  = EdgeFeatherer.featherPixel region featherRadius x y.
Proof.
  intros Hx Hy. unfold EdgeFeatherer.createFeatherMask. cbv zeta.
  now rewrite (rows_nth (fun x y => EdgeFeatherer.featherPixel region featherRadius x y)).
Qed.

(** C7: the mask that [createFeatherMask] builds is not the one the
    specification describes, full opacity at the centre of the region and
    fading near its edges.  For the 100x100 region at (10,10) of a 120x120
    image and a feather radius of 10, the mask is 255 at the pixel (10,60)
    of the left edge of the region and 0 at its centre (60,60): inside the
    region the code applies the falloff to the distance to the nearest edge,
    where the branch for the pixels outside applies it to
    featherRadius - distance. *)
Theorem createFeatherMask_clear_centre :
  let mask :=
    EdgeFeatherer.createFeatherMask (mkRegion 10 10 100 100) (mkSize 120 120) 10 in
  nth (Z.to_nat (60 * 120 + 10)) mask 0 = 255 /\
  nth (Z.to_nat (60 * 120 + 60)) mask 0 = 0.
Proof.
  cbv zeta.
  rewrite !(createFeatherMask_nth _ (mkSize 120 120)) by (cbn; lia).
  split.
  - apply (featherPixel_inside (mkRegion 10 10 100 100) 10 10 60); [lra | | ]; reflexivity.
  - apply featherPixel_deep_inside; [lra | reflexivity |].
    change (EdgeFeatherer.distanceToRegionEdge 60 60 (mkRegion 10 10 100 100)) with 50.
    lra.
Qed.

(** ** Further properties of the code *)

(** *** Region geometry (imageUtils) *)

Lemma isRegionValid_spec (region : Region) (imageSize : Size) :
  ImageUtils.isRegionValid region imageSize = true <->
  0 <= region_x region /\ 0 <= region_y region /\
  region_x region + region_width region <= size_width imageSize /\
  region_y region + region_height region <= size_height imageSize /\
  0 < region_width region /\ 0 < region_height region.
Proof.
  unfold ImageUtils.isRegionValid.
  rewrite !andb_true_iff.
  repeat match goal with
         | |- context [?a >=? ?b] => rewrite (Z.geb_leb a b)
         | |- context [?a >? ?b] => rewrite (Z.gtb_ltb a b)
         end.
  rewrite !Z.leb_le, !Z.ltb_lt. tauto.
Qed.

(** X1: clamping is idempotent: a region returned by [clampRegionToImage] is
    returned unchanged when it is clamped to the same image again, for every
    region and every image size. *)
Theorem clampRegionToImage_idempotent (region : Region) (imageSize : Size) :
  ImageUtils.clampRegionToImage (ImageUtils.clampRegionToImage region imageSize) imageSize
  = ImageUtils.clampRegionToImage region imageSize.
Proof.
  unfold ImageUtils.clampRegionToImage. cbn. f_equal; lia.
Qed.

(** X2: for a region of positive width and height, [isRegionValid] accepts
    the region exactly when [clampRegionToImage] leaves it unchanged. *)
Theorem isRegionValid_iff_clamp_fixed (region : Region) (imageSize : Size) :
  0 < region_width region -> 0 < region_height region ->
  (ImageUtils.isRegionValid region imageSize = true <->
   ImageUtils.clampRegionToImage region imageSize = region).
Proof.
  intros Hw Hh. rewrite isRegionValid_spec.
  destruct region as [x y w h]. cbn in *.
  unfold ImageUtils.clampRegionToImage. cbn. split.
  - intros H. f_equal; lia.
  - intros H. injection H as Hx Hy Hw' Hh'. lia.
Qed.

Lemma isRegionValid_iff_clamp_fixed_witness :
  ImageUtils.isRegionValid (mkRegion 10 20 30 40) (mkSize 100 100) = true <->
  ImageUtils.clampRegionToImage (mkRegion 10 20 30 40) (mkSize 100 100)
  = mkRegion 10 20 30 40.
Proof.
  apply (isRegionValid_iff_clamp_fixed (mkRegion 10 20 30 40) (mkSize 100 100)); cbn; lia.
Defined.

(** X3: for a valid region and [expandBy >= 0], [expandRegion] clamps the
    origin at 0 and nothing else, so its result is valid exactly when the
    image has room for the widened extents right of and below the moved
    origin; clamping the expanded region with [clampRegionToImage] always
    gives a valid window that contains the region. *)
Theorem expandRegion_clampRegionToImage_covers (region : Region) (expandBy : Z)
  (imageSize : Size) :
  ImageUtils.isRegionValid region imageSize = true -> 0 <= expandBy ->
  let expanded := ImageUtils.expandRegion region expandBy in
  let window := ImageUtils.clampRegionToImage expanded imageSize in
  (ImageUtils.isRegionValid expanded imageSize = true <->
   Z.max 0 (region_x region - expandBy) + region_width region + 2 * expandBy
     <= size_width imageSize /\
   Z.max 0 (region_y region - expandBy) + region_height region + 2 * expandBy
     <= size_height imageSize) /\
  ImageUtils.isRegionValid window imageSize = true /\
  region_x window <= region_x region /\
  region_y window <= region_y region /\
  region_x region + region_width region <= region_x window + region_width window /\
  region_y region + region_height region <= region_y window + region_height window.
Proof.
  intros H He expanded window. subst expanded window. apply isRegionValid_spec in H.
  rewrite !isRegionValid_spec.
  unfold ImageUtils.clampRegionToImage, ImageUtils.expandRegion.
  cbn [region_x region_y region_width region_height].
  split; [split; intros; lia | lia].
Qed.

Lemma expandRegion_clampRegionToImage_covers_witness :
  let expanded := ImageUtils.expandRegion (mkRegion 0 0 5 5) 30 in
  let window := ImageUtils.clampRegionToImage expanded (mkSize 10 10) in
  expanded = mkRegion 0 0 65 65 /\
  window = mkRegion 0 0 10 10 /\
  ImageUtils.isRegionValid expanded (mkSize 10 10) = false /\
  ImageUtils.isRegionValid window (mkSize 10 10) = true.
Proof.
  cbv zeta. split; [reflexivity |]. split; [reflexivity |]. split; [reflexivity |].
  apply (expandRegion_clampRegionToImage_covers (mkRegion 0 0 5 5) 30 (mkSize 10 10)).
  - reflexivity.
  - lia.
Defined.

(** X4: the region check of [processWatermarkRemoval] agrees with
    [isRegionValid]: every region the check returns is valid for the image,
    and a request that carries a valid region is returned as it is. *)
Theorem boundedRegion_valid_regions (metadata_width metadata_height : Z)
  (area : WatermarkArea) (region : Region) :
  (InpaintingEngine.boundedRegion metadata_width metadata_height area = inr region ->
   ImageUtils.isRegionValid region (mkSize metadata_width metadata_height) = true) /\
  (ImageUtils.isRegionValid region (mkSize metadata_width metadata_height) = true ->
   InpaintingEngine.boundedRegion metadata_width metadata_height
     (mkArea (inject_Z (region_x region)) (inject_Z (region_y region))
             (inject_Z (region_width region)) (inject_Z (region_height region)))
   = inr region).
Proof.
  split.
  - rewrite boundedRegion_spec.
    destruct (_ || _) eqn:E; [discriminate |].
    intros H. injection H as <-.
    apply orb_false_iff in E. rewrite !Z.geb_leb, !Z.leb_gt in E.
    apply isRegionValid_spec. cbn. lia.
  - intros H. apply isRegionValid_spec in H. cbn in H.
    rewrite boundedRegion_spec. cbn [area_x area_y area_width area_height].
    rewrite !Qfloor_Z.
    replace (_ || _) with false
      by (symmetry; apply orb_false_iff; rewrite !Z.geb_leb, !Z.leb_gt; lia).
    destruct region as [x y w h]. cbn in *. f_equal. f_equal; lia.
Qed.

(** *** The pipeline and its options *)

Lemma Qmax_again (a b : Q) : Qmax (Qmax a b) b = Qmax a b.
Proof.
  unfold Qmax, GenericMinMax.gmax.
  destruct (a ?= b)%Q eqn:E; rewrite ?E; try reflexivity;
    now rewrite (proj1 (Qeq_alt b b) (Qeq_refl b)).
Qed.

Lemma Qmin_again (a b : Q) : Qmin (Qmin a b) b = Qmin a b.
Proof.
  unfold Qmin, GenericMinMax.gmin.
  destruct (a ?= b)%Q eqn:E; rewrite ?E; try reflexivity;
    now rewrite (proj1 (Qeq_alt b b) (Qeq_refl b)).
Qed.

(** X6: [adaptOptionsToContext] is idempotent for a fixed context and moves
    every option in one direction only: the feather radius never grows, the
    sampling radius and the analysis depth never shrink, noise matching and
    edge preservation are never switched off, the quality level is kept. *)
Theorem adaptOptionsToContext_idempotent_monotone
  (options : InpaintingEngine.InpaintingOptions)
  (context : InpaintingEngine.ContextAnalysis) :
  let adapted := InpaintingEngine.adaptOptionsToContext options context in
  InpaintingEngine.adaptOptionsToContext adapted context = adapted /\
  (InpaintingEngine.featherRadius adapted <= InpaintingEngine.featherRadius options)%Q /\
  (InpaintingEngine.samplingRadius options <= InpaintingEngine.samplingRadius adapted)%Q /\
  (InpaintingEngine.textureAnalysisDepth options
   <= InpaintingEngine.textureAnalysisDepth adapted)%Q /\
  (InpaintingEngine.noiseMatching options = true ->
   InpaintingEngine.noiseMatching adapted = true) /\
  (InpaintingEngine.edgePreservation options = true ->
   InpaintingEngine.edgePreservation adapted = true) /\
  InpaintingEngine.qualityLevel adapted = InpaintingEngine.qualityLevel options.
Proof.
  cbv zeta. unfold InpaintingEngine.adaptOptionsToContext.
  destruct options as [fr sr td nm ep ql].
  destruct (Qgtb (InpaintingEngine.textureComplexity context) 0.7);
  destruct (Qgtb (InpaintingEngine.edgeStrength context) 0.6);
  destruct (Qgtb (InpaintingEngine.colorVariation context) 0.8);
  cbn [InpaintingEngine.featherRadius InpaintingEngine.samplingRadius
       InpaintingEngine.textureAnalysisDepth InpaintingEngine.noiseMatching
       InpaintingEngine.edgePreservation InpaintingEngine.qualityLevel];
  rewrite ?Qmax_again, ?Qmin_again;
  repeat split; try reflexivity; try tauto;
  try apply Q.le_min_l; try apply Q.le_max_l; try apply Qle_refl.
Qed.

(** X7: [generateProcessingOptions] returns one of the three presets, and
    on the options it generates for a context [adaptOptionsToContext] can
    change one field only: the feather radius becomes 15 when the edge
    strength is above 0.6, and nothing changes otherwise. *)
Theorem adaptOptionsToContext_generated (context : InpaintingEngine.ContextAnalysis) :
  let generated := InpaintingEngine.generateProcessingOptions context in
  (generated = InpaintingEngine.HIGH_PERFORMANCE_OPTIONS \/
   generated = InpaintingEngine.BALANCED_OPTIONS \/
   generated = InpaintingEngine.HIGH_QUALITY_OPTIONS) /\
  InpaintingEngine.adaptOptionsToContext generated context =
  if Qgtb (InpaintingEngine.edgeStrength context) 0.6
  then InpaintingEngine.mkOptions 15
         (InpaintingEngine.samplingRadius generated)
         (InpaintingEngine.textureAnalysisDepth generated)
         (InpaintingEngine.noiseMatching generated)
         (InpaintingEngine.edgePreservation generated)
         (InpaintingEngine.qualityLevel generated)
  else generated.
Proof.
  cbv zeta.
  unfold InpaintingEngine.generateProcessingOptions, InpaintingEngine.adaptOptionsToContext.
  destruct (Qgtb (InpaintingEngine.textureComplexity context) 0.7) eqn:Etc;
  destruct (Qgtb (InpaintingEngine.edgeStrength context) 0.8) eqn:Ees8;
  destruct (Qgtb (InpaintingEngine.edgeStrength context) 0.6) eqn:Ees6;
  destruct (Qltb (InpaintingEngine.colorVariation context) 0.3) eqn:Ecv3;
  destruct (Qltb (InpaintingEngine.patternRepetition context) 0.4) eqn:Epr;
  destruct (Qgtb (InpaintingEngine.colorVariation context) 0.8) eqn:Ecv8;
  cbn [orb andb];
  try (apply Qgtb_gt in Ecv8; apply Qltb_lt in Ecv3; exfalso; lra);
  (split; [ tauto | reflexivity ]).
Qed.

(** *** The windows of the noise analysis and of the adaptive feathering *)

Lemma extract_succeeds_iff (img : Sharp.Image) (left top width height : Z) :
  (exists window, Sharp.extract img left top width height = inr window) <->
  Sharp.validExtractArea img left top width height = true.
Proof.
  unfold Sharp.extract.
  destruct (Sharp.validExtractArea img left top width height); split.
  - reflexivity.
  - intros _. eexists. reflexivity.
  - intros [w Hw]. discriminate.
  - discriminate.
Qed.

(** X8: for a valid region, [analyzeLocalNoise] gets its window from the
    image library exactly when, in each direction, the region starts at
    least 20 pixels inside the image or the image has room for the extent
    plus 40; otherwise it fails with the error of [extract]. *)
Theorem analyzeLocalNoise_succeeds_iff
  computePowerSpectralDensity estimateGrainSize computeCorrelationLength analyzeColorNoise
  (image : Sharp.Image) (region : Region) :
  ImageUtils.isRegionValid region
    (mkSize (Sharp.image_width image) (Sharp.image_height image)) = true ->
  ((exists profile,
      NoiseMatchingEngine.analyzeLocalNoise computePowerSpectralDensity estimateGrainSize
        computeCorrelationLength analyzeColorNoise image region = inr profile)
   <->
   (20 <= region_x region \/ region_width region + 40 <= Sharp.image_width image) /\
   (20 <= region_y region \/ region_height region + 40 <= Sharp.image_height image)) /\
  ((~ exists profile,
      NoiseMatchingEngine.analyzeLocalNoise computePowerSpectralDensity estimateGrainSize
        computeCorrelationLength analyzeColorNoise image region = inr profile)
   ->
   NoiseMatchingEngine.analyzeLocalNoise computePowerSpectralDensity estimateGrainSize
     computeCorrelationLength analyzeColorNoise image region = inl BadExtractArea).
Proof.
  intros Hvalid. apply isRegionValid_spec in Hvalid. cbn in Hvalid.
  unfold NoiseMatchingEngine.analyzeLocalNoise, Sharp.extract.
  cbn [NoiseMatchingEngine.expandedRegion region_x region_y region_width region_height].
  destruct (Sharp.validExtractArea image _ _ _ _) eqn:E; cbn [bind].
  - apply validExtractArea_spec in E. split.
    + split; [intros _; lia | intros _; eexists; reflexivity].
    + intros Hn. exfalso. apply Hn. eexists. reflexivity.
  - split.
    + split; [intros [p Hp]; discriminate |].
      intros H. exfalso. apply not_true_iff_false in E. apply E.
      apply validExtractArea_spec. lia.
    + reflexivity.
Qed.

Lemma analyzeLocalNoise_succeeds_iff_witness :
  (exists profile,
     NoiseMatchingEngine.analyzeLocalNoise SampleMethods.noFrequencies
       (Sample.constantStatistic 0) (Sample.constantStatistic 0)
       SampleMethods.noColorNoise (Sample.flatImage 30 30 128) (mkRegion 0 0 5 5)
     = inr profile) <->
  (20 <= 0 \/ 5 + 40 <= 30) /\ (20 <= 0 \/ 5 + 40 <= 30).
Proof.
  apply (analyzeLocalNoise_succeeds_iff SampleMethods.noFrequencies
           (Sample.constantStatistic 0) (Sample.constantStatistic 0)
           SampleMethods.noColorNoise (Sample.flatImage 30 30 128) (mkRegion 0 0 5 5)).
  reflexivity.
Defined.

(** X9: for a region of positive extent, [createAdaptiveFeathering] returns
    a mask exactly when the region, moved to the origin [max 0 (x - 50)] and
    widened by 100, fits in the image; on an image of at most 100 pixels in
    one direction it always fails. *)
Theorem createAdaptiveFeathering_needs_margin
  laplacian applyBilateralFiltering applyEdgeAwareSmoothing
  (image : Sharp.Image) (region : Region) :
  0 < region_width region -> 0 < region_height region ->
  ((exists mask,
      EdgeFeatherer.createAdaptiveFeathering laplacian applyBilateralFiltering
        applyEdgeAwareSmoothing image region = inr mask)
   <->
   Z.max 0 (region_x region - 50) + region_width region + 100 <= Sharp.image_width image /\
   Z.max 0 (region_y region - 50) + region_height region + 100 <= Sharp.image_height image)
  /\
  (Sharp.image_width image <= 100 \/ Sharp.image_height image <= 100 ->
   exists e,
     EdgeFeatherer.createAdaptiveFeathering laplacian applyBilateralFiltering
       applyEdgeAwareSmoothing image region = inl e).
Proof.
  intros Hw Hh.
  unfold EdgeFeatherer.createAdaptiveFeathering, EdgeFeatherer.detectEdges, Sharp.extract.
  cbn [EdgeFeatherer.expandedRegion region_x region_y region_width region_height].
  destruct ((Sharp.image_width image =? 0) || (Sharp.image_height image =? 0)) eqn:E0.
  - apply orb_true_iff in E0. rewrite !Z.eqb_eq in E0. split.
    + split; [intros [m Hm]; discriminate | lia].
    + intros _. eexists. reflexivity.
  - destruct (Sharp.validExtractArea image _ _ _ _) eqn:E; cbn [bind].
    + apply validExtractArea_spec in E. split.
      * split; [intros _; lia | intros _; eexists; reflexivity].
      * intros H. exfalso. lia.
    + split.
      * split; [intros [m Hm]; discriminate |].
        intros H. exfalso. apply not_true_iff_false in E. apply E.
        apply validExtractArea_spec. lia.
      * intros _. eexists. reflexivity.
Qed.

Lemma createAdaptiveFeathering_needs_margin_witness :
  exists e,
    EdgeFeatherer.createAdaptiveFeathering SampleMethods.rawPixels SampleMethods.unfiltered
      SampleMethods.unsmoothed (Sample.flatImage 80 80 128) (mkRegion 10 10 5 5) = inl e.
Proof.
  apply (createAdaptiveFeathering_needs_margin SampleMethods.rawPixels
           SampleMethods.unfiltered SampleMethods.unsmoothed
           (Sample.flatImage 80 80 128) (mkRegion 10 10 5 5)).
  - cbn. lia.
  - cbn. lia.
  - left. cbn. lia.
Defined.

Lemma fold_left_nonneg_sum {B : Type} (f : B -> Z) (l : list B) (acc : Z) :
  (forall b, In b l -> 0 <= f b <= 255) ->
  acc <= fold_left (fun a b => a + f b) l acc <= acc + 255 * Z.of_nat (length l).
Proof.
  revert acc. induction l as [| b l IH]; intros acc H; cbn [fold_left length].
  - lia.
  - specialize (IH (acc + f b) (fun c Hc => H c (or_intror Hc))).
    pose proof (H b (or_introl eq_refl)). lia.
Qed.

(** X10: on a non-empty edge map of bytes the adaptive feather radius lies
    between 20 and 35: the lower bound 10 of the code is never reached. *)
Theorem calculateAdaptiveRadius_range (edgeMap : Buffer) (region : Region) :
  edgeMap <> [] -> Forall isByte edgeMap ->
  (20 <= EdgeFeatherer.calculateAdaptiveRadius edgeMap region <= 35)%Q.
Proof.
  intros Hne Hbytes. unfold EdgeFeatherer.calculateAdaptiveRadius. cbv zeta.
  set (sampleCount := Z.min (Z.of_nat (length edgeMap)) 1000).
  set (total := fold_left _ _ 0).
  assert (Hcount : 1 <= sampleCount).
  { subst sampleCount. destruct edgeMap; [congruence |]. cbn [length]. lia. }
  assert (Htotal : 0 <= total).
  { subst total.
    pose proof (fold_left_nonneg_sum (fun k => nth (Z.to_nat (10 * k)) edgeMap 0)
                  (range ((sampleCount + 9) / 10)) 0) as H.
    cbn beta in H. apply H. intros k Hk.
    destruct (Nat.lt_ge_cases (Z.to_nat (10 * k)) (length edgeMap)) as [Hlt | Hge].
    - apply (proj1 (Forall_nth isByte edgeMap) Hbytes). exact Hlt.
    - rewrite nth_overflow by exact Hge. lia. }
  assert (Hq : (0 <= inject_Z total / (inject_Z sampleCount / 10) / 255 * 15)%Q).
  { assert (H1 : (0 <= inject_Z total)%Q)
      by (change 0%Q with (inject_Z 0); rewrite <- Zle_Qle; exact Htotal).
    assert (H2 : (0 < inject_Z sampleCount / 10)%Q).
    { apply Qlt_shift_div_l; [reflexivity |]. rewrite Qmult_0_l.
      change 0%Q with (inject_Z 0). rewrite <- Zlt_Qlt. lia. }
    apply Qmult_le_0_compat; [| discriminate].
    apply Qle_shift_div_l; [reflexivity |]. rewrite Qmult_0_l.
    apply Qle_shift_div_l; [exact H2 |]. rewrite Qmult_0_l. exact H1. }
  split.
  - apply Q.max_le_iff. right. apply Q.min_glb; [discriminate |].
    rewrite <- (Qplus_0_r 20) at 1. apply Qplus_le_r. exact Hq.
  - apply Q.max_lub; [discriminate |]. apply Q.le_min_l.
Qed.

Lemma calculateAdaptiveRadius_range_witness :
  let edgeMap : Buffer := [255; 0; 17] in
  (20 <= EdgeFeatherer.calculateAdaptiveRadius edgeMap (mkRegion 0 0 1 1) <= 35)%Q.
Proof.
  apply (calculateAdaptiveRadius_range [255; 0; 17] (mkRegion 0 0 1 1)).
  - discriminate.
  - repeat constructor; unfold isByte; lia.
Defined.

(** *** The transition between two reconstructions *)

Lemma readAt_nth (buffer : Buffer) (i : Z) :
  0 <= i < Z.of_nat (length buffer) ->
  readAt buffer i = Some (nth (Z.to_nat i) buffer 0).
Proof.
  intros Hi. unfold readAt.
  replace (i <? 0) with false by (symmetry; apply Z.ltb_ge; lia).
  apply nth_error_nth'. lia.
Qed.

Lemma readAt_past (buffer : Buffer) (i : Z) :
  Z.of_nat (length buffer) <= i -> readAt buffer i = None.
Proof.
  intros Hi. unfold readAt.
  replace (i <? 0) with false by (symmetry; apply Z.ltb_ge; lia).
  apply nth_error_None. lia.
Qed.

Lemma nth_map_range {A : Type} (f : Z -> A) (n : Z) (k : nat) (d : A) :
  (k < Z.to_nat n)%nat -> nth k (map f (range n)) d = f (Z.of_nat k).
Proof.
  intros Hk.
  rewrite nth_indep with (d' := f 0) by (rewrite length_map, range_length; lia).
  rewrite map_nth, nth_range by lia. reflexivity.
Qed.

Lemma createSmoothTransition_nth (fromBuffer toBuffer maskBuffer : Buffer)
  (width height i c : Z) :
  0 <= i < width * height -> 0 <= c < 3 ->
  nth (Z.to_nat (i * 3 + c))
      (AdvancedInterpolator.createSmoothTransition fromBuffer toBuffer maskBuffer
         width height) 0
  = AdvancedInterpolator.transitionByte (readAt fromBuffer (i * 3 + c))
      (readAt toBuffer (i * 3 + c)) (readAt maskBuffer i).
Proof.
  intros Hi Hc. unfold AdvancedInterpolator.createSmoothTransition. cbv zeta.
  replace (Z.to_nat (i * 3 + c)) with (Z.to_nat i * 3 + Z.to_nat c)%nat by lia.
  rewrite nth_flat_map_blocks with (k := 3%nat) (b0 := 0).
  - rewrite nth_range by lia.
    rewrite nth_map_range by lia.
    rewrite !Z2Nat.id by lia. reflexivity.
  - intros b _. rewrite length_map, range_length. reflexivity.
  - rewrite range_length. lia.
  - lia.
Qed.

Lemma toUint8_isByte (v : Z) : isByte (toUint8 v).
Proof.
  unfold isByte, toUint8. pose proof (Z.mod_pos_bound v 256). lia.
Qed.

Lemma Qfloor_inject (z : Z) (q : Q) : (q == inject_Z z)%Q -> Qfloor q = z.
Proof. intros H. rewrite H. apply Qfloor_Z. Qed.

(** X11: [createSmoothTransition] returns [width * height * 3] bytes; where
    the mask is 0 the byte of the first buffer is returned, where it is 255
    the byte of the second buffer, and where one of the three buffers is too
    short the byte is 0. *)
Theorem createSmoothTransition_endpoints (fromBuffer toBuffer maskBuffer : Buffer)
  (width height : Z) :
  0 <= width * height ->
  Forall isByte fromBuffer -> Forall isByte toBuffer ->
  let result :=
    AdvancedInterpolator.createSmoothTransition fromBuffer toBuffer maskBuffer
      width height in
  length result = Z.to_nat (width * height * 3) /\
  Forall isByte result /\
  forall i c, 0 <= i < width * height -> 0 <= c < 3 ->
    let idx := i * 3 + c in
    (idx < Z.of_nat (length fromBuffer) -> idx < Z.of_nat (length toBuffer) ->
     (readAt maskBuffer i = Some 0 ->
      nth (Z.to_nat idx) result 0 = nth (Z.to_nat idx) fromBuffer 0) /\
     (readAt maskBuffer i = Some 255 ->
      nth (Z.to_nat idx) result 0 = nth (Z.to_nat idx) toBuffer 0)) /\
    (Z.of_nat (length fromBuffer) <= idx \/ Z.of_nat (length toBuffer) <= idx \/
     Z.of_nat (length maskBuffer) <= i ->
     nth (Z.to_nat idx) result 0 = 0).
Proof.
  intros Hsize Hfrom Hto result. subst result. split; [| split].
  - unfold AdvancedInterpolator.createSmoothTransition. cbv zeta.
    rewrite length_flat_map_blocks with (k := 3%nat).
    + rewrite range_length. lia.
    + intros b _. rewrite length_map, range_length. reflexivity.
  - unfold AdvancedInterpolator.createSmoothTransition. cbv zeta.
    apply Forall_flat_map, Forall_forall. intros i _.
    apply Forall_map, Forall_forall. intros c _.
    unfold AdvancedInterpolator.transitionByte.
    destruct (readAt fromBuffer (i * 3 + c)), (readAt toBuffer (i * 3 + c)),
      (readAt maskBuffer i);
      try apply toUint8_isByte; unfold isByte; lia.
  - intros i c Hi Hc idx. subst idx.
    rewrite createSmoothTransition_nth by assumption. split.
    + intros Hf Ht.
      rewrite (readAt_nth fromBuffer) by lia. rewrite (readAt_nth toBuffer) by lia.
      assert (Hbf : isByte (nth (Z.to_nat (i * 3 + c)) fromBuffer 0))
        by (apply (proj1 (Forall_nth isByte fromBuffer) Hfrom); lia).
      assert (Hbt : isByte (nth (Z.to_nat (i * 3 + c)) toBuffer 0))
        by (apply (proj1 (Forall_nth isByte toBuffer) Hto); lia).
      set (f := nth _ fromBuffer 0) in *. set (t := nth _ toBuffer 0) in *.
      split; intros Hm; rewrite Hm; unfold AdvancedInterpolator.transitionByte.
      * rewrite (Qfloor_inject f) by (field).
        apply toUint8_byte. exact Hbf.
      * rewrite (Qfloor_inject t) by (field).
        apply toUint8_byte. exact Hbt.
    + intros [H | [H | H]].
      * rewrite (readAt_past fromBuffer) by lia. reflexivity.
      * rewrite (readAt_past toBuffer) by lia.
        unfold AdvancedInterpolator.transitionByte.
        now destruct (readAt fromBuffer (i * 3 + c)).
      * rewrite (readAt_past maskBuffer) by lia.
        unfold AdvancedInterpolator.transitionByte.
        now destruct (readAt fromBuffer (i * 3 + c)), (readAt toBuffer (i * 3 + c)).
Qed.

Lemma createSmoothTransition_endpoints_witness :
  let result :=
    AdvancedInterpolator.createSmoothTransition [10; 20; 30; 40; 50; 60]
      [200; 210; 220; 230; 240; 250] [0; 255] 2 1 in
  length result = Z.to_nat (2 * 1 * 3) /\ Forall isByte result.
Proof.
  cbv zeta. 
  pose proof (createSmoothTransition_endpoints [10; 20; 30; 40; 50; 60]
                [200; 210; 220; 230; 240; 250] [0; 255] 2 1) as H.
  cbv zeta in H.
  destruct H as [Hlen [Hbytes _]].
  - lia.
  - repeat constructor; unfold isByte; lia.
  - repeat constructor; unfold isByte; lia.
  - split; [exact Hlen | exact Hbytes].
Defined.

(** *** The average of patches *)

Lemma nth_map_seq {A : Type} (f : nat -> A) (n i : nat) (d : A) :
  (i < n)%nat -> nth i (map f (seq 0 n)) d = f i.
Proof.
  intros Hi.
  rewrite nth_indep with (d' := f 0%nat) by (rewrite length_map, length_seq; lia).
  rewrite map_nth, seq_nth by lia. reflexivity.
Qed.

Lemma float_between (q : Q) (lo hi : Z) :
  0 <= lo -> hi < 2 ^ 24 -> (inject_Z lo <= q <= inject_Z hi)%Q ->
  (inject_Z lo <= Float32.round q <= inject_Z hi)%Q.
Proof. intros Hlo Hhi. apply round_between; lia. Qed.

(** While the sums stay below [2^24] the [Float32Array] keeps them
    exactly. *)
Lemma patchSum_exact (patches : list Patch) (i : nat) (lo hi : Z) (acc : Q) (a : Z) :
  (forall p, In p patches ->
     exists v, nth_error (patch_pixels p) i = Some v /\ lo <= v <= hi) ->
  0 <= lo -> hi <= 255 ->
  0 <= a -> a + 255 * Z.of_nat (length patches) < 2 ^ 24 ->
  (acc == inject_Z a)%Q ->
  exists total,
    (fold_left (fun acc patch =>
                  match nth_error (patch_pixels patch) i with
                  | Some v => Float32.round (Double.add acc (inject_Z v))
                  | None => acc
                  end) patches acc == inject_Z total)%Q /\
    a + lo * Z.of_nat (length patches) <= total <= a + hi * Z.of_nat (length patches).
Proof.
  revert acc a. induction patches as [| p patches IH]; intros acc a H Hlo Hhi Ha Hsmall Hacc.
  - exists a. cbn [fold_left length]. split; [exact Hacc | lia].
  - cbn [fold_left length] in *.
    destruct (H p (or_introl eq_refl)) as [v [Ev Hv]]. rewrite Ev.
    assert (Hsum : (acc + inject_Z v == inject_Z (a + v))%Q)
      by (rewrite inject_Z_plus, Hacc; reflexivity).
    assert (Hstored : (Float32.round (Double.add acc (inject_Z v)) == inject_Z (a + v))%Q).
    { assert (Hb : (inject_Z (a + v) <= Float32.round (Double.add acc (inject_Z v))
                    <= inject_Z (a + v))%Q).
      { apply float_between; [lia | lia |].
        apply double_between; [lia | lia |].
        rewrite Hsum. split; apply Qle_refl. }
      apply Qle_antisym; tauto. }
    destruct (IH _ (a + v) (fun q Hq => H q (or_intror Hq)) Hlo Hhi
                 ltac:(lia) ltac:(lia) Hstored) as [total [Htotal Hrange]].
    exists total. split; [exact Htotal | lia].
Qed.

Lemma clampedMean_bounds (sum : Q) (total n lo hi : Z) :
  0 < n -> 0 <= lo -> hi <= 255 -> (sum == inject_Z total)%Q ->
  lo * n <= total <= hi * n ->
  lo <= toUint8 (Qfloor (Qmax 0 (Qmin 255
           (Float32.round (Double.div sum (inject_Z n)))))) <= hi.
Proof.
  intros Hn Hlo Hhi Hsum Htotal.
  assert (Hn' : (0 < inject_Z n)%Q)
    by (change 0%Q with (inject_Z 0); rewrite <- Zlt_Qlt; exact Hn).
  assert (Hq : (inject_Z lo <= sum / inject_Z n <= inject_Z hi)%Q).
  { rewrite Hsum. split.
    - apply Qle_shift_div_l; [exact Hn' |].
      rewrite <- inject_Z_mult, <- Zle_Qle. lia.
    - apply Qle_shift_div_r; [exact Hn' |].
      rewrite <- inject_Z_mult, <- Zle_Qle. lia. }
  assert (Hr : (inject_Z lo <= Float32.round (Double.div sum (inject_Z n))
                <= inject_Z hi)%Q).
  { apply float_between; [lia | lia |].
    apply double_between; [lia | lia | exact Hq]. }
  set (q := Float32.round (Double.div sum (inject_Z n))) in *.
  assert (H0 : (0 <= inject_Z lo)%Q)
    by (change 0%Q with (inject_Z 0); rewrite <- Zle_Qle; exact Hlo).
  assert (H255 : (inject_Z hi <= 255)%Q)
    by (change 255%Q with (inject_Z 255); rewrite <- Zle_Qle; exact Hhi).
  assert (Hc : (inject_Z lo <= Qmax 0 (Qmin 255 q) <= inject_Z hi)%Q).
  { split.
    - apply Q.max_le_iff. right. apply Q.min_glb; [| tauto].
      apply Qle_trans with (inject_Z hi); [| exact H255].
      apply Qle_trans with q; tauto.
    - apply Q.max_lub; [apply Qle_trans with (inject_Z lo); [exact H0 |];
                        apply Qle_trans with q; tauto |].
      apply Qle_trans with q; [apply Q.le_min_r | tauto]. }
  assert (Hf : lo <= Qfloor (Qmax 0 (Qmin 255 q)) <= hi).
  { split.
    - rewrite <- (Qfloor_Z lo). apply Qfloor_resp_le. tauto.
    - rewrite <- (Qfloor_Z hi). apply Qfloor_resp_le. tauto. }
  rewrite toUint8_byte by lia. exact Hf.
Qed.

(** X12: [computeAverageContent] returns 768 bytes of value 128 for no
    patches; otherwise the result has the length of the first patch, and
    for at most 65793 patches (the sums, kept in a [Float32Array], are then
    exact) each byte lies between the smallest and the largest byte the
    patches have at that index, and patches with the same pixels average to
    these pixels. *)
Theorem computeAverageContent_between :
  InpaintingEngine.computeAverageContent [] = repeat 128 768 /\
  forall (first : Patch) (rest : list Patch),
    let patches := first :: rest in
    let result := InpaintingEngine.computeAverageContent patches in
    length result = length (patch_pixels first) /\
    (Z.of_nat (length patches) <= 65793 ->
     (forall (i : nat) (lo hi : Z),
        0 <= lo -> hi <= 255 ->
        (forall p, In p patches ->
           exists v, nth_error (patch_pixels p) i = Some v /\ lo <= v <= hi) ->
        lo <= nth i result 0 <= hi) /\
     (Forall isByte (patch_pixels first) ->
      (forall p, In p rest -> patch_pixels p = patch_pixels first) ->
      result = patch_pixels first)).
Proof.
  split; [reflexivity |].
  intros first rest patches result.
  assert (Hlen : length result = length (patch_pixels first)).
  { subst result patches. unfold InpaintingEngine.computeAverageContent.
    now rewrite !length_map, length_seq. }
  split; [exact Hlen |]. intros Hfew.
  assert (Hbetween : forall (i : nat) (lo hi : Z),
       0 <= lo -> hi <= 255 ->
       (forall p, In p patches ->
          exists v, nth_error (patch_pixels p) i = Some v /\ lo <= v <= hi) ->
       lo <= nth i result 0 <= hi).
  { intros i lo hi Hlo Hhi Hall.
    assert (Hi : (i < length (patch_pixels first))%nat).
    { destruct (Hall first (or_introl eq_refl)) as [v [Ev _]].
      apply nth_error_Some. congruence. }
    subst result patches. unfold InpaintingEngine.computeAverageContent.
    rewrite !map_map.
    rewrite nth_map_seq by exact Hi.
    destruct (patchSum_exact (first :: rest) i lo hi 0%Q 0 Hall Hlo Hhi)
      as [total [Htotal Hrange]]; [lia | | reflexivity |].
    { change (2 ^ 24) with 16777216. lia. }
    apply (clampedMean_bounds _ total); try assumption; cbn [length] in *; lia. }
  split; [exact Hbetween |].
  intros Hbytes Hsame.
  apply nth_ext with (d := 0) (d' := 0); [exact Hlen |].
  intros i Hi. rewrite Hlen in Hi.
  pose proof (proj1 (Forall_nth isByte (patch_pixels first)) Hbytes i 0 Hi) as Hb.
  assert (H : nth i (patch_pixels first) 0 <= nth i result 0
              <= nth i (patch_pixels first) 0).
  { apply Hbetween; [apply Hb | apply Hb |].
    intros p [<- | Hp].
    - exists (nth i (patch_pixels first) 0). split; [| lia].
      now apply nth_error_nth'.
    - rewrite (Hsame p Hp). exists (nth i (patch_pixels first) 0). split; [| lia].
      now apply nth_error_nth'. }
  lia.
Qed.

(** *** The hybrid blending mask *)

Lemma half_distance (x width : Z) :
  0 <= x < width ->
  ((IZR x - IZR width / 2) ^ 2 <= (IZR width / 2) ^ 2)%R /\
  (0 < x -> ((IZR x - IZR width / 2) ^ 2 < (IZR width / 2) ^ 2)%R).
Proof.
  intros [H0 H1].
  assert (Hx : (0 <= IZR x)%R) by (apply IZR_le; exact H0).
  assert (Hw : (IZR x + 1 <= IZR width)%R)
    by (rewrite <- plus_IZR; apply IZR_le; lia).
  split.
  - nra.
  - intros Hpos. assert (1 <= IZR x)%R by (apply IZR_le; lia). nra.
Qed.

Lemma hybridMaskValue_corner (region : Region) :
  1 <= region_width region -> 1 <= region_height region ->
  InpaintingEngine.hybridMaskValue region 0 0 = 255.
Proof.
  intros Hw Hh. unfold InpaintingEngine.hybridMaskValue. cbv zeta.
  assert (Hw' : (1 <= IZR (region_width region))%R) by (apply IZR_le; exact Hw).
  assert (Hh' : (1 <= IZR (region_height region))%R) by (apply IZR_le; exact Hh).
  set (w := IZR (region_width region)) in *. set (h := IZR (region_height region)) in *.
  replace ((0 - w / 2) ^ 2 + (0 - h / 2) ^ 2)%R with ((w / 2) ^ 2 + (h / 2) ^ 2)%R by ring.
  assert (Hpos : (0 < sqrt ((w / 2) ^ 2 + (h / 2) ^ 2))%R) by (apply sqrt_lt_R0; nra).
  replace (sqrt ((w / 2) ^ 2 + (h / 2) ^ 2) / sqrt ((w / 2) ^ 2 + (h / 2) ^ 2) * 255)%R
    with (IZR 255) by (field; lra).
  rewrite ZfloorZ. reflexivity.
Qed.

Lemma hybridMaskValue_elsewhere (region : Region) (x y : Z) :
  0 <= x < region_width region -> 0 <= y < region_height region ->
  0 < x \/ 0 < y ->
  0 <= InpaintingEngine.hybridMaskValue region x y <= 254.
Proof.
  intros Hx Hy Hxy. unfold InpaintingEngine.hybridMaskValue. cbv zeta.
  destruct (half_distance x (region_width region) Hx) as [Hx1 Hx2].
  destruct (half_distance y (region_height region) Hy) as [Hy1 Hy2].
  assert (Hw' : (1 <= IZR (region_width region))%R) by (apply IZR_le; lia).
  assert (Hh' : (1 <= IZR (region_height region))%R) by (apply IZR_le; lia).
  set (w := IZR (region_width region)) in *. set (h := IZR (region_height region)) in *.
  set (d2 := ((IZR x - w / 2) ^ 2 + (IZR y - h / 2) ^ 2)%R).
  set (m2 := ((w / 2) ^ 2 + (h / 2) ^ 2)%R).
  assert (Hd0 : (0 <= d2)%R)
    by (subst d2; apply Rplus_le_le_0_compat; apply pow2_ge_0).
  assert (Hlt : (d2 < m2)%R).
  { subst d2 m2. destruct Hxy as [H | H].
    - specialize (Hx2 H). lra.
    - specialize (Hy2 H). lra. }
  assert (Hm : (0 < sqrt m2)%R) by (apply sqrt_lt_R0; lra).
  assert (Hs : (0 <= sqrt d2 < sqrt m2)%R)
    by (split; [apply sqrt_pos | apply sqrt_lt_1; lra]).
  assert (Hn : (0 <= sqrt d2 / sqrt m2 < 1)%R).
  { split.
    - apply Rmult_le_pos; [tauto |]. left. now apply Rinv_0_lt_compat.
    - apply Rmult_lt_reg_r with (sqrt m2); [exact Hm |].
      unfold Rdiv. rewrite Rmult_assoc, Rinv_l by lra. lra. }
  assert (Hf : 0 <= Zfloor (sqrt d2 / sqrt m2 * 255) <= 254).
  { split.
    - apply Zfloor_lub. cbn. nra.
    - assert (Zfloor (sqrt d2 / sqrt m2 * 255) < 255); [| lia].
      apply Zfloor_below. nra. }
  rewrite toUint8_byte by lia. exact Hf.
Qed.

(** X13: the hybrid mask has one byte per pixel of the region; the byte of
    the top-left pixel is 255 and every other byte is at most 254. *)
Theorem createHybridBlendingMask_profile (region : Region) :
  1 <= region_width region -> 1 <= region_height region ->
  let mask := InpaintingEngine.createHybridBlendingMask region in
  length mask = Z.to_nat (region_width region * region_height region) /\
  nth 0 mask 0 = 255 /\
  forall x y, 0 <= x < region_width region -> 0 <= y < region_height region ->
    0 < x \/ 0 < y ->
    0 <= nth (Z.to_nat (y * region_width region + x)) mask 0 <= 254.
Proof.
  intros Hw Hh mask. subst mask. unfold InpaintingEngine.createHybridBlendingMask.
  split; [| split].
  - apply rows_length; lia.
  - pose proof (rows_nth (InpaintingEngine.hybridMaskValue region) (region_width region)
                  (region_height region) 0 0 0 ltac:(lia) ltac:(lia)) as H.
    cbn [Z.mul Z.add Z.to_nat] in H. rewrite H.
    now apply hybridMaskValue_corner.
  - intros x y Hx Hy Hxy.
    rewrite (rows_nth (InpaintingEngine.hybridMaskValue region)) by assumption.
    now apply hybridMaskValue_elsewhere.
Qed.

Lemma createHybridBlendingMask_profile_witness :
  let mask := InpaintingEngine.createHybridBlendingMask (mkRegion 4 4 3 2) in
  length mask = Z.to_nat (3 * 2) /\ nth 0 mask 0 = 255.
Proof.
  cbv zeta.
  destruct (createHybridBlendingMask_profile (mkRegion 4 4 3 2)) as [Hlen [Hcorner _]].
  - cbn. lia.
  - cbn. lia.
  - split; [exact Hlen | exact Hcorner].
Defined.

(** *** The gradient mask *)

Lemma isInsideRegion_spec (x y : Z) (region : Region) :
  EdgeFeatherer.isInsideRegion x y region = true <->
  region_x region <= x < region_x region + region_width region /\
  region_y region <= y < region_y region + region_height region.
Proof.
  unfold EdgeFeatherer.isInsideRegion.
  rewrite !andb_true_iff, !Z.geb_le, !Z.ltb_lt. tauto.
Qed.

(** The byte of a gradient: [Math.floor(t / extent * 255)] for an offset
    [0 <= t < extent]. *)
Lemma gradientByte_range (t extent : Z) :
  0 <= t < extent ->
  0 <= toUint8 (Qfloor (inject_Z t / inject_Z extent * 255)) <= 254 /\
  toUint8 (Qfloor (inject_Z t / inject_Z extent * 255))
  = Qfloor (inject_Z t / inject_Z extent * 255).
Proof.
  intros Ht.
  assert (He : (0 < inject_Z extent)%Q)
    by (change 0%Q with (inject_Z 0); rewrite <- Zlt_Qlt; lia).
  assert (H0 : (0 <= inject_Z t / inject_Z extent)%Q).
  { apply Qle_shift_div_l; [exact He |]. rewrite Qmult_0_l.
    change 0%Q with (inject_Z 0). rewrite <- Zle_Qle. lia. }
  assert (H1 : (inject_Z t / inject_Z extent < 1)%Q).
  { apply Qlt_shift_div_r; [exact He |]. rewrite Qmult_1_l.
    rewrite <- Zlt_Qlt. lia. }
  assert (Hlo : 0 <= Qfloor (inject_Z t / inject_Z extent * 255)).
  { change 0 with (Qfloor 0). apply Qfloor_resp_le.
    apply Qmult_le_0_compat; [exact H0 | discriminate]. }
  assert (Hhi : Qfloor (inject_Z t / inject_Z extent * 255) < 255).
  { rewrite Zlt_Qlt. eapply Qle_lt_trans; [apply Qfloor_le |].
    change (inject_Z 255) with (1 * 255)%Q.
    apply Qmult_lt_compat_r; [reflexivity | exact H1]. }
  rewrite toUint8_byte by lia. lia.
Qed.

Lemma gradientByte_monotone (t t' extent : Z) :
  0 <= t <= t' -> t' < extent ->
  toUint8 (Qfloor (inject_Z t / inject_Z extent * 255))
  <= toUint8 (Qfloor (inject_Z t' / inject_Z extent * 255)).
Proof.
  intros Ht Ht'.
  rewrite (proj2 (gradientByte_range t extent ltac:(lia))).
  rewrite (proj2 (gradientByte_range t' extent ltac:(lia))).
  apply Qfloor_resp_le.
  assert (He : (0 < inject_Z extent)%Q)
    by (change 0%Q with (inject_Z 0); rewrite <- Zlt_Qlt; lia).
  apply Qmult_le_compat_r; [| discriminate].
  unfold Qdiv. apply Qmult_le_compat_r.
  - rewrite <- Zle_Qle. lia.
  - apply Qlt_le_weak. now apply Qinv_lt_0_compat.
Qed.

Lemma gradientPixel_inside (region : Region) (direction : EdgeFeatherer.GradientDirection)
  (x y : Z) :
  EdgeFeatherer.isInsideRegion x y region = true ->
  EdgeFeatherer.gradientPixel region direction x y =
  match direction with
  | EdgeFeatherer.horizontal =>
      toUint8 (Qfloor (inject_Z (x - region_x region) / inject_Z (region_width region) * 255))
  | EdgeFeatherer.vertical =>
      toUint8 (Qfloor (inject_Z (y - region_y region) / inject_Z (region_height region) * 255))
  end.
Proof.
  intros Hin. unfold EdgeFeatherer.gradientPixel. rewrite Hin. now destruct direction.
Qed.

(** X14: the gradient mask has one byte per pixel of the image, is 0 outside
    the region and at the first column (row) of the region, stays below 255
    inside it and does not decrease along the direction of the gradient. *)
Theorem createGradientMask_profile (region : Region) (imageSize : Size)
  (direction : EdgeFeatherer.GradientDirection) :
  0 <= size_width imageSize -> 0 <= size_height imageSize ->
  let mask := EdgeFeatherer.createGradientMask region imageSize direction in
  let value x y := nth (Z.to_nat (y * size_width imageSize + x)) mask 0 in
  let offset x y :=
    match direction with
    | EdgeFeatherer.horizontal => x - region_x region
    | EdgeFeatherer.vertical => y - region_y region
    end in
  length mask = Z.to_nat (size_width imageSize * size_height imageSize) /\
  forall x y, 0 <= x < size_width imageSize -> 0 <= y < size_height imageSize ->
    (EdgeFeatherer.isInsideRegion x y region = false -> value x y = 0) /\
    (EdgeFeatherer.isInsideRegion x y region = true ->
     0 <= value x y <= 254 /\
     (offset x y = 0 -> value x y = 0) /\
     forall x' y', 0 <= x' < size_width imageSize -> 0 <= y' < size_height imageSize ->
       EdgeFeatherer.isInsideRegion x' y' region = true ->
       offset x y <= offset x' y' -> value x y <= value x' y').
Proof.
  intros HW HH mask value offset. subst mask value offset.
  unfold EdgeFeatherer.createGradientMask. cbv beta.
  split; [apply rows_length; assumption |].
  intros x y Hx Hy.
  rewrite (rows_nth (EdgeFeatherer.gradientPixel region direction)) by assumption.
  split.
  - intros Hout. unfold EdgeFeatherer.gradientPixel. now rewrite Hout.
  - intros Hin. rewrite (gradientPixel_inside region direction x y Hin).
    pose proof (proj1 (isInsideRegion_spec x y region) Hin) as [Hix Hiy].
    split; [| split].
    + destruct direction; apply gradientByte_range; lia.
    + intros H0. destruct direction; rewrite H0; reflexivity.
    + intros x' y' Hx' Hy' Hin' Hle.
      rewrite (rows_nth (EdgeFeatherer.gradientPixel region direction)) by assumption.
      rewrite (gradientPixel_inside region direction x' y' Hin').
      pose proof (proj1 (isInsideRegion_spec x' y' region) Hin') as [Hix' Hiy'].
      destruct direction; apply gradientByte_monotone; lia.
Qed.

Lemma createGradientMask_profile_witness :
  length (EdgeFeatherer.createGradientMask (mkRegion 1 1 2 2) (mkSize 4 4)
            EdgeFeatherer.horizontal)
  = Z.to_nat (4 * 4).
Proof.
  apply (createGradientMask_profile (mkRegion 1 1 2 2) (mkSize 4 4)
           EdgeFeatherer.horizontal); cbn; lia.
Defined.

(** *** Edge-aware smoothing *)

Lemma storeAt_length {A : Type} (l : list A) (i : Z) (v : A) :
  length (storeAt l i v) = length l.
Proof.
  unfold storeAt.
  destruct ((i <? 0) || (Z.of_nat (length l) <=? i)) eqn:E; [reflexivity |].
  apply orb_false_iff in E. rewrite Z.ltb_ge, Z.leb_gt in E.
  rewrite length_app, length_firstn. cbn [length]. rewrite length_skipn. lia.
Qed.

Lemma storeAt_Forall {A : Type} (P : A -> Prop) (l : list A) (i : Z) (v : A) :
  Forall P l -> P v -> Forall P (storeAt l i v).
Proof.
  intros Hl Hv. unfold storeAt.
  destruct ((i <? 0) || (Z.of_nat (length l) <=? i)); [exact Hl |].
  apply Forall_app. split.
  - now apply Forall_firstn_skipn.
  - constructor; [exact Hv |]. now apply Forall_firstn_skipn.
Qed.

Lemma nth_map_in {A B : Type} (f : A -> B) (l : list A) (i : nat) (d : B) (d' : A) :
  (i < length l)%nat -> nth i (map f l) d = f (nth i l d').
Proof.
  intros Hi. rewrite nth_indep with (d' := f d') by (rewrite length_map; lia).
  apply map_nth.
Qed.

Lemma fold_addRead_bounds (values : list (option Z)) (lo hi acc s : Z) :
  Forall (fun v => forall b, v = Some b -> lo <= b <= hi) values ->
  fold_left EdgeFeatherer.addRead values (Some acc) = Some s ->
  acc + lo * Z.of_nat (length values) <= s <= acc + hi * Z.of_nat (length values).
Proof.
  revert acc. induction values as [| v values IH]; intros acc Hall Hs.
  - cbn in Hs. injection Hs as <-. cbn. lia.
  - inversion Hall as [| v' l' Hv Hrest]; subst.
    cbn [fold_left] in Hs. destruct v as [b |].
    + cbn [EdgeFeatherer.addRead] in Hs.
      specialize (IH (acc + b) Hrest Hs). specialize (Hv b eq_refl).
      cbn [length]. lia.
    + cbn [EdgeFeatherer.addRead] in Hs.
      assert (Hnone : forall l, fold_left EdgeFeatherer.addRead l None = None)
        by (induction l; [reflexivity | assumption]).
      rewrite Hnone in Hs. discriminate.
Qed.

Lemma neighbourhood_reads (mask : Buffer) (imageSize : Size) (x y lo hi : Z) :
  Forall (fun b => lo <= b <= hi) mask ->
  Forall (fun v => forall b, v = Some b -> lo <= b <= hi)
         (EdgeFeatherer.neighbourhood mask imageSize x y).
Proof.
  intros Hmask. unfold EdgeFeatherer.neighbourhood. cbv zeta.
  apply Forall_flat_map, Forall_forall. intros ky _.
  apply Forall_flat_map, Forall_forall. intros kx _.
  destruct (_ && _); [| constructor].
  constructor; [| constructor].
  intros b Hb. unfold readAt in Hb.
  destruct (_ <? 0); [discriminate |].
  apply nth_error_In in Hb.
  exact (proj1 (Forall_forall _ mask) Hmask b Hb).
Qed.

Lemma smoothedValue_bounds (mask : Buffer) (imageSize : Size) (x y lo hi : Z) :
  0 <= lo -> hi <= 255 ->
  Forall (fun b => lo <= b <= hi) mask ->
  let v := EdgeFeatherer.smoothedValue mask imageSize x y in
  v = 0 \/ lo <= v <= hi.
Proof.
  intros Hlo Hhi Hmask v. subst v. unfold EdgeFeatherer.smoothedValue. cbv zeta.
  set (values := EdgeFeatherer.neighbourhood mask imageSize x y).
  destruct (fold_left EdgeFeatherer.addRead values (Some 0)) as [s |] eqn:Es;
    [| now left].
  destruct (Z.of_nat (length values) =? 0) eqn:En; [now left |].
  apply Z.eqb_neq in En. right.
  pose proof (fold_addRead_bounds values lo hi 0 s
                (neighbourhood_reads mask imageSize x y lo hi Hmask) Es) as Hs.
  set (n := Z.of_nat (length values)) in *.
  assert (Hn : 0 < n) by lia.
  assert (Hn' : (0 < inject_Z n)%Q)
    by (change 0%Q with (inject_Z 0); rewrite <- Zlt_Qlt; exact Hn).
  assert (Hf : lo <= Qfloor (inject_Z s / inject_Z n) <= hi).
  { split.
    - rewrite <- (Qfloor_Z lo). apply Qfloor_resp_le.
      apply Qle_shift_div_l; [exact Hn' |].
      rewrite <- inject_Z_mult, <- Zle_Qle. lia.
    - rewrite <- (Qfloor_Z hi). apply Qfloor_resp_le.
      apply Qle_shift_div_r; [exact Hn' |].
      rewrite <- inject_Z_mult, <- Zle_Qle. lia. }
  rewrite toUint8_byte by lia. exact Hf.
Qed.

(** X15: [applyEdgeAwareSmoothing] keeps the length of the mask and every
    range of bytes the mask lies in, and its result is 0 only where the mask
    is 0. *)
Theorem applyEdgeAwareSmoothing_keeps_range (mask edgeMap : Buffer) (imageSize : Size) :
  let result := EdgeFeatherer.applyEdgeAwareSmoothing mask edgeMap imageSize in
  length result = length mask /\
  (forall lo hi, 0 <= lo -> hi <= 255 ->
     Forall (fun b => lo <= b <= hi) mask -> Forall (fun b => lo <= b <= hi) result) /\
  (forall i, nth i result 0 = 0 -> nth i mask 0 = 0).
Proof.
  cbv zeta. unfold EdgeFeatherer.applyEdgeAwareSmoothing. cbv zeta.
  set (smoothed := fold_left _ _ (repeat 0 (length mask))).
  assert (Hlen : length smoothed = length mask).
  { subst smoothed.
    apply (fold_left_preserves (fun l : Buffer => length l = length mask)).
    - intros l y _ Hl.
      apply (fold_left_preserves (fun l : Buffer => length l = length mask));
        [| exact Hl].
      intros l' x _ Hl'. destruct (EdgeFeatherer.isNearEdge _ _ _ _);
        now rewrite storeAt_length.
    - apply repeat_length. }
  split; [| split].
  - rewrite length_map, length_combine, Hlen. lia.
  - intros lo hi Hlo Hhi Hmask.
    assert (Hsm : Forall (fun v => v = 0 \/ lo <= v <= hi) smoothed).
    { subst smoothed.
      apply (fold_left_preserves (Forall (fun v => v = 0 \/ lo <= v <= hi))).
      - intros l y _ Hl.
        apply (fold_left_preserves (Forall (fun v => v = 0 \/ lo <= v <= hi)));
          [| exact Hl].
        intros l' x _ Hl'.
        destruct (EdgeFeatherer.isNearEdge _ _ _ _); apply storeAt_Forall;
          try exact Hl'.
        + unfold byteOrZero, readAt.
          destruct (_ <? 0); [now left |].
          destruct (nth_error mask _) as [b |] eqn:Eb; [| now left].
          apply nth_error_In in Eb.
          pose proof (proj1 (Forall_forall _ mask) Hmask b Eb) as Hb.
          cbn beta in Hb.
          right. rewrite toUint8_byte by lia. exact Hb.
        + now apply smoothedValue_bounds.
      - apply Forall_forall. intros v Hv. apply repeat_spec in Hv. now left. }
    apply Forall_map, Forall_forall. intros [sv mv] Hin. cbn [fst snd].
    pose proof (in_combine_l _ _ _ _ Hin) as Hs.
    pose proof (in_combine_r _ _ _ _ Hin) as Hm.
    pose proof (proj1 (Forall_forall _ smoothed) Hsm sv Hs) as Hsv.
    pose proof (proj1 (Forall_forall _ mask) Hmask mv Hm) as Hmv.
    cbn beta in Hsv, Hmv.
    destruct (sv =? 0) eqn:E0; [exact Hmv |].
    apply Z.eqb_neq in E0. lia.
  - intros i.
    destruct (Nat.lt_ge_cases i (length mask)) as [Hi | Hi].
    + rewrite nth_map_in with (d' := (0, 0)) by (rewrite length_combine, Hlen; lia).
      rewrite combine_nth by exact Hlen. cbn [fst snd].
      destruct (nth i smoothed 0 =? 0) eqn:E0; [tauto |].
      apply Z.eqb_neq in E0. intros H. contradiction.
    + intros _. apply nth_overflow. exact Hi.
Qed.

(** *** Patches of the sampler *)

Lemma isValidSamplePosition_spec (x y width height : Z) :
  MultiDirectionalSampler.isValidSamplePosition x y width height = true <->
  16 <= x < width - 16 /\ 16 <= y < height - 16.
Proof.
  unfold MultiDirectionalSampler.isValidSamplePosition, PATCH_SIZE.
  rewrite !andb_true_iff, !Z.geb_le, !Z.ltb_lt. tauto.
Qed.

Lemma nth_rangeFrom (lo hi : Z) (k : nat) (d : Z) :
  (k < Z.to_nat (hi - lo))%nat -> nth k (rangeFrom lo hi) d = lo + Z.of_nat k.
Proof.
  intros Hk. unfold rangeFrom. now rewrite nth_map_range.
Qed.

(** The bytes of a patch: three nested loops. *)
Lemma patch_blocks_nth (f : Z -> Z -> Z -> Z) (startX startY channels : Z) (j i c : Z) :
  0 <= j < 16 -> 0 <= i < 16 -> 0 <= c < channels ->
  nth (Z.to_nat ((j * 16 + i) * channels + c))
      (flat_map (fun y =>
         flat_map (fun x => map (fun c => f x y c) (range channels))
                  (rangeFrom startX (startX + 16)))
         (rangeFrom startY (startY + 16))) 0
  = f (startX + i) (startY + j) c.
Proof.
  intros Hj Hi Hc.
  replace (Z.to_nat ((j * 16 + i) * channels + c))
    with (Z.to_nat j * (16 * Z.to_nat channels) + (Z.to_nat i * Z.to_nat channels + Z.to_nat c))%nat
    by nia.
  rewrite nth_flat_map_blocks with (k := (16 * Z.to_nat channels)%nat) (b0 := 0).
  - rewrite nth_rangeFrom by lia.
    rewrite nth_flat_map_blocks with (k := Z.to_nat channels) (b0 := 0).
    + rewrite nth_rangeFrom by lia. rewrite nth_map_range by lia.
      rewrite !Z2Nat.id by lia. reflexivity.
    + intros b _. now rewrite length_map, range_length.
    + rewrite rangeFrom_length. lia.
    + lia.
  - intros b _. rewrite length_flat_map_blocks with (k := Z.to_nat channels).
    + rewrite rangeFrom_length. lia.
    + intros b' _. now rewrite length_map, range_length.
  - rewrite rangeFrom_length. lia.
  - nia.
Qed.

Lemma patch_blocks_length (f : Z -> Z -> Z -> Z) (startX startY channels : Z) :
  0 <= channels ->
  length (flat_map (fun y =>
            flat_map (fun x => map (fun c => f x y c) (range channels))
                     (rangeFrom startX (startX + 16)))
            (rangeFrom startY (startY + 16)))
  = Z.to_nat (16 * 16 * channels).
Proof.
  intros Hc.
  rewrite length_flat_map_blocks with (k := (16 * Z.to_nat channels)%nat).
  - rewrite rangeFrom_length. lia.
  - intros b _. rewrite length_flat_map_blocks with (k := Z.to_nat channels).
    + rewrite rangeFrom_length. lia.
    + intros b' _. now rewrite length_map, range_length.
Qed.

(** X16: at a valid sample position [extractPatchAt] returns a patch: its
    position is the centre moved by 8 to the top left, its size is 16x16, it
    holds [256 * channels] bytes, and on an image buffer of bytes that is
    long enough they are the bytes of that window of the image. *)
Theorem extractPatchAt_valid_position (pixels : Buffer)
  (width height channels centerX centerY : Z) :
  MultiDirectionalSampler.isValidSamplePosition centerX centerY width height = true ->
  0 <= channels ->
  exists patch,
    MultiDirectionalSampler.extractPatchAt pixels width height channels centerX centerY = Some patch /\
    patch_position patch = (inject_Z (centerX - 8), inject_Z (centerY - 8)) /\
    patch_size patch = mkSize 16 16 /\
    length (patch_pixels patch) = Z.to_nat (16 * 16 * channels) /\
    (Forall isByte pixels ->
     width * height * channels <= Z.of_nat (length pixels) ->
     forall j i c, 0 <= j < 16 -> 0 <= i < 16 -> 0 <= c < channels ->
       nth (Z.to_nat ((j * 16 + i) * channels + c)) (patch_pixels patch) 0
       = nth (Z.to_nat (((centerY - 8 + j) * width + (centerX - 8 + i)) * channels + c))
             pixels 0).
Proof.
  intros Hvalid Hch. apply isValidSamplePosition_spec in Hvalid.
  unfold MultiDirectionalSampler.extractPatchAt, PATCH_SIZE. cbv zeta.
  change (16 / 2) with 8.
  replace (_ || _) with false
    by (symmetry; rewrite !orb_false_iff, !Z.ltb_ge, !Z.geb_leb, !Z.leb_gt; lia).
  eexists. split; [reflexivity |].
  cbn [patch_position patch_size patch_pixels].
  split; [reflexivity |]. split; [reflexivity |]. split.
  - rewrite (patch_blocks_length
               (fun x y c => byteOrZero (readAt pixels ((y * width + x) * channels + c))))
      by exact Hch.
    reflexivity.
  - intros Hbytes Hlen j i c Hj Hi Hc.
    rewrite (patch_blocks_nth
               (fun x y c => byteOrZero (readAt pixels ((y * width + x) * channels + c))))
      by assumption.
    cbv beta.
    assert (Hidx : 0 <= ((centerY - 8 + j) * width + (centerX - 8 + i)) * channels + c
                   < Z.of_nat (length pixels)).
    { set (row := centerY - 8 + j). set (col := centerX - 8 + i).
      assert (Hrow : 0 <= row < height) by (subst row; lia).
      assert (Hcol : 0 <= col < width) by (subst col; lia).
      assert (H0 : 0 <= row * width) by (apply Z.mul_nonneg_nonneg; lia).
      assert (H1 : row * width + col + 1 <= width * height).
      { assert ((row + 1) * width <= height * width)
          by (apply Z.mul_le_mono_nonneg_r; lia).
        lia. }
      assert (H2 : 0 <= (row * width + col) * channels)
        by (apply Z.mul_nonneg_nonneg; lia).
      assert (H3 : (row * width + col + 1) * channels <= width * height * channels)
        by (apply Z.mul_le_mono_nonneg_r; lia).
      lia. }
    rewrite readAt_nth by exact Hidx. cbn [byteOrZero].
    apply toUint8_byte.
    apply (proj1 (Forall_nth isByte pixels) Hbytes). lia.
Qed.

Lemma extractPatchAt_valid_position_witness :
  exists patch,
    MultiDirectionalSampler.extractPatchAt (Sharp.image_data (Sample.flatImage 40 40 7))
      40 40 3 20 20 = Some patch /\
    patch_position patch = (inject_Z (20 - 8), inject_Z (20 - 8)) /\
    patch_size patch = mkSize 16 16.
Proof.
  destruct (extractPatchAt_valid_position (Sharp.image_data (Sample.flatImage 40 40 7))
              40 40 3 20 20) as [patch [Hpatch [Hposition [Hsize _]]]].
  - reflexivity.
  - lia.
  - exists patch. split; [exact Hpatch |]. split; [exact Hposition | exact Hsize].
Defined.

(** *** Prefixes of a list *)

Lemma slice0_length_le {A : Type} (l : list A) (n : Z) :
  0 <= n -> (length (slice0 l n) <= Z.to_nat n)%nat.
Proof.
  intros Hn. unfold slice0.
  replace (n <? 0) with false by (symmetry; apply Z.ltb_ge; lia).
  rewrite length_firstn. lia.
Qed.

Lemma slice0_length {A : Type} (l : list A) (n : Z) :
  0 <= n -> length (slice0 l n) = Nat.min (Z.to_nat n) (length l).
Proof.
  intros Hn. unfold slice0.
  replace (n <? 0) with false by (symmetry; apply Z.ltb_ge; lia).
  apply length_firstn.
Qed.

Lemma firstn_In {A : Type} (n : nat) (l : list A) (a : A) :
  In a (firstn n l) -> In a l.
Proof.
  intros Ha. rewrite <- (firstn_skipn n l). apply in_or_app. now left.
Qed.

Lemma slice0_In {A : Type} (l : list A) (n : Z) (a : A) : In a (slice0 l n) -> In a l.
Proof.
  unfold slice0. destruct (n <? 0); apply firstn_In.
Qed.

(** *** The sampler on small images *)

(** The loop of [extractPatchesInDirection] ends exactly when the radius
    is below [8 * 2^53]. *)
Lemma samplePositions_defined (region : Region)
  (direction : MultiDirectionalSampler.Direction) (sampleRadius : Q) :
  ((sampleRadius < inject_Z (8 * 2 ^ 53))%Q ->
   exists positions,
     MultiDirectionalSampler.samplePositions region direction sampleRadius
     = Some positions) /\
  ((inject_Z (8 * 2 ^ 53) <= sampleRadius)%Q ->
   MultiDirectionalSampler.samplePositions region direction sampleRadius = None).
Proof.
  unfold MultiDirectionalSampler.samplePositions. cbv zeta.
  change (inject_Z SAMPLE_DISTANCE) with 8%Q.
  set (numSamples := Qfloor (sampleRadius / 8)).
  assert (Hq : (sampleRadius / 8 * 8 == sampleRadius)%Q) by (field; discriminate).
  pose proof (Qfloor_le (sampleRadius / 8)) as Hf1.
  pose proof (Qlt_floor (sampleRadius / 8)) as Hf2.
  fold numSamples in Hf1, Hf2.
  rewrite inject_Z_plus in Hf2. change (inject_Z 1) with 1%Q in Hf2.
  rewrite inject_Z_mult. change (inject_Z 8) with 8%Q.
  split.
  - intros Hsmall.
    replace (2 ^ 53 <=? numSamples) with false; [eexists; reflexivity |].
    symmetry. apply Z.leb_gt. rewrite Zlt_Qlt. lra.
  - intros Hlarge.
    replace (2 ^ 53 <=? numSamples) with true; [reflexivity |].
    symmetry. apply Z.leb_le. apply Z.lt_succ_r. rewrite Zlt_Qlt.
    replace (Z.succ numSamples) with (numSamples + 1) by lia.
    rewrite inject_Z_plus. change (inject_Z 1) with 1%Q. lra.
Qed.

Lemma extractPatchesInDirection_length (pixels : Buffer) (width height channels : Z)
  (region : Region) (direction : MultiDirectionalSampler.Direction) (sampleRadius : Q)
  (patches : list Patch) :
  MultiDirectionalSampler.extractPatchesInDirection pixels width height channels region
    direction sampleRadius = inr patches ->
  (length patches <= 20)%nat.
Proof.
  unfold MultiDirectionalSampler.extractPatchesInDirection.
  destruct (MultiDirectionalSampler.samplePositions region direction sampleRadius);
    [| discriminate].
  cbv zeta. intros H. injection H as <-.
  apply (slice0_length_le _ 20). lia.
Qed.

Lemma extractPatchesInDirection_small (pixels : Buffer) (width height channels : Z)
  (region : Region) (direction : MultiDirectionalSampler.Direction) (sampleRadius : Q) :
  width <= 32 \/ height <= 32 -> (sampleRadius < inject_Z (8 * 2 ^ 53))%Q ->
  MultiDirectionalSampler.extractPatchesInDirection pixels width height channels region
    direction sampleRadius = inr [].
Proof.
  intros Hsmall Hradius. unfold MultiDirectionalSampler.extractPatchesInDirection.
  destruct (proj1 (samplePositions_defined region direction sampleRadius) Hradius)
    as [positions ->].
  cbv zeta.
  assert (Hnone : forall l : list (Z * Z),
    flat_map (fun position : Z * Z =>
      let (px, py) := position in
      if MultiDirectionalSampler.isValidSamplePosition px py width height then
        match MultiDirectionalSampler.extractPatchAt pixels width height channels px py with
        | Some patch => [patch]
        | None => []
        end
      else []) l = []).
  { induction l as [| [px py] l IH]; [reflexivity |].
    cbn [flat_map]. rewrite IH.
    destruct (MultiDirectionalSampler.isValidSamplePosition px py width height) eqn:E;
      [| reflexivity].
    apply isValidSamplePosition_spec in E. lia. }
  rewrite Hnone. reflexivity.
Qed.

Lemma sampleSurroundingContent_no_patches (image : Sharp.Image) (region : Region)
  (sampleRadius : Q) :
  Sharp.image_width image <> 0 -> Sharp.image_height image <> 0 ->
  Sharp.image_width image <= 32 \/ Sharp.image_height image <= 32 ->
  (sampleRadius < inject_Z (8 * 2 ^ 53))%Q ->
  MultiDirectionalSampler.sampleSurroundingContent image region sampleRadius
  = inr (MultiDirectionalSampler.mkSamples [] [] [] [] [] [] [] []).
Proof.
  intros HW HH Hsmall Hradius. unfold MultiDirectionalSampler.sampleSurroundingContent.
  replace (_ || _) with false
    by (symmetry; apply orb_false_iff; rewrite !Z.eqb_neq; tauto).
  cbv zeta. now rewrite !extractPatchesInDirection_small by assumption.
Qed.

(** X17: [sampleSurroundingContent], when it returns, returns at most 160
    patches; for a radius below [8 * 2^53] and an image of at most 32 pixels
    in one direction it returns no patch, in every direction; for a radius
    of [8 * 2^53] or more it never returns, because the sampling loop counts
    in doubles and has no other exit. *)
Theorem sampleSurroundingContent_small_image (image : Sharp.Image) (region : Region)
  (sampleRadius : Q) :
  (forall samples,
     MultiDirectionalSampler.sampleSurroundingContent image region sampleRadius
     = inr samples ->
     (length (MultiDirectionalSampler.allPatches samples) <= 160)%nat) /\
  (Sharp.image_width image <> 0 -> Sharp.image_height image <> 0 ->
   ((sampleRadius < inject_Z (8 * 2 ^ 53))%Q ->
    Sharp.image_width image <= 32 \/ Sharp.image_height image <= 32 ->
    MultiDirectionalSampler.sampleSurroundingContent image region sampleRadius
    = inr (MultiDirectionalSampler.mkSamples [] [] [] [] [] [] [] [])) /\
   ((inject_Z (8 * 2 ^ 53) <= sampleRadius)%Q ->
    MultiDirectionalSampler.sampleSurroundingContent image region sampleRadius
    = inl NeverReturns)).
Proof.
  split.
  - intros samples. unfold MultiDirectionalSampler.sampleSurroundingContent.
    destruct (_ || _); [discriminate |]. cbv zeta.
    pose proof (fun d => extractPatchesInDirection_length (Sharp.image_data image)
                  (Sharp.image_width image) (Sharp.image_height image) Sharp.channels
                  region d sampleRadius) as H.
    repeat match goal with
           | |- context [bind (MultiDirectionalSampler.extractPatchesInDirection
                                 ?p ?w ?h ?c ?r ?d ?s) _] =>
               let Hd := fresh "Hd" in
               pose proof (H d) as Hd;
               destruct (MultiDirectionalSampler.extractPatchesInDirection p w h c r d s);
               [discriminate |]; specialize (Hd _ eq_refl); cbn [bind]
           end.
    intros Hs. injection Hs as <-. unfold MultiDirectionalSampler.allPatches.
    cbn [MultiDirectionalSampler.samples_north MultiDirectionalSampler.samples_northeast
         MultiDirectionalSampler.samples_east MultiDirectionalSampler.samples_southeast
         MultiDirectionalSampler.samples_south MultiDirectionalSampler.samples_southwest
         MultiDirectionalSampler.samples_west MultiDirectionalSampler.samples_northwest].
    rewrite !length_app. lia.
  - intros HW HH. split.
    + intros Hradius Hsmall. now apply sampleSurroundingContent_no_patches.
    + intros Hradius. unfold MultiDirectionalSampler.sampleSurroundingContent.
      replace (_ || _) with false
        by (symmetry; apply orb_false_iff; rewrite !Z.eqb_neq; tauto).
      cbv zeta. unfold MultiDirectionalSampler.extractPatchesInDirection.
      now rewrite (proj2 (samplePositions_defined region MultiDirectionalSampler.north
                            sampleRadius) Hradius).
Qed.

(** *** The selection and the blend of the patches *)

Lemma insertBySimilarity_length (item : Patch * R) (sorted : list (Patch * R)) :
  length (MultiDirectionalSampler.insertBySimilarity item sorted) = Datatypes.S (length sorted).
Proof.
  induction sorted as [| head rest IH]; [reflexivity |].
  cbn [MultiDirectionalSampler.insertBySimilarity]. destruct (Rlt_dec _ _); cbn [length]; [reflexivity |].
  now rewrite IH.
Qed.

Lemma insertBySimilarity_In (item : Patch * R) (sorted : list (Patch * R))
  (a : Patch * R) :
  In a (MultiDirectionalSampler.insertBySimilarity item sorted) <-> a = item \/ In a sorted.
Proof.
  induction sorted as [| head rest IH].
  - cbn. intuition congruence.
  - cbn [MultiDirectionalSampler.insertBySimilarity]. destruct (Rlt_dec _ _).
    + cbn [In]. intuition congruence.
    + cbn [In]. rewrite IH. intuition congruence.
Qed.

Lemma sortBySimilarity_acc (items acc : list (Patch * R)) :
  let sorted := fold_left (fun sorted item => MultiDirectionalSampler.insertBySimilarity item sorted) items acc in
  length sorted = (length items + length acc)%nat /\
  forall a, In a sorted <-> In a items \/ In a acc.
Proof.
  revert acc. induction items as [| item items IH]; intros acc; cbn zeta.
  - cbn. split; [reflexivity | intuition].
  - cbn [fold_left]. destruct (IH (MultiDirectionalSampler.insertBySimilarity item acc)) as [Hlen Hin].
    cbn zeta in Hlen, Hin. split.
    + rewrite Hlen, insertBySimilarity_length. cbn [length]. lia.
    + intros a. rewrite Hin, insertBySimilarity_In. cbn [In]. intuition congruence.
Qed.

Lemma sortBySimilarity_length (items : list (Patch * R)) :
  length (MultiDirectionalSampler.sortBySimilarity items) = length items.
Proof.
  unfold MultiDirectionalSampler.sortBySimilarity.
  destruct (sortBySimilarity_acc items []) as [H _]. cbn zeta in H.
  rewrite H. cbn [length]. lia.
Qed.

Lemma sortBySimilarity_In (items : list (Patch * R)) (a : Patch * R) :
  In a (MultiDirectionalSampler.sortBySimilarity items) <-> In a items.
Proof.
  unfold MultiDirectionalSampler.sortBySimilarity.
  destruct (sortBySimilarity_acc items []) as [_ H]. cbn zeta in H.
  rewrite H. cbn [In]. tauto.
Qed.

Lemma computeAdaptiveWeights_length (similarities : list R) :
  length (MultiDirectionalSampler.computeAdaptiveWeights similarities) = length similarities.
Proof.
  unfold MultiDirectionalSampler.computeAdaptiveWeights. destruct similarities as [| first rest]; [reflexivity |].
  cbv zeta. destruct (Req_dec_T _ _); now rewrite ?length_map.
Qed.

(** X18: [selectBestPatches] returns [min maxPatches n] of the [n] patches
    it was given and as many weights; blending its result with
    [weightAndBlendPatches] fails exactly when no patch was given or
    [maxPatches] is 0. *)
Theorem selectBestPatches_lengths (patches : list Patch) (referencePatch : Patch)
  (maxPatches : Z) :
  0 <= maxPatches ->
  let selected := MultiDirectionalSampler.selectBestPatches patches referencePatch maxPatches in
  length (fst selected) = Nat.min (Z.to_nat maxPatches) (length patches) /\
  length (snd selected) = length (fst selected) /\
  (forall patch, In patch (fst selected) -> In patch patches) /\
  ((exists e, MultiDirectionalSampler.weightAndBlendPatches (fst selected) (snd selected) = inl e) <->
   patches = [] \/ maxPatches = 0).
Proof.
  intros Hmax selected. subst selected. unfold MultiDirectionalSampler.selectBestPatches. cbv zeta.
  cbn [fst snd].
  set (sorted := MultiDirectionalSampler.sortBySimilarity _).
  assert (Hsorted : length sorted = length patches)
    by (subst sorted; now rewrite sortBySimilarity_length, length_map).
  assert (H1 : length (map fst (slice0 sorted maxPatches))
               = Nat.min (Z.to_nat maxPatches) (length patches))
    by (now rewrite length_map, slice0_length, Hsorted).
  assert (H2 : length (MultiDirectionalSampler.computeAdaptiveWeights (map snd (slice0 sorted maxPatches)))
               = length (map fst (slice0 sorted maxPatches)))
    by (now rewrite computeAdaptiveWeights_length, !length_map).
  split; [exact H1 |]. split; [exact H2 |]. split.
  - intros patch Hin. apply in_map_iff in Hin. destruct Hin as [[p r] [Hp Hin]].
    cbn in Hp. subst p. apply slice0_In in Hin.
    subst sorted. apply (proj1 (sortBySimilarity_In _ _)) in Hin.
    apply in_map_iff in Hin. destruct Hin as [q [Hq Hin]]. now injection Hq as -> _.
  - unfold MultiDirectionalSampler.weightAndBlendPatches. rewrite H2, Nat.eqb_refl. cbn [negb orb].
    rewrite orb_false_r.
    destruct (Nat.eqb (length (map fst (slice0 sorted maxPatches))) 0) eqn:E.
    + apply Nat.eqb_eq in E. rewrite H1 in E. split; [| intros _; eexists; reflexivity].
      intros _. destruct patches; [now left |]. right. cbn [length] in E. lia.
    + apply Nat.eqb_neq in E. rewrite H1 in E. split; [intros [e He]; discriminate |].
      intros [-> | ->]; cbn in E; lia.
Qed.

Lemma selectBestPatches_lengths_witness :
  let patch := mkPatch (repeat 9 768) (0%Q, 0%Q) (mkSize 16 16) 0 in
  let selected := MultiDirectionalSampler.selectBestPatches [patch; patch; patch] patch 2 in
  length (fst selected) = Nat.min (Z.to_nat 2) 3 /\
  length (snd selected) = length (fst selected).
Proof.
  cbv zeta.
  destruct (selectBestPatches_lengths
              (let patch := mkPatch (repeat 9 768) (0%Q, 0%Q) (mkSize 16 16) 0 in
               [patch; patch; patch])
              (mkPatch (repeat 9 768) (0%Q, 0%Q) (mkSize 16 16) 0) 2)
    as [Hpatches [Hweights _]].
  - lia.
  - split; [exact Hpatches | exact Hweights].
Defined.

Lemma Zfloor_clamped_byte (v : R) : isByte (toUint8 (Zfloor (Rmax 0 (Rmin 255 v)))).
Proof.
  assert (H : (0 <= Rmax 0 (Rmin 255 v) <= 255)%R).
  { split; [apply Rmax_l |]. apply Rmax_lub; [lra | apply Rmin_l]. }
  pose proof (Zfloor_byte _ H) as Hb. rewrite toUint8_byte by exact Hb. exact Hb.
Qed.

(** X19: [weightAndBlendPatches] fails exactly when there is no patch or
    the numbers of patches and weights differ, always with the error
    'Invalid patches or weights'; otherwise it returns 768 bytes. *)
Theorem weightAndBlendPatches_shape (patches : list Patch) (weights : list R) :
  ((exists e, MultiDirectionalSampler.weightAndBlendPatches patches weights = inl e) <->
   patches = [] \/ length patches <> length weights) /\
  (forall e, MultiDirectionalSampler.weightAndBlendPatches patches weights = inl e ->
     e = InvalidPatchesOrWeights) /\
  (forall blended, MultiDirectionalSampler.weightAndBlendPatches patches weights = inr blended ->
     length blended = 768%nat /\ Forall isByte blended).
Proof.
  unfold MultiDirectionalSampler.weightAndBlendPatches.
  destruct (Nat.eqb (length patches) 0 ||
            negb (Nat.eqb (length patches) (length weights))) eqn:E.
  - split; [| split].
    + split; [| intros _; eexists; reflexivity].
      intros _. apply orb_true_iff in E. destruct E as [E | E].
      * left. apply Nat.eqb_eq in E. now apply length_zero_iff_nil.
      * right. apply negb_true_iff, Nat.eqb_neq in E. exact E.
    + intros e H. now injection H.
    + discriminate.
  - apply orb_false_iff in E. destruct E as [E0 E1].
    apply Nat.eqb_neq in E0. apply negb_false_iff, Nat.eqb_eq in E1.
    cbv zeta. split; [| split].
    + split; [intros [e He]; discriminate |].
      intros [-> | H]; [cbn in E0; congruence | contradiction].
    + discriminate.
    + set (n := Z.to_nat (PATCH_SIZE * PATCH_SIZE * 3)).
      set (base := map _ (seq 0 n)).
      set (final := if Rlt_dec _ _ then _ else base).
      assert (Hfinal : length final = n).
      { subst final. destruct (Rlt_dec _ _); subst base;
          repeat rewrite length_map; apply length_seq. }
      intros blended H.
      assert (Hb : blended
                   = map (fun v => toUint8 (Zfloor (Rmax 0 (Rmin 255 v)))) final)
        by congruence.
      rewrite Hb. split.
      * rewrite length_map, Hfinal. reflexivity.
      * apply Forall_map, Forall_forall. intros v _. apply Zfloor_clamped_byte.
Qed.

(** *** The methods on small images *)

Lemma allPatches_empty :
  MultiDirectionalSampler.allPatches (MultiDirectionalSampler.mkSamples [] [] [] [] [] [] [] []) = [].
Proof. reflexivity. Qed.

(** X20: on an image of at most 32 pixels in one direction the patch-based
    method fails whenever its sampling radius is below [8 * 2^53] (so that
    the sampling ends): no patch can be sampled, and blending no patches is
    the error 'Invalid patches or weights'. *)
Theorem patchBasedInpainting_small_image
  cubicResample lanczosResample edgeDirectedResample exp_
  (image : Sharp.Image) (region : Region) (options : InpaintingEngine.InpaintingOptions) :
  Sharp.image_width image <= 32 \/ Sharp.image_height image <= 32 ->
  (InpaintingEngine.samplingRadius options < inject_Z (8 * 2 ^ 53))%Q ->
  exists e,
    InpaintingEngine.patchBasedInpainting cubicResample lanczosResample
      edgeDirectedResample exp_ image region options = inl e /\
    (Sharp.image_width image <> 0 -> Sharp.image_height image <> 0 ->
     e = InvalidPatchesOrWeights).
Proof.
  intros Hsmall Hradius. unfold InpaintingEngine.patchBasedInpainting.
  destruct (Z.eq_dec (Sharp.image_width image) 0) as [HW | HW].
  { exists UnableToGetImageDimensions. split; [| contradiction].
    unfold MultiDirectionalSampler.sampleSurroundingContent. rewrite HW. reflexivity. }
  destruct (Z.eq_dec (Sharp.image_height image) 0) as [HH | HH].
  { exists UnableToGetImageDimensions. split; [| contradiction].
    unfold MultiDirectionalSampler.sampleSurroundingContent. rewrite HH, orb_true_r. reflexivity. }
  exists InvalidPatchesOrWeights. split; [| reflexivity].
  rewrite (sampleSurroundingContent_no_patches image region
             (InpaintingEngine.samplingRadius options) HW HH Hsmall Hradius).
  cbn [bind]. rewrite allPatches_empty. reflexivity.
Qed.

Lemma patchBasedInpainting_small_image_witness :
  exists e,
    InpaintingEngine.patchBasedInpainting SampleMethods.grayResample
      SampleMethods.grayResample SampleMethods.grayResample SampleMethods.unitExp
      (Sample.flatImage 32 200 128) (mkRegion 8 80 10 10) Sample.options = inl e /\
    (32 <> 0 -> 200 <> 0 -> e = InvalidPatchesOrWeights).
Proof.
  apply (patchBasedInpainting_small_image SampleMethods.grayResample
           SampleMethods.grayResample SampleMethods.grayResample SampleMethods.unitExp
           (Sample.flatImage 32 200 128) (mkRegion 8 80 10 10) Sample.options).
  - left. cbn. lia.
  - reflexivity.
Defined.

(** *** The texture method on small images *)

Lemma createAdaptiveFeathering_small laplacian applyBilateralFiltering
  applyEdgeAwareSmoothing (image : Sharp.Image) (region : Region) :
  0 < region_width region -> 0 < region_height region ->
  Sharp.image_width image <> 0 -> Sharp.image_height image <> 0 ->
  Sharp.image_width image <= 100 \/ Sharp.image_height image <= 100 ->
  EdgeFeatherer.createAdaptiveFeathering laplacian applyBilateralFiltering
    applyEdgeAwareSmoothing image region = inl BadExtractArea.
Proof.
  intros Hw Hh HW HH Hsmall.
  unfold EdgeFeatherer.createAdaptiveFeathering, EdgeFeatherer.detectEdges, Sharp.extract.
  cbn [EdgeFeatherer.expandedRegion region_x region_y region_width region_height].
  replace (_ || _) with false
    by (symmetry; apply orb_false_iff; rewrite !Z.eqb_neq; tauto).
  destruct (Sharp.validExtractArea image _ _ _ _) eqn:E; [| reflexivity].
  apply validExtractArea_spec in E. lia.
Qed.

(** X21: on an image of at most 100 pixels in one direction the
    texture-synthesis method and the hybrid method fail with the error of
    [extract], for every region of positive extent and all options. *)
Theorem textureBasedInpainting_small_image
  computeDominantFrequencies extractLBPFeatures computeGaborResponse
  analyzeStructuralElements computeColorDistribution laplacian applyBilateralFiltering
  computePowerSpectralDensity estimateGrainSize computeCorrelationLength analyzeColorNoise
  synthesizeMatchingNoise cubicResample lanczosResample edgeDirectedResample exp_ resize
  (image : Sharp.Image) (region : Region)
  (options : InpaintingEngine.InpaintingOptions) (g : Rng) :
  0 < region_width region -> 0 < region_height region ->
  Sharp.image_width image <= 100 \/ Sharp.image_height image <= 100 ->
  InpaintingEngine.textureBasedInpainting computeDominantFrequencies extractLBPFeatures
    computeGaborResponse analyzeStructuralElements computeColorDistribution laplacian
    applyBilateralFiltering computePowerSpectralDensity estimateGrainSize
    computeCorrelationLength analyzeColorNoise synthesizeMatchingNoise resize
    image region options g = inl BadExtractArea /\
  InpaintingEngine.hybridInpainting computeDominantFrequencies extractLBPFeatures
    computeGaborResponse analyzeStructuralElements computeColorDistribution laplacian
    applyBilateralFiltering computePowerSpectralDensity estimateGrainSize
    computeCorrelationLength analyzeColorNoise synthesizeMatchingNoise
    cubicResample lanczosResample edgeDirectedResample exp_ resize
    image region options g = inl BadExtractArea.
Proof.
  intros Hw Hh Hsmall.
  assert (Htexture :
    InpaintingEngine.textureBasedInpainting computeDominantFrequencies extractLBPFeatures
      computeGaborResponse analyzeStructuralElements computeColorDistribution laplacian
      applyBilateralFiltering computePowerSpectralDensity estimateGrainSize
      computeCorrelationLength analyzeColorNoise synthesizeMatchingNoise resize
      image region options g = inl BadExtractArea).
  { unfold InpaintingEngine.textureBasedInpainting, TextureAnalyzer.analyzeRegion,
      Sharp.extract.
    destruct (Sharp.validExtractArea image _ _ _ _) eqn:E; [| reflexivity].
    apply validExtractArea_spec in E. cbn [bind].
    destruct (TextureAnalyzer.generateTextureSynthesis _ g) as [synthesizedTexture g1].
    rewrite createAdaptiveFeathering_small by (try assumption; lia).
    reflexivity. }
  split; [exact Htexture |].
  unfold InpaintingEngine.hybridInpainting. rewrite Htexture. reflexivity.
Qed.

Lemma textureBasedInpainting_small_image_witness :
  InpaintingEngine.textureBasedInpainting SampleMethods.noFrequencies
    SampleMethods.noPatterns SampleMethods.noFrequencies SampleMethods.noElements
    SampleMethods.grayMean SampleMethods.rawPixels SampleMethods.unfiltered
    SampleMethods.noFrequencies (Sample.constantStatistic 0) (Sample.constantStatistic 0)
    SampleMethods.noColorNoise SampleMethods.silentNoise SampleMethods.grayResize
    (Sample.flatImage 100 100 128) (mkRegion 40 40 10 10) Sample.options Sample.noDraws
  = inl BadExtractArea.
Proof.
  apply (textureBasedInpainting_small_image SampleMethods.noFrequencies
           SampleMethods.noPatterns SampleMethods.noFrequencies SampleMethods.noElements
           SampleMethods.grayMean SampleMethods.rawPixels SampleMethods.unfiltered
           SampleMethods.noFrequencies (Sample.constantStatistic 0)
           (Sample.constantStatistic 0) SampleMethods.noColorNoise
           SampleMethods.silentNoise SampleMethods.grayResample SampleMethods.grayResample
           SampleMethods.grayResample SampleMethods.unitExp SampleMethods.grayResize
           (Sample.flatImage 100 100 128) (mkRegion 40 40 10 10) Sample.options
           Sample.noDraws).
  - cbn. lia.
  - cbn. lia.
  - left. cbn. lia.
Defined.

(** *** Cubic interpolation *)

Lemma readAtQ_integer (data : Buffer) (idx : Q) (k : Z) :
  (idx == inject_Z k)%Q -> AdvancedInterpolator.readAtQ data idx = readAt data k.
Proof.
  intros H. unfold AdvancedInterpolator.readAtQ.
  assert (Hf : Qfloor idx = k) by (rewrite H; apply Qfloor_Z).
  rewrite Hf.
  replace (Qeq_bool idx (inject_Z k)) with true
    by (symmetry; apply Qeq_bool_iff; exact H).
  reflexivity.
Qed.

Lemma clamp_integer (limit z : Z) :
  (Qmax 0 (Qmin (inject_Z limit - 1) (inject_Z z))
   == inject_Z (Z.max 0 (Z.min (limit - 1) z)))%Q.
Proof.
  assert (Hl : (inject_Z limit - 1 == inject_Z (limit - 1))%Q)
    by (rewrite inject_Z_sub; reflexivity).
  rewrite Hl.
  destruct (Z_le_gt_dec (limit - 1) z) as [H1 | H1].
  - rewrite Q.min_l by (rewrite <- Zle_Qle; exact H1).
    rewrite Z.min_l by exact H1.
    destruct (Z_le_gt_dec 0 (limit - 1)) as [H2 | H2].
    + rewrite Q.max_r by (change 0%Q with (inject_Z 0); rewrite <- Zle_Qle; exact H2).
      now rewrite Z.max_r.
    + rewrite Q.max_l by (change 0%Q with (inject_Z 0); rewrite <- Zle_Qle; lia).
      now rewrite Z.max_l by lia.
  - rewrite Q.min_r by (rewrite <- Zle_Qle; lia).
    rewrite Z.min_r by lia.
    destruct (Z_le_gt_dec 0 z) as [H2 | H2].
    + rewrite Q.max_r by (change 0%Q with (inject_Z 0); rewrite <- Zle_Qle; exact H2).
      now rewrite Z.max_r.
    + rewrite Q.max_l by (change 0%Q with (inject_Z 0); rewrite <- Zle_Qle; lia).
      now rewrite Z.max_l by lia.
Qed.

Lemma cubic1D_at_0 (v0 v1 v2 v3 t : Q) : (t == 0)%Q -> (AdvancedInterpolator.cubic1D v0 v1 v2 v3 t == v1)%Q.
Proof.
  intros Ht. unfold AdvancedInterpolator.cubic1D. rewrite Ht. ring.
Qed.

Lemma cubic1D_constant (v t : Q) : (AdvancedInterpolator.cubic1D v v v v t == v)%Q.
Proof.
  unfold AdvancedInterpolator.cubic1D. ring.
Qed.

Lemma cubic1D_compat (v0 v1 v2 v3 w0 w1 w2 w3 t : Q) :
  (v0 == w0)%Q -> (v1 == w1)%Q -> (v2 == w2)%Q -> (v3 == w3)%Q ->
  (AdvancedInterpolator.cubic1D v0 v1 v2 v3 t == AdvancedInterpolator.cubic1D w0 w1 w2 w3 t)%Q.
Proof.
  intros H0 H1 H2 H3. unfold AdvancedInterpolator.cubic1D. rewrite H0, H1, H2, H3. reflexivity.
Qed.

Lemma sampleIndex_range (x0 y0 width height channels channel j i : Z) :
  1 <= width -> 1 <= height -> 0 <= channel < channels ->
  0 <= AdvancedInterpolator.sampleIndex x0 y0 width height channels channel j i < width * height * channels.
Proof.
  intros HW HH Hc. unfold AdvancedInterpolator.sampleIndex.
  set (row := Z.max 0 (Z.min (height - 1) (y0 - 1 + j))).
  set (col := Z.max 0 (Z.min (width - 1) (x0 - 1 + i))).
  assert (Hrow : 0 <= row < height) by (subst row; lia).
  assert (Hcol : 0 <= col < width) by (subst col; lia).
  assert (H0 : 0 <= row * width) by (apply Z.mul_nonneg_nonneg; lia).
  assert (H1 : row * width + col + 1 <= width * height).
  { assert ((row + 1) * width <= height * width) by (apply Z.mul_le_mono_nonneg_r; lia).
    lia. }
  assert (H2 : 0 <= (row * width + col) * channels) by (apply Z.mul_nonneg_nonneg; lia).
  assert (H3 : (row * width + col + 1) * channels <= width * height * channels)
    by (apply Z.mul_le_mono_nonneg_r; lia).
  lia.
Qed.

Lemma cubicInterpolate_defined (data : Buffer) (x y : Q) (width height channel channels : Z) :
  1 <= width -> 1 <= height -> 0 <= channel < channels ->
  width * height * channels <= Z.of_nat (length data) ->
  let sample j i :=
    inject_Z (nth (Z.to_nat (AdvancedInterpolator.sampleIndex (Qfloor x) (Qfloor y) width height channels
                               channel j i)) data 0) in
  let dx := (x - inject_Z (Qfloor x))%Q in
  let dy := (y - inject_Z (Qfloor y))%Q in
  let row j := AdvancedInterpolator.cubic1D (sample j 0) (sample j 1) (sample j 2) (sample j 3) dx in
  AdvancedInterpolator.cubicInterpolate data x y (inject_Z width) (inject_Z height) channel channels
  = Some (AdvancedInterpolator.cubic1D (row 0) (row 1) (row 2) (row 3) dy).
Proof.
  intros HW HH Hc Hlen sample dx dy row.
  unfold AdvancedInterpolator.cubicInterpolate. cbv zeta.
  assert (Hvalue : forall j i,
    option_map inject_Z
      (AdvancedInterpolator.readAtQ data
         ((Qmax 0 (Qmin (inject_Z height - 1) (inject_Z (Qfloor y - 1 + j))) * inject_Z width
           + Qmax 0 (Qmin (inject_Z width - 1) (inject_Z (Qfloor x - 1 + i))))
          * inject_Z channels + inject_Z channel)%Q)
    = Some (sample j i)).
  { intros j i.
    rewrite (readAtQ_integer data _
               (AdvancedInterpolator.sampleIndex (Qfloor x) (Qfloor y) width height channels channel j i)).
    - rewrite readAt_nth; [reflexivity |].
      pose proof (sampleIndex_range (Qfloor x) (Qfloor y) width height channels channel
                    j i HW HH Hc). lia.
    - rewrite !clamp_integer. unfold AdvancedInterpolator.sampleIndex.
      rewrite inject_Z_plus, inject_Z_mult, inject_Z_plus, inject_Z_mult. reflexivity. }
  change (range 4) with [0; 1; 2; 3]. cbn [map].
  rewrite !Hvalue. cbn [AdvancedInterpolator.cubic1D_of]. reflexivity.
Qed.

(** X22: [cubicInterpolate] interpolates: at a point of the pixel grid it
    returns the sample of that pixel, and on constant data it returns the
    constant at every position, also outside the image. *)
Theorem cubicInterpolate_reproduces (data : Buffer)
  (width height channel channels : Z) :
  1 <= width -> 1 <= height -> 0 <= channel < channels ->
  width * height * channels <= Z.of_nat (length data) ->
  (forall x0 y0, 0 <= x0 < width -> 0 <= y0 < height ->
     exists v,
       AdvancedInterpolator.cubicInterpolate data (inject_Z x0) (inject_Z y0) (inject_Z width)
         (inject_Z height) channel channels = Some v /\
       (v == inject_Z (nth (Z.to_nat ((y0 * width + x0) * channels + channel)) data 0%Z))%Q) /\
  (forall k, Forall (fun b => b = k) data ->
     forall x y,
     exists v,
       AdvancedInterpolator.cubicInterpolate data x y (inject_Z width) (inject_Z height) channel channels
       = Some v /\ (v == inject_Z k)%Q).
Proof.
  intros HW HH Hc Hlen. split.
  - intros x0 y0 Hx Hy. eexists. split.
    + apply cubicInterpolate_defined; assumption.
    + cbv beta zeta. rewrite !Qfloor_Z.
      rewrite cubic1D_at_0 by ring. rewrite cubic1D_at_0 by ring.
      unfold AdvancedInterpolator.sampleIndex.
      replace (Z.max 0 (Z.min (height - 1) (y0 - 1 + 1))) with y0 by lia.
      replace (Z.max 0 (Z.min (width - 1) (x0 - 1 + 1))) with x0 by lia.
      reflexivity.
  - intros k Hconst x y. eexists. split.
    + apply cubicInterpolate_defined; assumption.
    + assert (Hs : forall j i,
        nth (Z.to_nat (AdvancedInterpolator.sampleIndex (Qfloor x) (Qfloor y) width height channels channel j i))
            data 0 = k).
      { intros j i.
        pose proof (sampleIndex_range (Qfloor x) (Qfloor y) width height channels channel
                      j i HW HH Hc) as Hr.
        apply (proj1 (Forall_nth (fun b => b = k) data) Hconst). lia. }
      cbv beta zeta. rewrite !Hs. rewrite !cubic1D_constant. reflexivity.
Qed.

Lemma cubicInterpolate_reproduces_witness :
  let data : Buffer := [10; 20; 30; 40] in
  exists v,
    AdvancedInterpolator.cubicInterpolate data (inject_Z 1) (inject_Z 0)
      (inject_Z 2) (inject_Z 2) 0 1 = Some v /\
    (v == inject_Z (nth (Z.to_nat ((0 * 2 + 1) * 1 + 0)) data 0%Z))%Q.
Proof.
  cbv zeta.
  apply (proj1 (cubicInterpolate_reproduces [10; 20; 30; 40] 2 2 0 1
                  ltac:(lia) ltac:(lia) ltac:(lia) ltac:(cbn; lia))); lia.
Defined.

(** *** Pattern repetition *)

(** The correlation of two blocks is an absolute value, or 0. *)
Lemma computeBlockCorrelation_nonneg (block1 block2 : Buffer) :
  (0 <= InpaintingEngine.computeBlockCorrelation block1 block2)%R.
Proof.
  unfold InpaintingEngine.computeBlockCorrelation.
  destruct ((length block2 <? length block1)%nat || Nat.eqb (length block1) 0); [lra |].
  cbv zeta. destruct (Rlt_dec 0 _); [apply Rabs_pos | lra].
Qed.

Lemma fold_Rplus_nonneg (values : list R) (acc : R) :
  Forall (fun v => 0 <= v)%R values -> (acc <= fold_left Rplus values acc)%R.
Proof.
  revert acc. induction values as [| v values IH]; intros acc H.
  - cbn. lra.
  - inversion H as [| v' l' Hv Hrest]; subst. cbn [fold_left].
    specialize (IH (acc + v)%R Hrest). lra.
Qed.

(** X23: the correlation of two blocks and the pattern-repetition statistic
    are never negative, and the statistic is 0 on a window that is narrower
    or lower than two blocks of 8 pixels (no pair of blocks fits in it). *)
Theorem analyzePatternRepetition_small_window (pixels : Buffer) (width height channels : Z) :
  (forall block1 block2, 0 <= InpaintingEngine.computeBlockCorrelation block1 block2)%R /\
  (0 <= InpaintingEngine.analyzePatternRepetition pixels width height channels)%R /\
  (width < 16 \/ height < 16 ->
   InpaintingEngine.analyzePatternRepetition pixels width height channels = 0%R).
Proof.
  split; [exact computeBlockCorrelation_nonneg |].
  unfold InpaintingEngine.analyzePatternRepetition. cbv zeta.
  set (correlations := flat_map _ _).
  assert (Hall : Forall (fun v => 0 <= v)%R correlations).
  { subst correlations. apply Forall_flat_map, Forall_forall. intros y _.
    apply Forall_map, Forall_forall. intros x _. apply computeBlockCorrelation_nonneg. }
  split.
  - destruct (0 <? length correlations)%nat eqn:E; [| lra].
    apply Nat.ltb_lt in E.
    pose proof (fold_Rplus_nonneg correlations 0 Hall) as Hsum.
    assert (Hn : (0 < INR (length correlations))%R) by (now apply lt_0_INR).
    unfold Rdiv. apply Rmult_le_pos; [lra |]. left. now apply Rinv_0_lt_compat.
  - intros Hsmall.
    assert (Hnil : correlations = []).
    { subst correlations. unfold InpaintingEngine.steps. change (8 * 2) with 16.
      destruct Hsmall as [Hw | Hh].
      - assert (Hr : range ((width - 16) / 8 + 1) = []).
        { unfold range. replace (Z.to_nat ((width - 16) / 8 + 1)) with 0%nat; [reflexivity |].
          assert ((width - 16) / 8 < 0) by (apply Z.div_lt_upper_bound; lia). lia. }
        rewrite Hr. cbn [map].
        induction (map (fun k : Z => k * 8) (range ((height - 16) / 8 + 1)));
          [reflexivity | exact IHl].
      - assert (Hr : range ((height - 16) / 8 + 1) = []).
        { unfold range. replace (Z.to_nat ((height - 16) / 8 + 1)) with 0%nat; [reflexivity |].
          assert ((height - 16) / 8 < 0) by (apply Z.div_lt_upper_bound; lia). lia. }
        rewrite Hr. reflexivity. }
    rewrite Hnil. reflexivity.
Qed.

(** *** The statistics of the context window *)

(** *** Sums of numbers that may be NaN *)

Lemma fold_addNum_None (values : list (option Q)) :
  fold_left InpaintingEngine.addNum values None = None.
Proof. induction values; [reflexivity | exact IHvalues]. Qed.

Lemma fold_addNum_defined (values : list (option Q)) (acc total : Q) :
  fold_left InpaintingEngine.addNum values (Some acc) = Some total ->
  exists qs, values = map Some qs /\ total = fold_left Qplus qs acc.
Proof.
  revert acc. induction values as [| v values IH]; intros acc H.
  - exists []. cbn in *. split; [reflexivity | congruence].
  - cbn [fold_left] in H. destruct v as [q |].
    + cbn [InpaintingEngine.addNum] in H. destruct (IH _ H) as [qs [-> Ht]].
      exists (q :: qs). split; [reflexivity | exact Ht].
    + cbn [InpaintingEngine.addNum] in H. rewrite fold_addNum_None in H. discriminate.
Qed.

Lemma fold_addNum_Some (qs : list Q) (acc : Q) :
  fold_left InpaintingEngine.addNum (map Some qs) (Some acc) = Some (fold_left Qplus qs acc).
Proof.
  revert acc. induction qs as [| q qs IH]; intros acc; [reflexivity |].
  cbn [map fold_left InpaintingEngine.addNum]. apply IH.
Qed.

Lemma fold_Qplus_bounds (qs : list Q) (lo hi acc : Q) :
  Forall (fun q => lo <= q <= hi)%Q qs ->
  (acc + lo * inject_Z (Z.of_nat (length qs)) <= fold_left Qplus qs acc
   <= acc + hi * inject_Z (Z.of_nat (length qs)))%Q.
Proof.
  revert acc. induction qs as [| q qs IH]; intros acc H.
  - cbn [fold_left length]. change (inject_Z (Z.of_nat 0)) with 0%Q. lra.
  - inversion H as [| q' l' Hq Hrest]; subst. cbn [fold_left].
    specialize (IH (acc + q)%Q Hrest).
    cbn [length]. rewrite Nat2Z.inj_succ. unfold Z.succ. rewrite inject_Z_plus.
    change (inject_Z 1) with 1%Q. lra.
Qed.

Lemma fold_Qplus_nonneg (qs : list Q) :
  Forall (fun q => 0 <= q)%Q qs -> (0 <= fold_left Qplus qs 0)%Q.
Proof.
  assert (H : forall acc, Forall (fun q => 0 <= q)%Q qs -> (0 <= acc)%Q ->
                          (0 <= fold_left Qplus qs acc)%Q).
  { induction qs as [| q qs IH]; intros acc Hall Hacc; [exact Hacc |].
    inversion Hall as [| q' l' Hq Hrest]; subst. cbn [fold_left].
    apply IH; [exact Hrest | lra]. }
  intros Hall. apply H; [exact Hall | lra].
Qed.

Lemma unit_clamp (v : Q) : (0 <= v)%Q -> (0 <= Qmin 1 (v / 10000) <= 1)%Q.
Proof.
  intros Hv. split; [| apply Q.le_min_l].
  apply Q.min_glb; [lra |].
  apply Qle_shift_div_l; [reflexivity | lra].
Qed.

(** *** The texture complexity *)

Lemma analyzeTextureComplexity_range (pixels : Buffer) (width height channels : Z) (v : Q) :
  InpaintingEngine.analyzeTextureComplexity pixels width height channels = Some v -> (0 <= v <= 1)%Q.
Proof.
  unfold InpaintingEngine.analyzeTextureComplexity, InpaintingEngine.sumNum. cbv zeta.
  set (N := width * height).
  set (grays := map (InpaintingEngine.grayAt pixels channels) (range N)).
  destruct (fold_left InpaintingEngine.addNum grays (Some 0%Q)) as [total |] eqn:Et; [| discriminate].
  destruct (N =? 0) eqn:EN; [discriminate |]. apply Z.eqb_neq in EN.
  destruct (fold_addNum_defined grays 0 total Et) as [gs [Hgs _]].
  rewrite Hgs, map_map. cbn [option_map].
  rewrite <- (map_map (fun gray => ((gray - total / inject_Z N) * (gray - total / inject_Z N))%Q)
                      Some).
  rewrite fold_addNum_Some.
  intros H. injection H as <-.
  set (squares := map _ gs).
  assert (Hsq : (0 <= fold_left Qplus squares 0)%Q).
  { apply fold_Qplus_nonneg. subst squares. apply Forall_map, Forall_forall.
    intros g _. apply Qsquare_nonneg. }
  apply unit_clamp.
  destruct (Z_lt_le_dec 0 N) as [Hpos | Hneg].
  - apply Qle_shift_div_l; [| lra].
    change 0%Q with (inject_Z 0). rewrite <- Zlt_Qlt. exact Hpos.
  - assert (Hempty : gs = []).
    { assert (Hlen : length grays = 0%nat)
        by (subst grays; rewrite length_map, range_length; lia).
      rewrite Hgs, length_map in Hlen. now apply length_zero_iff_nil. }
    subst squares. rewrite Hempty. cbn [map fold_left].
    unfold Qdiv. rewrite Qmult_0_l. apply Qle_refl.
Qed.

(** *** The colour variation *)

Lemma definedValues_length (window : list (option Z)) (values : list Z) :
  InpaintingEngine.definedValues window = Some values -> length values = length window.
Proof.
  revert values. induction window as [| v window IH]; intros values H.
  - cbn in H. injection H as <-. reflexivity.
  - cbn [InpaintingEngine.definedValues fold_right] in H. fold (InpaintingEngine.definedValues window) in H.
    destruct v as [a |]; [| discriminate].
    destruct (InpaintingEngine.definedValues window) as [w |]; [| discriminate].
    injection H as <-. cbn [length]. now rewrite (IH w eq_refl).
Qed.

Lemma channelVariance_nonneg (pixels : Buffer) (channels offset totalPixels : Z) (v : Q) :
  InpaintingEngine.channelVariance pixels channels offset totalPixels = Some v -> (0 <= v)%Q.
Proof.
  unfold InpaintingEngine.channelVariance. cbv zeta.
  set (reads := map _ (range totalPixels)).
  destruct (InpaintingEngine.definedValues reads) as [values |] eqn:Ed; [| discriminate].
  destruct (totalPixels =? 0) eqn:EN; [discriminate |]. apply Z.eqb_neq in EN.
  intros H. injection H as <-.
  pose proof (definedValues_length reads values Ed) as Hlen.
  subst reads. rewrite length_map, range_length in Hlen.
  destruct (Z_lt_le_dec 0 totalPixels) as [Hpos | Hneg].
  - apply variance_of_sums.
    + change 0%Q with (inject_Z 0). rewrite <- Zlt_Qlt. exact Hpos.
    + rewrite <- !inject_Z_mult, <- Zle_Qle.
      pose proof (square_of_sum_le values) as Hs. rewrite Hlen in Hs.
      rewrite Z2Nat.id in Hs by lia. exact Hs.
  - assert (Hempty : values = [])
      by (apply length_zero_iff_nil; lia).
    rewrite Hempty. cbn [map]. rewrite sumZ_nil.
    change (inject_Z 0) with 0%Q. unfold Qdiv. rewrite !Qmult_0_l.
    discriminate.
Qed.

Lemma analyzeColorVariation_range (pixels : Buffer) (width height channels : Z) (v : Q) :
  InpaintingEngine.analyzeColorVariation pixels width height channels = Some v -> (0 <= v <= 1)%Q.
Proof.
  unfold InpaintingEngine.analyzeColorVariation. cbv zeta.
  destruct (InpaintingEngine.channelVariance pixels channels 0 _) as [rVar |] eqn:Er; [| discriminate].
  destruct (InpaintingEngine.channelVariance pixels channels 1 _) as [gVar |] eqn:Eg; [| discriminate].
  destruct (InpaintingEngine.channelVariance pixels channels 2 _) as [bVar |] eqn:Eb; [| discriminate].
  intros H. injection H as <-.
  apply channelVariance_nonneg in Er, Eg, Eb.
  apply unit_clamp. apply Qle_shift_div_l; [reflexivity | lra].
Qed.

(** *** The edge strength *)

Lemma fold_addMagnitude_None (gradients : list (option (Z * Z))) :
  fold_left InpaintingEngine.addMagnitude gradients None = None.
Proof. induction gradients; [reflexivity | exact IHgradients]. Qed.

Lemma fold_addMagnitude_nonneg (gradients : list (option (Z * Z))) (acc e : R) :
  (0 <= acc)%R ->
  fold_left InpaintingEngine.addMagnitude gradients (Some acc) = Some e -> (0 <= e)%R.
Proof.
  revert acc. induction gradients as [| g gradients IH]; intros acc Hacc H.
  - cbn in H. injection H as <-. exact Hacc.
  - cbn [fold_left] in H. destruct g as [[gx gy] |].
    + cbn [InpaintingEngine.addMagnitude] in H. refine (IH _ _ H).
      pose proof (sqrt_pos (IZR (gx * gx + gy * gy))). lra.
    + cbn [InpaintingEngine.addMagnitude] in H. rewrite fold_addMagnitude_None in H. discriminate.
Qed.

Lemma analyzeEdgeStrength_range (pixels : Buffer) (width height channels : Z) (v : R) :
  InpaintingEngine.analyzeEdgeStrength pixels width height channels = Some v -> (0 <= v <= 1)%R.
Proof.
  unfold InpaintingEngine.analyzeEdgeStrength. cbv zeta.
  set (gradients := flat_map _ _).
  destruct (fold_left InpaintingEngine.addMagnitude gradients (Some 0%R)) as [e |] eqn:Ee; [| discriminate].
  destruct (Nat.eqb (length gradients) 0) eqn:En; [discriminate |].
  apply Nat.eqb_neq in En.
  intros H. injection H as <-.
  pose proof (fold_addMagnitude_nonneg gradients 0 e ltac:(lra) Ee) as He.
  assert (Hn : (0 < INR (length gradients))%R) by (apply lt_0_INR; lia).
  split; [| apply Rmin_l].
  apply Rmin_glb; [lra |].
  unfold Rdiv. apply Rmult_le_pos; [exact He |].
  left. apply Rinv_0_lt_compat. nra.
Qed.

(** *** A window of one colour *)

Lemma Qgtb_zero (q threshold : Q) :
  (q == 0)%Q -> (0 <= threshold)%Q -> Qgtb q threshold = false.
Proof.
  intros Hq Ht. apply Qgtb_false. rewrite Hq. lra.
Qed.

Lemma map_constant {A B : Type} (f : A -> B) (l : list A) (b : B) :
  (forall a, In a l -> f a = b) -> map f l = repeat b (length l).
Proof.
  induction l as [| a l IH]; intros H; [reflexivity |].
  cbn [map length repeat]. rewrite (H a (or_introl eq_refl)).
  f_equal. apply IH. intros a' Ha'. apply H. now right.
Qed.

Lemma flat_map_constant {A B : Type} (f : A -> list B) (l : list A) (b : list B) :
  (forall a, In a l -> f a = b) -> flat_map f l = concat (repeat b (length l)).
Proof.
  induction l as [| a l IH]; intros H; [reflexivity |].
  cbn [flat_map length repeat concat]. rewrite (H a (or_introl eq_refl)).
  f_equal. apply IH. intros a' Ha'. apply H. now right.
Qed.

Lemma definedValues_constant (k : Z) (n : nat) :
  InpaintingEngine.definedValues (repeat (Some k) n) = Some (repeat k n).
Proof.
  induction n as [| n IH]; [reflexivity |].
  cbn [repeat InpaintingEngine.definedValues fold_right]. fold (InpaintingEngine.definedValues (repeat (Some k) n)).
  now rewrite IH.
Qed.

Lemma sumZ_repeat (k : Z) (n : nat) : InpaintingEngine.sumZ (repeat k n) = k * Z.of_nat n.
Proof.
  induction n as [| n IH]; [cbn [repeat]; rewrite sumZ_nil; lia |].
  cbn [repeat]. rewrite sumZ_cons, IH. lia.
Qed.

Section FlatWindow.

Variable k width height : Z.

Hypothesis Hk : isByte k.

Hypothesis Hwidth : 3 <= width.

Hypothesis Hheight : 3 <= height.

Let pixels : Buffer := repeat k (Z.to_nat (width * height * 3)).

Let N := width * height.

Lemma flat_N : 9 <= N.
Proof. unfold N. nia. Qed.

Lemma flat_read (i offset : Z) :
  0 <= i < N -> 0 <= offset < 3 -> readAt pixels (i * 3 + offset) = Some k.
Proof.
  intros Hi Ho. unfold pixels. apply readAt_repeat. unfold N in Hi. lia.
Qed.

Lemma flat_channelVariance (offset : Z) :
  0 <= offset < 3 ->
  exists v, InpaintingEngine.channelVariance pixels 3 offset N = Some v /\ (v == 0)%Q.
Proof.
  intros Ho. pose proof flat_N as HN.
  unfold InpaintingEngine.channelVariance. cbv zeta.
  assert (Hreads : map (fun i => readAt pixels (i * 3 + offset)) (range N)
                   = repeat (Some k) (length (range N))).
  { apply map_constant. intros i Hi. apply in_range in Hi. now apply flat_read. }
  rewrite Hreads, definedValues_constant.
  replace (N =? 0) with false by (symmetry; apply Z.eqb_neq; lia).
  eexists. split; [reflexivity |].
  rewrite map_repeat, !sumZ_repeat, range_length, Z2Nat.id by lia.
  assert (HNq : (0 < inject_Z N)%Q)
    by (change 0%Q with (inject_Z 0); rewrite <- Zlt_Qlt; lia).
  rewrite !inject_Z_mult. field. lra.
Qed.

Lemma flat_colour :
  exists v, InpaintingEngine.analyzeColorVariation pixels width height 3 = Some v /\ (v == 0)%Q.
Proof.
  unfold InpaintingEngine.analyzeColorVariation. cbv zeta. fold N.
  destruct (flat_channelVariance 0 ltac:(lia)) as [rVar [Er Hr]].
  destruct (flat_channelVariance 1 ltac:(lia)) as [gVar [Eg Hg]].
  destruct (flat_channelVariance 2 ltac:(lia)) as [bVar [Eb Hb]].
  rewrite Er, Eg, Eb. eexists. split; [reflexivity |].
  rewrite Hr, Hg, Hb. reflexivity.
Qed.

Lemma flat_gradient (x y : Z) :
  1 <= x < width - 1 -> 1 <= y < height - 1 ->
  exists gx gy, InpaintingEngine.gradientAt pixels width 3 x y = Some (gx, gy) /\ gx = 0 /\ gy = 0.
Proof.
  intros Hx Hy. unfold InpaintingEngine.gradientAt.
  change (range 3) with [0; 1; 2]. cbn [fold_left].
  unfold pixels. rewrite !readAt_repeat by nia.
  eexists. eexists. split; [reflexivity |]. lia.
Qed.

Lemma flat_edge : InpaintingEngine.analyzeEdgeStrength pixels width height 3 = Some 0%R.
Proof.
  unfold InpaintingEngine.analyzeEdgeStrength. cbv zeta.
  set (gradients := flat_map _ _).
  assert (Hall : Forall (fun g => exists gx gy, g = Some (gx, gy) /\ gx = 0 /\ gy = 0)
                        gradients).
  { subst gradients. apply Forall_flat_map, Forall_forall. intros y Hy.
    apply in_rangeFrom in Hy.
    apply Forall_map, Forall_forall. intros x Hx. apply in_rangeFrom in Hx.
    now apply flat_gradient. }
  assert (Hsum : fold_left InpaintingEngine.addMagnitude gradients (Some 0%R) = Some 0%R).
  { clearbody gradients. induction gradients as [| g gradients IH]; [reflexivity |].
    inversion Hall as [| g' l' [gx [gy [-> [-> ->]]]] Hrest]; subst.
    cbn [fold_left InpaintingEngine.addMagnitude].
    replace (0 + sqrt (IZR (0 * 0 + 0 * 0)))%R with 0%R
      by (cbn [Z.mul Z.add]; rewrite sqrt_0; lra).
    exact (IH Hrest). }
  rewrite Hsum.
  assert (Hcount : length gradients = Z.to_nat ((height - 2) * (width - 2))).
  { subst gradients. rewrite length_flat_map_blocks with (k := Z.to_nat (width - 2)).
    - rewrite rangeFrom_length. nia.
    - intros y _. rewrite length_map, rangeFrom_length. f_equal. lia. }
  replace (Nat.eqb (length gradients) 0) with false
    by (symmetry; apply Nat.eqb_neq; rewrite Hcount; nia).
  f_equal. unfold Rdiv. rewrite Rmult_0_l. apply Rmin_right. lra.
Qed.

Lemma flat_block (x y : Z) :
  0 <= x -> x + 8 <= width -> 0 <= y -> y + 8 <= height ->
  InpaintingEngine.extractBlock pixels width 3 x y 8 = repeat k 192.
Proof.
  intros Hx0 Hx1 Hy0 Hy1. unfold InpaintingEngine.extractBlock. cbv zeta.
  rewrite (flat_map_constant _ (range 8) (repeat k 24)); [reflexivity |].
  intros by_ Hby. apply in_range in Hby.
  rewrite (flat_map_constant _ (range 8) (repeat k 3)); [reflexivity |].
  intros bx Hbx. apply in_range in Hbx.
  change (repeat k 3) with (repeat k (length (range 3))).
  apply map_constant. intros c Hc. apply in_range in Hc.
  rewrite flat_read; [cbn [byteOrZero]; now apply toUint8_byte | | lia].
  unfold N. nia.
Qed.

Lemma constant_block_correlation (c : Z) (n : nat) (block2 : Buffer) :
  InpaintingEngine.computeBlockCorrelation (repeat c n) block2 = 0%R.
Proof.
  unfold InpaintingEngine.computeBlockCorrelation. rewrite repeat_length.
  destruct ((length block2 <? n)%nat || Nat.eqb n 0) eqn:Ecase; [reflexivity |].
  apply orb_false_iff in Ecase. destruct Ecase as [Hlen Hne].
  apply Nat.ltb_ge in Hlen. apply Nat.eqb_neq in Hne.
  cbv zeta.
  set (pairs := combine (repeat c n) block2).
  assert (Hfst : map fst pairs = repeat c n).
  { subst pairs. clear Hne. revert block2 Hlen.
    induction n as [| n IH]; intros block2 Hlen; [reflexivity |].
    destruct block2 as [| b block2]; [cbn in Hlen; lia |].
    cbn [repeat combine map fst]. f_equal. apply IH. cbn in Hlen. lia. }
  assert (HfstSq : map (fun p : Z * Z => fst p * fst p) pairs = repeat (c * c) n).
  { rewrite <- (map_map fst (fun a => a * a)), Hfst, map_repeat. reflexivity. }
  rewrite Hfst, HfstSq, !sumZ_repeat.
  assert (Hn : (0 < IZR (Z.of_nat n))%R) by (apply IZR_lt; lia).
  rewrite !mult_IZR.
  set (rn := IZR (Z.of_nat n)) in *. clearbody rn.
  replace (IZR c * IZR c * rn - IZR c * rn * (IZR c * rn) / rn)%R with 0%R
    by (field; lra).
  rewrite Rmult_0_l, sqrt_0.
  destruct (Rlt_dec 0 0) as [H | H]; [lra | reflexivity].
Qed.

Lemma flat_pattern : InpaintingEngine.analyzePatternRepetition pixels width height 3 = 0%R.
Proof.
  unfold InpaintingEngine.analyzePatternRepetition. cbv zeta.
  set (correlations := flat_map _ _).
  assert (Hall : Forall (fun v => v = 0%R) correlations).
  { subst correlations. apply Forall_flat_map, Forall_forall. intros y Hy.
    apply in_steps in Hy; [| lia].
    apply Forall_map, Forall_forall. intros x Hx. apply in_steps in Hx; [| lia].
    rewrite flat_block by lia.
    apply constant_block_correlation. }
  assert (Hsum : fold_left Rplus correlations 0%R = 0%R).
  { clearbody correlations. induction correlations as [| v l IH]; [reflexivity |].
    inversion Hall as [| v' l' -> Hrest]; subst. cbn [fold_left].
    rewrite Rplus_0_l. exact (IH Hrest). }
  rewrite Hsum. destruct (0 <? length correlations)%nat; [| reflexivity].
  unfold Rdiv. apply Rmult_0_l.
Qed.

End FlatWindow.

(** *** The statistics are numbers on a full window *)

Lemma fold_addNum_all_defined (values : list (option Q)) (acc : Q) :
  Forall (fun v => exists q, v = Some q) values ->
  exists total, fold_left InpaintingEngine.addNum values (Some acc) = Some total.
Proof.
  revert acc. induction values as [| v values IH]; intros acc H.
  - now exists acc.
  - inversion H as [| v' l' [q ->] Hrest]; subst. cbn [fold_left InpaintingEngine.addNum].
    apply IH. exact Hrest.
Qed.

Lemma window_read (pixels : Buffer) (channels N i offset : Z) :
  3 <= channels -> 0 <= i < N -> 0 <= offset < 3 ->
  N * channels <= Z.of_nat (length pixels) ->
  exists a, readAt pixels (i * channels + offset) = Some a.
Proof.
  intros Hc Hi Ho Hlen. apply readAt_defined.
  assert (0 <= i * channels) by (apply Z.mul_nonneg_nonneg; lia).
  assert ((i + 1) * channels <= N * channels) by (apply Z.mul_le_mono_nonneg_r; lia).
  lia.
Qed.

Lemma analyzeTextureComplexity_defined (pixels : Buffer) (width height channels : Z) :
  3 <= channels -> 0 < width * height ->
  width * height * channels <= Z.of_nat (length pixels) ->
  exists v, InpaintingEngine.analyzeTextureComplexity pixels width height channels = Some v.
Proof.
  intros Hc HN Hlen. unfold InpaintingEngine.analyzeTextureComplexity, InpaintingEngine.sumNum. cbv zeta.
  set (N := width * height) in *.
  assert (Hgrays : Forall (fun v => exists q, v = Some q)
                          (map (InpaintingEngine.grayAt pixels channels) (range N))).
  { apply Forall_map, Forall_forall. intros i Hi. apply in_range in Hi.
    unfold InpaintingEngine.grayAt.
    destruct (window_read pixels channels N i 0 Hc Hi ltac:(lia) Hlen) as [r Hr].
    destruct (window_read pixels channels N i 1 Hc Hi ltac:(lia) Hlen) as [g Hg].
    destruct (window_read pixels channels N i 2 Hc Hi ltac:(lia) Hlen) as [b Hb].
    rewrite Z.add_0_r in Hr. rewrite Hr, Hg, Hb. eexists. reflexivity. }
  destruct (fold_addNum_all_defined _ 0 Hgrays) as [total Ht]. rewrite Ht.
  replace (N =? 0) with false by (symmetry; apply Z.eqb_neq; lia).
  set (f := fun gray : Q =>
              ((gray - total / inject_Z N) * (gray - total / inject_Z N))%Q).
  assert (Hdev : Forall (fun v => exists q, v = Some q)
                        (map (option_map f) (map (InpaintingEngine.grayAt pixels channels) (range N)))).
  { apply Forall_map. eapply Forall_impl; [| exact Hgrays].
    intros v [q ->]. eexists. reflexivity. }
  destruct (fold_addNum_all_defined _ 0 Hdev) as [variance Hv]. rewrite Hv.
  eexists. reflexivity.
Qed.

Lemma analyzeColorVariation_defined (pixels : Buffer) (width height channels : Z) :
  3 <= channels -> 0 < width * height ->
  width * height * channels <= Z.of_nat (length pixels) ->
  exists v, InpaintingEngine.analyzeColorVariation pixels width height channels = Some v.
Proof.
  intros Hc HN Hlen. unfold InpaintingEngine.analyzeColorVariation. cbv zeta.
  set (N := width * height) in *.
  assert (Hchannel : forall offset, 0 <= offset < 3 ->
            exists v, InpaintingEngine.channelVariance pixels channels offset N = Some v).
  { intros offset Ho. unfold InpaintingEngine.channelVariance. cbv zeta.
    destruct (definedValues_all
                (map (fun i => readAt pixels (i * channels + offset)) (range N)))
      as [values [Hvalues _]].
    { apply Forall_map, Forall_forall. intros i Hi. apply in_range in Hi.
      now apply window_read with (N := N). }
    rewrite Hvalues.
    replace (N =? 0) with false by (symmetry; apply Z.eqb_neq; lia).
    eexists. reflexivity. }
  destruct (Hchannel 0 ltac:(lia)) as [rVar ->].
  destruct (Hchannel 1 ltac:(lia)) as [gVar ->].
  destruct (Hchannel 2 ltac:(lia)) as [bVar ->].
  eexists. reflexivity.
Qed.

(** X24: the texture complexity and the colour variation, when they are
    numbers, lie between 0 and 1; they are numbers on a non-empty window whose
    buffer holds all its pixels, and NaN on an empty window. *)
Theorem context_variances_range (pixels : Buffer) (width height channels : Z) :
  (forall v, InpaintingEngine.analyzeTextureComplexity pixels width height channels = Some v ->
             (0 <= v <= 1)%Q) /\
  (forall v, InpaintingEngine.analyzeColorVariation pixels width height channels = Some v ->
             (0 <= v <= 1)%Q) /\
  (3 <= channels -> 0 < width * height ->
   width * height * channels <= Z.of_nat (length pixels) ->
   (exists v, InpaintingEngine.analyzeTextureComplexity pixels width height channels = Some v) /\
   (exists v, InpaintingEngine.analyzeColorVariation pixels width height channels = Some v)) /\
  (width * height = 0 ->
   InpaintingEngine.analyzeTextureComplexity pixels width height channels = None /\
   InpaintingEngine.analyzeColorVariation pixels width height channels = None).
Proof.
  split; [intros v; apply analyzeTextureComplexity_range |].
  split; [intros v; apply analyzeColorVariation_range |].
  split.
  - intros Hc HN Hlen. split.
    + now apply analyzeTextureComplexity_defined.
    + now apply analyzeColorVariation_defined.
  - intros H0. unfold InpaintingEngine.analyzeTextureComplexity, InpaintingEngine.analyzeColorVariation,
      InpaintingEngine.channelVariance, InpaintingEngine.sumNum. rewrite H0. split; reflexivity.
Qed.

(** X25: on a window of one colour, at least 3x3 pixels, the colour
    variation, the edge strength and the pattern repetition are 0; and with
    these three at 0 a texture complexity of at most 0.5 selects the basic
    method. *)
Theorem flat_window_statistics (k width height : Z) :
  isByte k -> 3 <= width -> 3 <= height ->
  let pixels := repeat k (Z.to_nat (width * height * 3)) in
  (exists v, InpaintingEngine.analyzeColorVariation pixels width height 3 = Some v /\ (v == 0)%Q) /\
  InpaintingEngine.analyzeEdgeStrength pixels width height 3 = Some 0%R /\
  InpaintingEngine.analyzePatternRepetition pixels width height 3 = 0%R /\
  (forall textureComplexity colorVariation,
     (textureComplexity <= 0.5)%Q -> (colorVariation == 0)%Q ->
     InpaintingEngine.determineInpaintingMethod textureComplexity 0 colorVariation 0
     = InpaintingEngine.basic).
Proof.
  intros Hk Hw Hh pixels. subst pixels.
  split; [now apply flat_colour |].
  split; [now apply flat_edge |].
  split; [now apply flat_pattern |].
  intros tc cv Htc Hcv. unfold InpaintingEngine.determineInpaintingMethod.
  rewrite (proj2 (Qgtb_false tc 0.7)) by lra.
  rewrite (proj2 (Qgtb_false tc 0.5)) by lra.
  rewrite (Qgtb_zero cv 0.6 Hcv) by discriminate.
  reflexivity.
Qed.

Lemma flat_window_statistics_witness :
  let pixels := repeat 128 (Z.to_nat (4 * 3 * 3)) in
  (exists v, InpaintingEngine.analyzeColorVariation pixels 4 3 3 = Some v /\ (v == 0)%Q) /\
  InpaintingEngine.analyzeEdgeStrength pixels 4 3 3 = Some 0%R /\
  InpaintingEngine.analyzePatternRepetition pixels 4 3 3 = 0%R /\
  (forall textureComplexity colorVariation,
     (textureComplexity <= 0.5)%Q -> (colorVariation == 0)%Q ->
     InpaintingEngine.determineInpaintingMethod textureComplexity 0 colorVariation 0
     = InpaintingEngine.basic).
Proof.
  apply (flat_window_statistics 128 4 3).
  - unfold isByte. lia.
  - lia.
  - lia.
Defined.

(** X26: the edge strength, when it is a number, lies between 0 and 1, and
    it is NaN on a window that is narrower or lower than 3 pixels. *)
Theorem analyzeEdgeStrength_unit_interval (pixels : Buffer) (width height channels : Z) :
  (forall v, InpaintingEngine.analyzeEdgeStrength pixels width height channels = Some v ->
             (0 <= v <= 1)%R) /\
  (width < 3 \/ height < 3 ->
   InpaintingEngine.analyzeEdgeStrength pixels width height channels = None).
Proof.
  split; [intros v; apply analyzeEdgeStrength_range |].
  intros Hsmall. unfold InpaintingEngine.analyzeEdgeStrength. cbv zeta.
  assert (Hnil : flat_map (fun y =>
              map (fun x => InpaintingEngine.gradientAt pixels width channels x y)
                  (rangeFrom 1 (width - 1))) (rangeFrom 1 (height - 1)) = []).
  { destruct Hsmall as [Hw | Hh].
    - assert (Hr : rangeFrom 1 (width - 1) = []).
      { apply length_zero_iff_nil. rewrite rangeFrom_length. lia. }
      rewrite Hr. cbn [map].
      induction (rangeFrom 1 (height - 1)); [reflexivity | assumption].
    - assert (Hr : rangeFrom 1 (height - 1) = []).
      { apply length_zero_iff_nil. rewrite rangeFrom_length. lia. }
      rewrite Hr. reflexivity. }
  rewrite Hnil. reflexivity.
Qed.

(** *** Local binary patterns *)

Lemma storeAt_last {A : Type} (l : list A) (a v : A) :
  storeAt (l ++ [a]) (Z.of_nat (length l)) v = l ++ [v].
Proof.
  unfold storeAt. rewrite length_app. cbn [length].
  replace ((Z.of_nat (length l) <? 0) || (Z.of_nat (length l + 1) <=? Z.of_nat (length l)))
    with false by (symmetry; apply orb_false_iff; rewrite Z.ltb_ge, Z.leb_gt; lia).
  rewrite Nat2Z.id.
  rewrite firstn_app, firstn_all, Nat.sub_diag, firstn_0, app_nil_r.
  rewrite skipn_all2 by (rewrite length_app; cbn [length]; lia).
  reflexivity.
Qed.

Lemma countPattern_last (l : Buffer) (c : Z) :
  length l = 255%nat ->
  TextureAnalyzer.countPattern (l ++ [c mod 256]) 255 = l ++ [(c + 1) mod 256].
Proof.
  intros Hl. unfold TextureAnalyzer.countPattern.
  replace 255 with (Z.of_nat (length l)) at 1 2 by (rewrite Hl; reflexivity).
  rewrite Nat2Z.id, nth_middle, storeAt_last.
  unfold toUint8. now rewrite Z.add_mod_idemp_l by lia.
Qed.

Lemma fold_countPattern (A : Type) (value : A -> Z) (items : list A) (l : Buffer) (c : Z) :
  length l = 255%nat ->
  (forall a, In a items -> value a = 255) ->
  fold_left (fun histogram a => TextureAnalyzer.countPattern histogram (value a)) items (l ++ [c mod 256])
  = l ++ [(c + Z.of_nat (length items)) mod 256].
Proof.
  intros Hl. revert c. induction items as [| a items IH]; intros c H.
  - cbn [fold_left length]. now rewrite Z.add_0_r.
  - cbn [fold_left]. rewrite (H a (or_introl eq_refl)), countPattern_last by exact Hl.
    rewrite IH by (intros a' Ha'; apply H; now right).
    f_equal. f_equal. f_equal. cbn [length]. lia.
Qed.

Section FlatTexture.

Variable k width height : Z.

Hypothesis Hwidth : 3 <= width.

Hypothesis Hheight : 3 <= height.

Let pixels : Buffer := repeat k (Z.to_nat (width * height * 3)).

Let gray : Z :=
  toUint8 (Qfloor (0.299 * inject_Z k + 0.587 * inject_Z k + 0.114 * inject_Z k)%Q).

Lemma flat_grayscale :
  TextureAnalyzer.convertToGrayscale pixels width height 3 = repeat gray (Z.to_nat (width * height)).
Proof.
  unfold TextureAnalyzer.convertToGrayscale.
  rewrite <- (range_length (width * height)).
  apply map_constant. intros i Hi. apply in_range in Hi.
  unfold pixels. rewrite !readAt_repeat by lia. reflexivity.
Qed.

Lemma flat_lbpValue (x y : Z) :
  1 <= x < width - 1 -> 1 <= y < height - 1 ->
  TextureAnalyzer.lbpValueAt (repeat gray (Z.to_nat (width * height))) width x y = 255.
Proof.
  intros Hx Hy. unfold TextureAnalyzer.lbpValueAt.
  rewrite !readAt_repeat by nia.
  change (range 8) with [0; 1; 2; 3; 4; 5; 6; 7].
  cbn [combine fold_left fst snd TextureAnalyzer.atLeast].
  rewrite Z.geb_leb, Z.leb_refl. reflexivity.
Qed.

Lemma flat_histogram :
  fold_left (fun lbpHistogram y =>
      fold_left (fun lbpHistogram x =>
                   TextureAnalyzer.countPattern lbpHistogram
                     (TextureAnalyzer.lbpValueAt (repeat gray (Z.to_nat (width * height))) width x y))
                (rangeFrom 1 (width - 1)) lbpHistogram)
      (rangeFrom 1 (height - 1)) (repeat 0 256)
  = repeat 0 255 ++ [((width - 2) * (height - 2)) mod 256].
Proof.
  assert (Hrows : forall (rows : list Z) (c : Z),
    (forall y, In y rows -> 1 <= y < height - 1) ->
    fold_left (fun lbpHistogram y =>
      fold_left (fun lbpHistogram x =>
                   TextureAnalyzer.countPattern lbpHistogram
                     (TextureAnalyzer.lbpValueAt (repeat gray (Z.to_nat (width * height))) width x y))
                (rangeFrom 1 (width - 1)) lbpHistogram)
      rows (repeat 0 255 ++ [c mod 256])
    = repeat 0 255 ++ [(c + (width - 2) * Z.of_nat (length rows)) mod 256]).
  { induction rows as [| y rows IH]; intros c Hrows.
    - cbn [fold_left length]. f_equal. f_equal. f_equal. lia.
    - cbn [fold_left].
      rewrite (fold_countPattern Z
                 (fun x => TextureAnalyzer.lbpValueAt (repeat gray (Z.to_nat (width * height))) width x y)).
      + rewrite IH by (intros y' Hy'; apply Hrows; now right).
        f_equal. f_equal. f_equal. rewrite rangeFrom_length. cbn [length]. lia.
      + apply repeat_length.
      + intros x Hx. apply in_rangeFrom in Hx. apply flat_lbpValue; [lia |].
        apply Hrows. now left. }
  change (repeat 0 256) with (repeat 0 255 ++ [0 mod 256]).
  rewrite Hrows by (intros y Hy; now apply in_rangeFrom in Hy).
  f_equal. f_equal. f_equal. rewrite rangeFrom_length. lia.
Qed.

Lemma flat_lbp :
  TextureAnalyzer.extractLBPFeatures pixels width height 3
  = repeat 0 255
    ++ [toUint8 (Qfloor (inject_Z (((width - 2) * (height - 2)) mod 256)
                         / inject_Z ((width - 2) * (height - 2)) * 255)%Q)].
Proof.
  unfold TextureAnalyzer.extractLBPFeatures. cbv zeta.
  rewrite flat_grayscale, flat_histogram, map_app.
  f_equal.
Qed.

End FlatTexture.

(** X27: on a window of one colour every interior pixel has the pattern
    255, so all other bins of the histogram are 0; the count of bin 255 is
    kept in a byte: with fewer than 256 interior pixels the bin is 255, and
    when the number of interior pixels is a multiple of 256 the count wraps
    to 0 and the whole histogram is 0. *)
Theorem extractLBPFeatures_counts_wrap (k width height : Z) :
  isByte k -> 3 <= width -> 3 <= height ->
  let pixels := repeat k (Z.to_nat (width * height * 3)) in
  let interior := (width - 2) * (height - 2) in
  let histogram := TextureAnalyzer.extractLBPFeatures pixels width height 3 in
  length histogram = 256%nat /\
  (forall pattern, 0 <= pattern < 255 -> nth (Z.to_nat pattern) histogram 0 = 0) /\
  (interior < 256 -> nth 255 histogram 0 = 255) /\
  (interior mod 256 = 0 -> histogram = repeat 0 256).
Proof.
  intros _ Hw Hh pixels interior histogram. subst pixels histogram.
  rewrite flat_lbp by assumption. fold interior.
  assert (Hpos : 1 <= interior) by (subst interior; nia).
  split; [| split; [| split]].
  - rewrite length_app, repeat_length. reflexivity.
  - intros pattern Hp. rewrite app_nth1 by (rewrite repeat_length; lia).
    apply nth_repeat.
  - intros Hsmall. rewrite app_nth2 by (rewrite repeat_length; lia).
    rewrite repeat_length. cbn [Nat.sub nth].
    rewrite Z.mod_small by lia.
    rewrite (Qfloor_inject 255); [reflexivity |].
    assert (Hq : (0 < inject_Z interior)%Q)
      by (change 0%Q with (inject_Z 0); rewrite <- Zlt_Qlt; lia).
    field. lra.
  - intros Hwrap. rewrite Hwrap.
    rewrite (Qfloor_inject 0); [reflexivity |].
    unfold Qdiv. ring.
Qed.

Lemma extractLBPFeatures_counts_wrap_witness :
  TextureAnalyzer.extractLBPFeatures (repeat 128 (Z.to_nat (18 * 18 * 3))) 18 18 3
  = repeat 0 256.
Proof.
  apply (extractLBPFeatures_counts_wrap 128 18 18).
  - unfold isByte. lia.
  - lia.
  - lia.
  - reflexivity.
Defined.
